(** * tlx/sort/parallel_mergesort.hpp: parallel multiway mergesort

    Shallow embedding of [parallel_mergesort], [parallel_sort_mwms_pu] and
    [determine_samples], in the configuration the header compiles to when
    [STXXL_MULTIWAY_MERGESORT_COPY_LAST] is not defined: every processing
    unit (PU) sorts a private copy of its chunk and merges straight into the
    caller's sequence.

    Conventions of the embedding.
    - The caller's sequence [begin, end) is a [list A]; iterators and
      pointers into it are indices.
    - [size_t] and [DiffType] values are indices and lengths of an in-memory
      sequence; they are read as [nat].  The one signed computation whose
      intermediate terms could be negative, [length_am], is carried in [Z].
      The two places where unsigned arithmetic leaves the naturals are
      modelled as the failure they lead to: an empty team
      ([n / num_threads] divides by zero) and
      [oversampling * num_threads - 1] at zero (the sample buffer is asked
      for [2^64 - num_threads] cells).
    - A read or a write outside the object it addresses is undefined
      behaviour in C++; the embedding returns [None] there, and [None]
      propagates to the caller.
    - The OpenMP team runs the same code on every PU, separated by barriers.
      Between two barriers a PU writes only slots indexed by its own [iam],
      so a phase of the team is the PUs of that phase taken in [iam] order.
    - [std::sort], [std::stable_sort], the merge kernel
      [multiway_merge_base], the rank selection [multisequence_partition]
      and the range-division helper [equally_split] are not part of this
      header: they are section variables, constrained by their contracts
      where a proof needs them.  [equally_split_model] is the helper as the
      specification describes it. *)

From Stdlib Require Import List Arith ZArith Lia Bool Permutation Sorted.
Import ListNotations.

Set Implicit Arguments.

(** ** Undefined behaviour as [option] *)

Definition obind {X Y : Type} (o : option X) (k : X -> option Y) : option Y :=
  match o with
  | Some x => k x
  | None => None
  end.

Notation "x <- c ;; k" := (obind c (fun x => k))
  (at level 61, c at next level, right associativity).

Fixpoint omap {X Y : Type} (f : X -> option Y) (l : list X) : option (list Y) :=
  match l with
  | [] => Some []
  | x :: r => y <- f x ;; ys <- omap f r ;; Some (y :: ys)
  end.

Fixpoint ofold {X S : Type} (f : S -> X -> option S) (l : list X) (s : S) : option S :=
  match l with
  | [] => Some s
  | x :: r => s' <- f s x ;; ofold f r s'
  end.

(** [src[off .. off+len)], as [std::uninitialized_copy] reads it. *)
Definition read_range {X : Type} (src : list X) (off len : nat) : option (list X) :=
  if off + len <=? length src then Some (firstn len (skipn off src)) else None.

(** [dst[off .. off + |data|) := data], as the merge kernel writes its target. *)
Definition write_range {X : Type} (dst : list X) (off : nat) (data : list X) : option (list X) :=
  if off + length data <=? length dst
  then Some (firstn off dst ++ data ++ skipn (off + length data) dst)
  else None.

(** The cells [b .. e) of [p]. *)
Definition slice {X : Type} (b e : nat) (p : list X) : list X :=
  firstn (e - b) (skipn b p).

(** The iterator pair [(p + b, p + e)] over the buffer [p]. *)
Definition subrange {X : Type} (p : list X) (b e : nat) : option (list X) :=
  if (b <=? e) && (e <=? length p) then Some (slice b e p) else None.

Definition oget {X : Type} (d : X) (o : option X) : X :=
  match o with
  | Some x => x
  | None => d
  end.

Definition sum_nat (l : list nat) : nat := fold_left Nat.add l 0.
Definition sum_Z (l : list Z) : Z := fold_left Z.add l 0%Z.

(** ** Range division *)

(** The loop of [parallel_mergesort], lines 325-335: [count] iterations left,
    [i] the loop index, [start] the running sum; the last entry is
    [starts[num_threads] = start]. *)
Fixpoint starts_loop (chunk_length split count i start : nat) : list nat :=
  match count with
  | 0 => [start]
  | S count' =>
      start :: starts_loop chunk_length split count' (S i)
                 (start + (if i <? split then chunk_length + 1 else chunk_length))
  end.

(** Lines 325-335.  [n / num_threads] and [n % num_threads] divide by zero
    for an empty team. *)
Definition compute_starts (n num_threads : nat) : option (list nat) :=
  if num_threads =? 0 then None
  else Some (starts_loop (n / num_threads) (n mod num_threads) num_threads 0 0).

(** Modelled from the spec: [equally_split] (tlx/algorithm, not in this
    header), the range-division helper: given a length [n] and a split
    count [p] it returns [p + 1] non-decreasing offsets partitioning
    [0, n] as evenly as possible, the remainder distributed to the front. *)
Definition equally_split_model (n p : nat) : option (list nat) :=
  if p =? 0 then None
  else Some (starts_loop (n / p) (n mod p) p 0 0).

(** ** Data shared by the team *)

Inductive MultiwayMergeSplittingAlgorithm : Set :=
  | MWMSA_SAMPLING
  | MWMSA_EXACT.

(** Subsequence description. *)
Record PMWMSPiece : Set := mkPiece {
  piece_begin : nat;
  piece_end : nat
}.

(** A block obtained from [::operator new]: [capacity] cells, of which the
    leading [cells] are constructed. *)
Record TempBuffer (A : Type) : Type := mkTemp {
  capacity : nat;
  cells : list A
}.

Record PMWMSSortingData (A : Type) : Type := mkSD {
  source : list A;
  starts : list nat;
  temporary : list (TempBuffer A);
  samples : list A;
  pieces : list (list PMWMSPiece);
  merging_places : list nat
}.

(** What the call asks of the runtime, in program order. *)
Inductive Event : Set :=
  | Allocate (cells : nat)
  | Parallel (team : nat)
  | Release (iam : nat).

Record Outcome (A : Type) : Type := mkOutcome {
  sequence : list A;
  events : list Event
}.

(** ** Reference kernels

    Executable instances of the external kernels, used to run the embedding
    on concrete inputs. *)

Section Kernels.
Context {A : Type}.
Variable comp : A -> A -> bool.

Fixpoint insert_sorted (a : A) (l : list A) : list A :=
  match l with
  | [] => [a]
  | y :: r => if comp y a then y :: insert_sorted a r else a :: y :: r
  end.

Fixpoint insertion_sort (l : list A) : list A :=
  match l with
  | [] => []
  | a :: r => insert_sorted a (insertion_sort r)
  end.

(** Two-way merge; on a tie the element of the left sequence goes first. *)
Fixpoint merge2 (l1 : list A) : list A -> list A :=
  fix inner (l2 : list A) : list A :=
    match l1, l2 with
    | [], _ => l2
    | _, [] => l1
    | a :: r1, b :: r2 =>
        if comp b a then b :: inner r2 else a :: merge2 r1 l2
    end.

Definition kway_merge (Stable : bool) (seqs : list (list A)) (len : Z) : list A :=
  firstn (Z.to_nat len) (fold_right merge2 [] seqs).
End Kernels.

(** A range-division helper that keeps every inner offset below the
    length: the offsets of [equally_split_model], clamped to [n - 1].  It
    serves to run the embedding with a helper of that kind. *)
Definition equally_split_clamped (n p : nat) : option (list nat) :=
  if p =? 0 then None
  else Some (map (fun k => if k <? p
                           then Nat.min (k * (n / p) + Nat.min k (n mod p)) (n - 1)
                           else n)
                 (seq 0 (p + 1))).

Section RankSelection.
Context {A : Type}.
Variable comp : A -> A -> bool.

Definition tag_sequences (seqs : list (list A)) : list (list (nat * A)) :=
  map (fun p => map (pair (fst p)) (snd p)) (combine (seq 0 (length seqs)) seqs).

(** Modelled from the spec: [multisequence_partition]
    (tlx/algorithm/multisequence_selection.hpp, not in this header):
    given sorted sequences and a global rank, per-sequence offsets that sum
    to the rank and split a valid global order at that rank. *)
Definition rank_partition (seqs : list (list A)) (rank : nat) : list nat :=
  let merged :=
    fold_right (merge2 (fun x y => comp (snd x) (snd y))) [] (tag_sequences seqs) in
  let low := firstn rank merged in
  map (fun s => length (filter (fun x => fst x =? s) low)) (seq 0 (length seqs)).
End RankSelection.

(** ** The sort *)

Section PMWMS.
Context {A : Type}.

(** The comparator of the call. *)
Variable comp : A -> A -> bool.

(** The global [sort_mwms_oversampling] (initially 10). *)
Variable sort_mwms_oversampling : nat.

(** [equally_split(n, p, out)], the range-division helper of the repository
    (not in this header): the [p + 1] offsets it writes. *)
Variable equally_split : nat -> nat -> option (list nat).

(** [std::sort] and [std::stable_sort] under [comp]. *)
Variable std_sort : list A -> list A.
Variable std_stable_sort : list A -> list A.

(** [multiway_merge_base<Stable, false>(seqs, target, length, comp)]: the
    [length] merged elements written to the target. *)
Variable multiway_merge_base : bool -> list (list A) -> Z -> list A.

(** [multisequence_partition(seqs, rank, offsets, comp)]: the offsets. *)
Variable multisequence_partition : list (list A) -> nat -> list nat.

(** [std::lower_bound] on a range partitioned by [comp(., v)]: the position
    of the first element that is not ordered before [v]. *)
Fixpoint lower_bound (l : list A) (v : A) : nat :=
  match l with
  | [] => 0
  | x :: r => if comp x v then S (lower_bound r v) else 0
  end.

Definition no_buffer : TempBuffer A := mkTemp 0 [].
Definition no_piece : PMWMSPiece := mkPiece 0 0.

(** [sd->starts[iam + 1] - sd->starts[iam]] *)
Definition length_local (sd : PMWMSSortingData A) (iam : nat) : nat :=
  nth (iam + 1) (starts sd) 0 - nth iam (starts sd) 0.

(** [sd->sorting_places[s]], the same pointer as [sd->temporary[s]]. *)
Definition sorting_places (sd : PMWMSSortingData A) (s : nat) : list A :=
  cells (nth s (temporary sd) no_buffer).

(** [sd->pieces[iam][s]] *)
Definition piece (sd : PMWMSSortingData A) (iam s : nat) : PMWMSPiece :=
  nth s (nth iam (pieces sd) []) no_piece.

(** *** Lines 116-128: [determine_samples]

    [num_samples + 1] is [oversampling * num_threads] in [size_t]; the
    result lists the values stored at
    [samples[iam * num_samples + i]], [i = 0 .. num_samples - 1]. *)
Definition num_samples_of (num_threads : nat) : nat :=
  sort_mwms_oversampling * num_threads - 1.

Definition sample_index (sd : PMWMSSortingData A) (es : list nat) (iam i : nat) : nat :=
  nth iam (starts sd) 0 + nth (i + 1) es 0.

Definition determine_samples (sd : PMWMSSortingData A) (num_threads iam : nat)
  : option (list A) :=
  es <- equally_split (length_local sd iam) (sort_mwms_oversampling * num_threads) ;;
  omap (fun i => nth_error (source sd) (sample_index sd es iam i))
       (seq 0 (num_samples_of num_threads)).

(** *** Lines 146-166: private buffer, copy, local sort *)

Definition allocate_and_copy (sd : PMWMSSortingData A) (iam : nat)
  : option (TempBuffer A) :=
  chunk <- read_range (source sd) (nth iam (starts sd) 0) (length_local sd iam) ;;
  Some (mkTemp (length_local sd iam + 1) chunk).

Definition sort_locally (Stable : bool) (buf : TempBuffer A) : TempBuffer A :=
  mkTemp (capacity buf)
         (if Stable then std_stable_sort (cells buf) else std_sort (cells buf)).

Definition local_sort_phase (Stable : bool) (num_threads : nat)
    (sd : PMWMSSortingData A) : option (PMWMSSortingData A) :=
  bufs <- omap (fun iam => buf <- allocate_and_copy sd iam ;;
                           Some (sort_locally Stable buf))
               (seq 0 num_threads) ;;
  Some (mkSD (source sd) (starts sd) bufs (samples sd) (pieces sd)
             (merging_places sd)).

(** *** Lines 172-208: splitting by sampling *)

Definition sampling_piece (sd : PMWMSSortingData A) (num_threads num_samples iam s : nat)
  : option PMWMSPiece :=
  let chunk := firstn (length_local sd s) (sorting_places sd s) in
  b <- (if 0 <? num_samples * iam
        then v <- nth_error (samples sd) (num_samples * iam) ;;
             Some (lower_bound chunk v)
        else Some 0) ;;
  e <- (if num_samples * (iam + 1) <? num_samples * num_threads
        then v <- nth_error (samples sd) (num_samples * (iam + 1)) ;;
             Some (lower_bound chunk v)
        else Some (length_local sd s)) ;;
  Some (mkPiece b e).

Definition split_sampling (num_threads : nat) (sd : PMWMSSortingData A)
  : option (PMWMSSortingData A) :=
  drawn <- omap (determine_samples sd num_threads) (seq 0 num_threads) ;;
  (* barrier; single: std::sort(samples); barrier *)
  let sd1 := mkSD (source sd) (starts sd) (temporary sd)
                  (std_sort (concat drawn)) (pieces sd) (merging_places sd) in
  rows <- omap (fun iam =>
                  omap (sampling_piece sd1 num_threads (num_samples_of num_threads) iam)
                       (seq 0 num_threads))
               (seq 0 num_threads) ;;
  Some (mkSD (source sd1) (starts sd1) (temporary sd1) (samples sd1) rows
             (merging_places sd1)).

(** *** Lines 210-245: exact splitting *)

Definition exact_ends (sd : PMWMSSortingData A) (num_threads iam : nat) : list nat :=
  let seqs := map (fun s => firstn (length_local sd s) (sorting_places sd s))
                  (seq 0 num_threads) in
  let offsets :=
    if iam <? num_threads - 1
    then multisequence_partition seqs (nth (iam + 1) (starts sd) 0)
    else repeat 0 num_threads in
  map (fun s => if iam <? num_threads - 1
                then nth s offsets 0
                else length_local sd s)
      (seq 0 num_threads).

Definition exact_row (ends : list (list nat)) (num_threads iam : nat) : list PMWMSPiece :=
  map (fun s => mkPiece (if 0 <? iam then nth s (nth (iam - 1) ends []) 0 else 0)
                        (nth s (nth iam ends []) 0))
      (seq 0 num_threads).

Definition split_exact (num_threads : nat) (sd : PMWMSSortingData A)
  : option (PMWMSSortingData A) :=
  (* barrier *)
  let ends := map (exact_ends sd num_threads) (seq 0 num_threads) in
  (* barrier *)
  let rows := map (exact_row ends num_threads) (seq 0 num_threads) in
  Some (mkSD (source sd) (starts sd) (temporary sd) (samples sd) rows
             (merging_places sd)).

Definition split_phase (mwmsa : MultiwayMergeSplittingAlgorithm) (num_threads : nat)
    (sd : PMWMSSortingData A) : option (PMWMSSortingData A) :=
  match mwmsa with
  | MWMSA_SAMPLING => split_sampling num_threads sd
  | MWMSA_EXACT => split_exact num_threads sd
  end.

(** *** Lines 247-271: offset, length after merging, merge *)

Definition pu_offset (sd : PMWMSSortingData A) (num_threads iam : nat) : nat :=
  sum_nat (map (fun s => piece_begin (piece sd iam s)) (seq 0 num_threads)).

Definition pu_length_am (sd : PMWMSSortingData A) (num_threads iam : nat) : Z :=
  sum_Z (map (fun s => (Z.of_nat (piece_end (piece sd iam s))
                        - Z.of_nat (piece_begin (piece sd iam s)))%Z)
             (seq 0 num_threads)).

Definition pu_seqs (sd : PMWMSSortingData A) (num_threads iam : nat)
  : option (list (list A)) :=
  omap (fun s => subrange (sorting_places sd s)
                          (piece_begin (piece sd iam s)) (piece_end (piece sd iam s)))
       (seq 0 num_threads).

Definition pu_merged (Stable : bool) (sd : PMWMSSortingData A) (num_threads iam : nat)
  : option (list A) :=
  seqs <- pu_seqs sd num_threads iam ;;
  Some (multiway_merge_base Stable seqs (pu_length_am sd num_threads iam)).

Definition pu_merge (Stable : bool) (num_threads : nat)
    (sd : PMWMSSortingData A) (iam : nat) : option (PMWMSSortingData A) :=
  merged <- pu_merged Stable sd num_threads iam ;;
  src <- write_range (source sd) (pu_offset sd num_threads iam) merged ;;
  Some (mkSD src (starts sd) (temporary sd) (samples sd) (pieces sd)
             (merging_places sd ++ [pu_offset sd num_threads iam])).

Definition merge_phase (Stable : bool) (num_threads : nat)
    (sd : PMWMSSortingData A) : option (PMWMSSortingData A) :=
  ofold (pu_merge Stable num_threads) (seq 0 num_threads) sd.

(** *** [parallel_sort_mwms_pu], run by the whole team *)

Definition pmwms_until_split (mwmsa : MultiwayMergeSplittingAlgorithm)
    (Stable : bool) (num_threads : nat) (sd : PMWMSSortingData A)
  : option (PMWMSSortingData A) :=
  sd1 <- local_sort_phase Stable num_threads sd ;;
  split_phase mwmsa num_threads sd1.

Definition pmwms_body (mwmsa : MultiwayMergeSplittingAlgorithm)
    (Stable : bool) (num_threads : nat) (sd : PMWMSSortingData A)
  : option (PMWMSSortingData A) :=
  sd2 <- pmwms_until_split mwmsa Stable num_threads sd ;;
  merge_phase Stable num_threads sd2.

(** Line 170 and line 313: the splitting algorithm is a local constant. *)
Definition mwmsa : MultiwayMergeSplittingAlgorithm := MWMSA_SAMPLING.

Definition parallel_sort_mwms_pu (Stable : bool) (num_threads : nat)
    (sd : PMWMSSortingData A) : option (PMWMSSortingData A) :=
  pmwms_body mwmsa Stable num_threads sd.

(** *** Lines 293-340: [parallel_mergesort] *)

(** Lines 305-307: at least one element per thread. *)
Definition clamp_threads (n num_threads : nat) : nat :=
  if n <? num_threads then n else num_threads.

(** Line 309: [PMWMSSortingData sd(num_threads)] builds six vectors, of
    the sizes listed; for an empty team [offsets(num_threads - 1)] asks for
    [2^64 - 1] cells, which no allocation provides. *)
Definition sorting_data_sizes (num_threads : nat) : option (list nat) :=
  if num_threads =? 0 then None
  else Some [num_threads + 1; num_threads; num_threads; num_threads;
             num_threads - 1; num_threads].

(** Lines 315-317: in sampling mode,
    [samples.resize(num_threads * (oversampling * num_threads - 1))],
    reached with a team of at least one.  When the oversampling factor is 0
    the [size_t] product wraps to [2^64 - num_threads] cells, which no
    allocation provides. *)
Definition allocate_samples (mwmsa : MultiwayMergeSplittingAlgorithm)
    (num_threads : nat) : option (list nat) :=
  match mwmsa with
  | MWMSA_SAMPLING =>
      if sort_mwms_oversampling * num_threads =? 0 then None
      else Some [num_threads * num_samples_of num_threads]
  | MWMSA_EXACT => Some []
  end.

(** Lines 309-335: the shared data before the parallel region. *)
Definition setup (l : list A) (num_threads : nat) : option (PMWMSSortingData A) :=
  st <- compute_starts (length l) num_threads ;;
  Some (mkSD l st [] [] (repeat (repeat no_piece num_threads) num_threads) []).

Definition setup_events (num_threads : nat) : list Event :=
  map Allocate (oget [] (sorting_data_sizes num_threads))
  ++ map Allocate (oget [] (allocate_samples mwmsa num_threads))
  ++ repeat (Allocate num_threads) num_threads
  ++ [Allocate num_threads].

Definition pu_events (sd : PMWMSSortingData A) (num_threads iam : nat) : list Event :=
  [Allocate (capacity (nth iam (temporary sd) no_buffer));
   Allocate (num_samples_of num_threads + 2);
   Allocate num_threads;
   Release iam].

Definition parallel_mergesort_team (Stable : bool) (l : list A) (num_threads : nat)
  : option (PMWMSSortingData A) :=
  let num_threads := clamp_threads (length l) num_threads in
  _ <- sorting_data_sizes num_threads ;;
  _ <- allocate_samples mwmsa num_threads ;;
  sd <- setup l num_threads ;;
  parallel_sort_mwms_pu Stable num_threads sd.

Definition parallel_mergesort (Stable : bool) (l : list A) (num_threads : nat)
  : option (Outcome A) :=
  if length l <=? 1 then Some (mkOutcome l [])
  else
    sd <- parallel_mergesort_team Stable l num_threads ;;
    let T := clamp_threads (length l) num_threads in
    Some (mkOutcome (source sd)
            (setup_events T ++ [Parallel T]
             ++ flat_map (pu_events sd T) (seq 0 T))).

(** *** The states the claims speak about *)

(** The shared data when every PU has left the splitting phase, for either
    value the local constant could take. *)
Definition after_split (mwmsa : MultiwayMergeSplittingAlgorithm) (Stable : bool)
    (l : list A) (num_threads : nat) : option (PMWMSSortingData A) :=
  let T := clamp_threads (length l) num_threads in
  _ <- sorting_data_sizes T ;;
  _ <- allocate_samples mwmsa T ;;
  sd <- setup l T ;;
  pmwms_until_split mwmsa Stable T sd.

(** The samples of PU [iam] as the specification describes them: entries of
    the PU's own sorted chunk at the split points. *)
Definition determine_samples_sorted_chunk (sd : PMWMSSortingData A)
    (num_threads iam : nat) : option (list A) :=
  es <- equally_split (length_local sd iam) (sort_mwms_oversampling * num_threads) ;;
  omap (fun i => nth_error (sorting_places sd iam) (nth (i + 1) es 0))
       (seq 0 (num_samples_of num_threads)).

(** ** Notions used by the statements and their proofs *)

(** The boundaries tile [0, n): they start at 0, end at [n], and never
    decrease. *)
Definition starts_tile (st : list nat) (T n : nat) : Prop :=
  nth 0 st 0 = 0 /\ nth T st 0 = n /\ forall k, k < T -> nth k st 0 <= nth (k + 1) st 0.

(** Chunk [s] of the input. *)
Definition chunk (l : list A) (st : list nat) (s : nat) : list A :=
  slice (nth s st 0) (nth (s + 1) st 0) l.

Definition sort_with (Stable : bool) (l : list A) : list A :=
  if Stable then std_stable_sort l else std_sort l.

(** The splitter between PU [j - 1] and PU [j]. *)
Definition splitter (d : A) (sd : PMWMSSortingData A) (T j : nat) : A :=
  nth (num_samples_of T * j) (samples sd) d.

(** Where sorted chunk [s] is cut between PU [j - 1] and PU [j]. *)
Definition cut (d : A) (sd : PMWMSSortingData A) (T j s : nat) : nat :=
  if j =? 0 then 0
  else if j <? T then lower_bound (sorting_places sd s) (splitter d sd T j)
  else length (sorting_places sd s).

(** Offset of the output segment that starts at cut [j]. *)
Definition cut_offset (d : A) (sd : PMWMSSortingData A) (T j : nat) : nat :=
  sum_nat (map (cut d sd T j) (seq 0 T)).

(** The sequences PU [i] merges, cut by cut. *)
Definition cut_seqs (d : A) (sd : PMWMSSortingData A) (T i : nat) : list (list A) :=
  map (fun s => slice (cut d sd T i s) (cut d sd T (i + 1) s) (sorting_places sd s))
      (seq 0 T).

(** The output segment of PU [i]. *)
Definition segment (d : A) (Stable : bool) (sd : PMWMSSortingData A) (T i : nat) : list A :=
  multiway_merge_base Stable (cut_seqs d sd T i)
    (Z.of_nat (length (concat (cut_seqs d sd T i)))).

(** The chunk boundaries of a team of [T] on [n] elements. *)
Definition team_starts (n T : nat) : list nat :=
  starts_loop (n / T) (n mod T) T 0 0.

(** The shared data when every PU has sorted its private copy. *)
Definition after_local_sort (Stable : bool) (l : list A) (T : nat) : PMWMSSortingData A :=
  let st := team_starts (length l) T in
  mkSD l st
       (map (fun iam => mkTemp (nth (iam + 1) st 0 - nth iam st 0 + 1)
                               (sort_with Stable (chunk l st iam)))
            (seq 0 T))
       [] (repeat (repeat no_piece T) T) [].

(** The helper is the one the specification describes. *)
Definition helper_as_specified : Prop :=
  forall n p, equally_split n p = equally_split_model n p.

(** The helper keeps every inner offset strictly below the length. *)
Definition helper_keeps_inside : Prop :=
  forall n p, 1 <= n -> 1 <= p ->
    exists es, equally_split n p = Some es
               /\ forall k, 1 <= k -> k < p -> nth k es 0 < n.

(** The calls on which every sample read stays inside the sequence, for the
    helper the specification describes. *)
Definition reads_in_bounds (n num_threads : nat) : Prop :=
  n <= 1
  \/ (1 <= num_threads /\ 1 <= sort_mwms_oversampling
      /\ sort_mwms_oversampling * clamp_threads n num_threads
         <= n / clamp_threads n num_threads).

(** ** Predicates of the statements *)

Unset Implicit Arguments.

Definition cle (a b : A) : Prop := comp b a = false.
Definition equiv (a b : A) : bool := negb (comp a b) && negb (comp b a).
Definition nondecreasing (l : list A) : Prop := Sorted cle l.

Record strict_weak_order : Prop := {
  swo_irrefl : forall a, comp a a = false;
  swo_trans : forall a b c, comp a b = true -> comp b c = true -> comp a c = true;
  swo_negtrans : forall a b c, comp a c = true -> comp a b = true \/ comp b c = true
}.

Record sort_contract (srt : list A -> list A) : Prop := {
  sort_perm : forall l, Permutation l (srt l);
  sort_sorted : forall l, nondecreasing (srt l)
}.

Record stable_sort_contract (srt : list A -> list A) : Prop := {
  stable_is_sort : sort_contract srt;
  stable_order : forall l x, filter (equiv x) (srt l) = filter (equiv x) l
}.

Record merge_contract : Prop := {
  merge_perm : forall Stable seqs,
    Forall nondecreasing seqs ->
    Permutation (concat seqs)
      (multiway_merge_base Stable seqs (Z.of_nat (length (concat seqs))));
  merge_sorted : forall Stable seqs,
    Forall nondecreasing seqs ->
    nondecreasing (multiway_merge_base Stable seqs (Z.of_nat (length (concat seqs))));
  merge_stable : forall seqs x,
    Forall nondecreasing seqs ->
    filter (equiv x) (multiway_merge_base true seqs (Z.of_nat (length (concat seqs))))
    = filter (equiv x) (concat seqs)
}.

(** ** Notions used by the further properties *)

(** Line 127: the cell of [sd->samples] that PU [iam] fills with its sample
    number [i]. *)
Definition sample_slot (num_samples iam i : nat) : nat := iam * num_samples + i.

(** ** The other configuration: sort in place, copy last

    With [STXXL_MULTIWAY_MERGESORT_COPY_LAST] set, the header compiles the
    other branch of each [#if]: a PU sorts its chunk where it lies in the
    caller's sequence, merges its pieces into a private buffer of
    [length_am] cells and, after a barrier, copies the buffer back.  The
    definitions below embed that configuration up to the write-back of line
    277, the last access to the caller's sequence; they share
    [determine_samples]'s index computation, the offsets and the lengths
    with the configuration above. *)

(** Line 152: [sd->sorting_places[s] = sd->source + sd->starts[s]], an
    iterator into the caller's sequence. *)
Definition sorting_places_in_place (sd : PMWMSSortingData A) (s : nat) : list A :=
  skipn (nth s (starts sd) 0) (source sd).

(** Lines 152 and 163-166: PU [iam] sorts the cells
    [starts[iam] .. starts[iam + 1]) of the caller's sequence. *)
Definition sort_in_place (Stable : bool) (sd : PMWMSSortingData A) (iam : nat)
  : option (PMWMSSortingData A) :=
  chunk <- read_range (source sd) (nth iam (starts sd) 0) (length_local sd iam) ;;
  src <- write_range (source sd) (nth iam (starts sd) 0)
           (if Stable then std_stable_sort chunk else std_sort chunk) ;;
  Some (mkSD src (starts sd) (temporary sd) (samples sd) (pieces sd)
             (merging_places sd)).

Definition local_sort_in_place_phase (Stable : bool) (num_threads : nat)
    (sd : PMWMSSortingData A) : option (PMWMSSortingData A) :=
  ofold (sort_in_place Stable) (seq 0 num_threads) sd.

(** Lines 116-128 in this configuration.  No barrier separates a PU's local
    sort from its [determine_samples], so the reads of [sd->source] run while
    the other PUs sort their chunks in it: a read outside the PU's own chunk
    races with the owner's sort and is undefined. *)
Definition determine_samples_in_place (sd : PMWMSSortingData A) (num_threads iam : nat)
  : option (list A) :=
  es <- equally_split (length_local sd iam) (sort_mwms_oversampling * num_threads) ;;
  omap (fun i => if nth (i + 1) es 0 <? length_local sd iam
                 then nth_error (source sd) (sample_index sd es iam i)
                 else None)
       (seq 0 (num_samples_of num_threads)).

(** Lines 184-208, the lower bounds taken in the caller's sequence. *)
Definition sampling_piece_in_place (sd : PMWMSSortingData A)
    (num_threads num_samples iam s : nat) : option PMWMSPiece :=
  let chunk := firstn (length_local sd s) (sorting_places_in_place sd s) in
  b <- (if 0 <? num_samples * iam
        then v <- nth_error (samples sd) (num_samples * iam) ;;
             Some (lower_bound chunk v)
        else Some 0) ;;
  e <- (if num_samples * (iam + 1) <? num_samples * num_threads
        then v <- nth_error (samples sd) (num_samples * (iam + 1)) ;;
             Some (lower_bound chunk v)
        else Some (length_local sd s)) ;;
  Some (mkPiece b e).

Definition split_sampling_in_place (num_threads : nat) (sd : PMWMSSortingData A)
  : option (PMWMSSortingData A) :=
  drawn <- omap (determine_samples_in_place sd num_threads) (seq 0 num_threads) ;;
  (* barrier; single: std::sort(samples); barrier *)
  let sd1 := mkSD (source sd) (starts sd) (temporary sd)
                  (std_sort (concat drawn)) (pieces sd) (merging_places sd) in
  rows <- omap (fun iam =>
                  omap (sampling_piece_in_place sd1 num_threads
                          (num_samples_of num_threads) iam)
                       (seq 0 num_threads))
               (seq 0 num_threads) ;;
  Some (mkSD (source sd1) (starts sd1) (temporary sd1) (samples sd1) rows
             (merging_places sd1)).

(** Lines 264-269: the iterator pairs into the caller's sequence. *)
Definition pu_seqs_in_place (sd : PMWMSSortingData A) (num_threads iam : nat)
  : option (list (list A)) :=
  omap (fun s => subrange (sorting_places_in_place sd s)
                          (piece_begin (piece sd iam s)) (piece_end (piece sd iam s)))
       (seq 0 num_threads).

(** Lines 259 and 271: [sd->merging_places[iam] = sd->temporary[iam] =
    new ValueType[length_am]] and the merge into it.  A negative
    [length_am] is no array size, and a merge that produced more than
    [length_am] elements would leave the buffer. *)
Definition pu_merge_to_temporary (Stable : bool) (num_threads : nat)
    (sd : PMWMSSortingData A) (iam : nat) : option (TempBuffer A) :=
  seqs <- pu_seqs_in_place sd num_threads iam ;;
  let length_am := pu_length_am sd num_threads iam in
  if (length_am <? 0)%Z then None
  else
    let merged := multiway_merge_base Stable seqs length_am in
    if length merged <=? Z.to_nat length_am
    then Some (mkTemp (Z.to_nat length_am) merged)
    else None.

Definition merge_to_temporary_phase (Stable : bool) (num_threads : nat)
    (sd : PMWMSSortingData A) : option (PMWMSSortingData A) :=
  bufs <- omap (pu_merge_to_temporary Stable num_threads sd) (seq 0 num_threads) ;;
  Some (mkSD (source sd) (starts sd) bufs (samples sd) (pieces sd)
             (merging_places sd)).

(** Line 277: [std::copy(merging_places[iam], merging_places[iam] +
    length_am, sd->source + offset)]. *)
Definition pu_write_back (num_threads : nat) (sd : PMWMSSortingData A) (iam : nat)
  : option (PMWMSSortingData A) :=
  data <- read_range (cells (nth iam (temporary sd) no_buffer)) 0
            (Z.to_nat (pu_length_am sd num_threads iam)) ;;
  src <- write_range (source sd) (pu_offset sd num_threads iam) data ;;
  Some (mkSD src (starts sd) (temporary sd) (samples sd) (pieces sd)
             (merging_places sd)).

Definition write_back_phase (num_threads : nat) (sd : PMWMSSortingData A)
  : option (PMWMSSortingData A) :=
  ofold (pu_write_back num_threads) (seq 0 num_threads) sd.

(** [parallel_sort_mwms_pu] in this configuration, run by the whole team,
    phase by phase: local sort, sampling split, merge (barrier), write-back. *)
Definition copy_last_until_split (Stable : bool) (num_threads : nat)
    (sd : PMWMSSortingData A) : option (PMWMSSortingData A) :=
  sd1 <- local_sort_in_place_phase Stable num_threads sd ;;
  split_sampling_in_place num_threads sd1.

Definition parallel_sort_mwms_pu_copy_last (Stable : bool) (num_threads : nat)
    (sd : PMWMSSortingData A) : option (PMWMSSortingData A) :=
  sd2 <- copy_last_until_split Stable num_threads sd ;;
  sd3 <- merge_to_temporary_phase Stable num_threads sd2 ;;
  write_back_phase num_threads sd3.

(** [parallel_mergesort] in this configuration: the sequence the write-back
    leaves. *)
Definition parallel_mergesort_copy_last (Stable : bool) (l : list A) (num_threads : nat)
  : option (list A) :=
  if length l <=? 1 then Some l
  else
    let num_threads := clamp_threads (length l) num_threads in
    _ <- sorting_data_sizes num_threads ;;
    _ <- allocate_samples mwmsa num_threads ;;
    sd <- setup l num_threads ;;
    sd4 <- parallel_sort_mwms_pu_copy_last Stable num_threads sd ;;
    Some (source sd4).

(** The in-place state seen as a state of the copy configuration: the
    chunks of the caller's sequence presented as the private buffers. *)
Definition private_view (sd : PMWMSSortingData A) (num_threads : nat)
  : PMWMSSortingData A :=
  mkSD (source sd) (starts sd)
       (map (fun s => mkTemp (length_local sd s + 1)
                        (firstn (length_local sd s) (sorting_places_in_place sd s)))
            (seq 0 num_threads))
       (samples sd) (pieces sd) (merging_places sd).

(** ** Option plumbing *)

Lemma obind_some (X Y : Type) (o : option X) (k : X -> option Y) (y : Y) :
  obind o k = Some y -> exists x, o = Some x /\ k x = Some y.
Proof.
  destruct o as [x|]; simpl; intros H; [exists x; auto | discriminate].
Qed.

Lemma omap_eq_map (X Y : Type) (f : X -> option Y) (d : Y) (l : list X) (r : list Y) :
  omap f l = Some r ->
  r = map (fun x => oget d (f x)) l /\ forall x, In x l -> f x = Some (oget d (f x)).
Proof.
  revert r; induction l as [|x l IH]; simpl; intros r H.
  - inversion H; subst; split; [reflexivity | intros ? []].
  - apply obind_some in H; destruct H as (y & Hy & H).
    apply obind_some in H; destruct H as (ys & Hys & H).
    inversion H; subst; clear H.
    destruct (IH _ Hys) as [E F].
    split.
    + rewrite Hy; simpl; f_equal; exact E.
    + intros z [<-|Hz]; [rewrite Hy; reflexivity | auto].
Qed.

Lemma omap_defined (X Y : Type) (f : X -> option Y) (l : list X) :
  (forall x, In x l -> exists y, f x = Some y) -> exists r, omap f l = Some r.
Proof.
  induction l as [|x l IH]; simpl; intros H.
  - eexists; reflexivity.
  - destruct (H x (or_introl eq_refl)) as [y Hy].
    destruct IH as [r Hr]; [intros; apply H; auto|].
    rewrite Hy, Hr; simpl; eexists; reflexivity.
Qed.

Lemma omap_none (X Y : Type) (f : X -> option Y) (l : list X) (x : X) :
  In x l -> f x = None -> omap f l = None.
Proof.
  induction l as [|z l IH]; simpl; [intros [] | intros [-> | Hx] Hf].
  - rewrite Hf; reflexivity.
  - destruct (f z); simpl; [rewrite IH; auto | reflexivity].
Qed.

Lemma nth_map_seq (Y : Type) (f : nat -> Y) (d : Y) (n i : nat) :
  i < n -> nth i (map f (seq 0 n)) d = f i.
Proof.
  intros Hi.
  rewrite (nth_indep _ d (f 0)) by (rewrite length_map, length_seq; exact Hi).
  rewrite (map_nth f (seq 0 n) 0 i), seq_nth by exact Hi; reflexivity.
Qed.

(** ** Slices of a buffer *)

Lemma in_firstn_list (X : Type) (n : nat) (p : list X) (x : X) :
  In x (firstn n p) -> In x p.
Proof.
  intros H; rewrite <- (firstn_skipn n p); apply in_or_app; left; exact H.
Qed.

Lemma in_skipn_list (X : Type) (n : nat) (p : list X) (x : X) :
  In x (skipn n p) -> In x p.
Proof.
  intros H; rewrite <- (firstn_skipn n p); apply in_or_app; right; exact H.
Qed.

Lemma firstn_plus (X : Type) (m n : nat) (p : list X) :
  firstn (m + n) p = firstn m p ++ firstn n (skipn m p).
Proof.
  revert p; induction m as [|m IH]; intros p; simpl; [reflexivity|].
  destruct p as [|x p]; simpl; [rewrite firstn_nil; reflexivity|].
  rewrite IH; reflexivity.
Qed.

Lemma slice_length (X : Type) (b e : nat) (p : list X) :
  b <= e -> e <= length p -> length (slice b e p) = e - b.
Proof.
  intros Hb He; unfold slice.
  rewrite length_firstn, length_skipn; lia.
Qed.

Lemma slice_app (X : Type) (a b c : nat) (p : list X) :
  a <= b -> b <= c -> slice a b p ++ slice b c p = slice a c p.
Proof.
  intros Hab Hbc; unfold slice.
  replace (c - a) with ((b - a) + (c - b)) by lia.
  rewrite firstn_plus, skipn_skipn.
  replace (b - a + a) with b by lia; reflexivity.
Qed.

Lemma slice_full (X : Type) (p : list X) : slice 0 (length p) p = p.
Proof.
  unfold slice; simpl; rewrite Nat.sub_0_r; apply firstn_all.
Qed.

Lemma slice_in (X : Type) (b e : nat) (p : list X) (x : X) :
  In x (slice b e p) -> In x (skipn b p) /\ In x (firstn e p).
Proof.
  intros H; split.
  - eapply in_firstn_list; exact H.
  - unfold slice in H; rewrite <- skipn_firstn_comm in H.
    eapply in_skipn_list; exact H.
Qed.

(** ** The range division *)

Lemma starts_loop_length (c sp cnt i st : nat) :
  length (starts_loop c sp cnt i st) = S cnt.
Proof.
  revert i st; induction cnt as [|cnt IH]; intros i st; simpl; [reflexivity|].
  rewrite IH; reflexivity.
Qed.

Lemma starts_loop_nth (c sp cnt i st k : nat) :
  k <= cnt ->
  nth k (starts_loop c sp cnt i st) 0
  = st + k * c + (Nat.min (i + k) sp - Nat.min i sp).
Proof.
  revert i st k; induction cnt as [|cnt IH]; intros i st k Hk.
  - replace k with 0 by lia; simpl; rewrite Nat.add_0_r; lia.
  - destruct k as [|k]; simpl.
    + rewrite Nat.add_0_r; lia.
    + rewrite IH by lia.
      destruct (Nat.ltb_spec i sp); lia.
Qed.

Lemma starts_nth (n T k : nat) :
  k <= T ->
  nth k (starts_loop (n / T) (n mod T) T 0 0) 0 = k * (n / T) + Nat.min k (n mod T).
Proof.
  intros Hk; rewrite starts_loop_nth by exact Hk; simpl; lia.
Qed.

Lemma starts_last (n T : nat) :
  1 <= T -> nth T (starts_loop (n / T) (n mod T) T 0 0) 0 = n.
Proof.
  intros HT; rewrite starts_nth by lia.
  pose proof (Nat.mod_upper_bound n T ltac:(lia)).
  pose proof (Nat.div_mod_eq n T).
  lia.
Qed.

Lemma starts_step (n T k : nat) :
  k < T ->
  nth (k + 1) (starts_loop (n / T) (n mod T) T 0 0) 0
  = nth k (starts_loop (n / T) (n mod T) T 0 0) 0
    + (if k <? n mod T then n / T + 1 else n / T).
Proof.
  intros Hk; rewrite !starts_nth by lia.
  destruct (Nat.ltb_spec k (n mod T)); lia.
Qed.

Lemma monotone_le (c : nat -> nat) (T : nat) :
  (forall k, k < T -> c k <= c (k + 1)) ->
  forall j k, j <= k -> k <= T -> c j <= c k.
Proof.
  intros Hc j k Hjk; induction Hjk as [|k Hjk IH]; intros HT; [lia|].
  specialize (Hc k ltac:(lia)); rewrite Nat.add_1_r in Hc; lia.
Qed.

Lemma concat_slices (X : Type) (c : nat -> nat) (p : list X) (T : nat) :
  (forall k, k < T -> c k <= c (k + 1)) ->
  concat (map (fun i => slice (c i) (c (i + 1)) p) (seq 0 T)) = slice (c 0) (c T) p.
Proof.
  induction T as [|T IH]; intros Hc.
  - simpl; unfold slice; rewrite Nat.sub_diag; reflexivity.
  - rewrite seq_S, map_app, concat_app, IH by (intros; apply Hc; lia).
    simpl; rewrite app_nil_r, Nat.add_1_r.
    apply slice_app.
    + apply (monotone_le c (S T)); [exact Hc | lia | lia].
    + specialize (Hc T ltac:(lia)); rewrite Nat.add_1_r in Hc; exact Hc.
Qed.

Lemma starts_tile_le (st : list nat) (T n j k : nat) :
  starts_tile st T n -> j <= k -> k <= T -> nth j st 0 <= nth k st 0.
Proof.
  intros (_ & _ & Hm) Hjk HT.
  apply (monotone_le (fun i => nth i st 0) T); auto.
Qed.

Lemma chunks_tile (l : list A) (st : list nat) (T : nat) :
  starts_tile st T (length l) ->
  concat (map (chunk l st) (seq 0 T)) = l.
Proof.
  intros Hst; unfold chunk.
  rewrite (concat_slices _ (fun i => nth i st 0)) by apply Hst.
  destruct Hst as (-> & -> & _); apply slice_full.
Qed.

Lemma compute_starts_tile (n T : nat) :
  1 <= T ->
  compute_starts n T = Some (starts_loop (n / T) (n mod T) T 0 0)
  /\ starts_tile (starts_loop (n / T) (n mod T) T 0 0) T n.
Proof.
  intros HT; unfold compute_starts.
  destruct (Nat.eqb_spec T 0) as [?|_]; [lia|].
  split; [reflexivity|].
  split; [|split].
  - rewrite starts_nth by lia; simpl; lia.
  - apply starts_last; exact HT.
  - intros k Hk; rewrite starts_step by exact Hk.
    destruct (k <? n mod T); lia.
Qed.

(** ** The local sort *)

Lemma allocate_and_copy_chunk (sd : PMWMSSortingData A) (T iam : nat) :
  starts_tile (starts sd) T (length (source sd)) -> iam < T ->
  allocate_and_copy sd iam
  = Some (mkTemp (length_local sd iam + 1) (chunk (source sd) (starts sd) iam)).
Proof.
  intros Hst Hi; unfold allocate_and_copy, read_range, length_local.
  pose proof (starts_tile_le _ _ _ iam (iam + 1) Hst ltac:(lia) ltac:(lia)) as H1.
  pose proof (starts_tile_le _ _ _ (iam + 1) T Hst ltac:(lia) ltac:(lia)) as H2.
  destruct Hst as (_ & HT & _); rewrite HT in H2.
  destruct (Nat.leb_spec (nth iam (starts sd) 0
                          + (nth (iam + 1) (starts sd) 0 - nth iam (starts sd) 0))
                         (length (source sd))); [|lia].
  reflexivity.
Qed.

Lemma local_sort_phase_result (Stable : bool) (T : nat) (sd : PMWMSSortingData A) :
  starts_tile (starts sd) T (length (source sd)) ->
  local_sort_phase Stable T sd
  = Some (mkSD (source sd) (starts sd)
               (map (fun iam => mkTemp (length_local sd iam + 1)
                                  (sort_with Stable (chunk (source sd) (starts sd) iam)))
                    (seq 0 T))
               (samples sd) (pieces sd) (merging_places sd)).
Proof.
  intros Hst; unfold local_sort_phase.
  assert (E : omap (fun iam => buf <- allocate_and_copy sd iam ;;
                               Some (sort_locally Stable buf)) (seq 0 T)
              = Some (map (fun iam => mkTemp (length_local sd iam + 1)
                                  (sort_with Stable (chunk (source sd) (starts sd) iam)))
                          (seq 0 T))).
  { generalize (fun i (H : In i (seq 0 T)) => proj2 (proj1 (in_seq T 0 i) H)).
    generalize (seq 0 T) as ws; induction ws as [|i ws IH]; intros Hin; simpl.
    - reflexivity.
    - rewrite allocate_and_copy_chunk with (T := T) by (auto; apply Hin; left; reflexivity).
      simpl; rewrite IH by (intros; apply Hin; right; assumption).
      reflexivity. }
  rewrite E; reflexivity.
Qed.

(** ** Orders *)

Hypothesis comp_swo : strict_weak_order.

Lemma cle_refl (a : A) : cle a a.
Proof. apply comp_swo. Qed.

Lemma cle_trans (a b c : A) : cle a b -> cle b c -> cle a c.
Proof.
  unfold cle; intros Hab Hbc.
  destruct (comp c a) eqn:E; [|reflexivity].
  destruct (swo_negtrans comp_swo c b a E) as [H|H]; congruence.
Qed.

Lemma comp_cle_trans (a b c : A) : comp a b = true -> cle b c -> comp a c = true.
Proof.
  unfold cle; intros Hab Hbc.
  destruct (swo_negtrans comp_swo a c b Hab) as [H|H]; congruence.
Qed.

Lemma cle_comp_trans (a b c : A) : cle a b -> comp b c = true -> comp a c = true.
Proof.
  unfold cle; intros Hab Hbc.
  destruct (swo_negtrans comp_swo b a c Hbc) as [H|H]; congruence.
Qed.

Lemma equiv_comp_l (x y v : A) : equiv x y = true -> comp x v = comp y v.
Proof.
  unfold equiv; intros H; apply andb_prop in H; destruct H as [H1 H2].
  apply negb_true_iff in H1, H2.
  destruct (comp x v) eqn:Ex, (comp y v) eqn:Ey; try reflexivity.
  - destruct (swo_negtrans comp_swo x y v Ex); congruence.
  - destruct (swo_negtrans comp_swo y x v Ey); congruence.
Qed.

Lemma nondecreasing_strong (l : list A) : nondecreasing l -> StronglySorted cle l.
Proof.
  apply Sorted_StronglySorted; intros a b c; apply cle_trans.
Qed.

Lemma strong_nondecreasing (l : list A) : StronglySorted cle l -> nondecreasing l.
Proof. apply StronglySorted_Sorted. Qed.

Lemma strong_nth (l : list A) (d : A) (i j : nat) :
  StronglySorted cle l -> i <= j -> j < length l -> cle (nth i l d) (nth j l d).
Proof.
  intros Hs; revert i j; induction Hs as [|a l Hs IH Ha]; intros i j Hij Hj.
  - simpl in Hj; lia.
  - destruct j as [|j].
    + replace i with 0 by lia; apply cle_refl.
    + destruct i as [|i]; simpl.
      * rewrite Forall_forall in Ha; apply Ha, nth_In; simpl in Hj; lia.
      * apply IH; simpl in Hj; lia.
Qed.

Lemma strong_firstn (l : list A) (n : nat) :
  StronglySorted cle l -> StronglySorted cle (firstn n l).
Proof.
  intros Hs; revert n; induction Hs as [|a l Hs IH Ha]; intros [|n]; simpl;
    try constructor; auto.
  rewrite Forall_forall in *; intros x Hx; apply Ha; eapply in_firstn_list; eauto.
Qed.

Lemma strong_skipn (l : list A) (n : nat) :
  StronglySorted cle l -> StronglySorted cle (skipn n l).
Proof.
  intros Hs; revert n; induction Hs as [|a l Hs IH Ha]; intros [|n]; simpl;
    try constructor; auto.
Qed.

Lemma strong_slice (l : list A) (b e : nat) :
  StronglySorted cle l -> StronglySorted cle (slice b e l).
Proof.
  intros Hs; unfold slice; apply strong_firstn, strong_skipn, Hs.
Qed.

(** ** [lower_bound] *)

Lemma lower_bound_le (l : list A) (v : A) : lower_bound l v <= length l.
Proof.
  induction l as [|x l IH]; simpl; [lia|]; destruct (comp x v); lia.
Qed.

Lemma lower_bound_before (l : list A) (v x : A) :
  In x (firstn (lower_bound l v) l) -> comp x v = true.
Proof.
  induction l as [|y l IH]; simpl; [intros []|].
  destruct (comp y v) eqn:E; simpl; [|intros []].
  intros [<-|H]; auto.
Qed.

Lemma lower_bound_after (l : list A) (v x : A) :
  StronglySorted cle l -> In x (skipn (lower_bound l v) l) -> comp x v = false.
Proof.
  intros Hs; induction Hs as [|y l Hs IH Hy]; simpl; [intros []|].
  destruct (comp y v) eqn:E; simpl; [exact IH|].
  intros [<-|H]; [exact E|].
  rewrite Forall_forall in Hy; specialize (Hy x H).
  destruct (comp x v) eqn:Ex; [|reflexivity].
  rewrite (cle_comp_trans _ _ _ Hy Ex) in E; discriminate.
Qed.

Lemma lower_bound_mono (l : list A) (v w : A) :
  cle v w -> lower_bound l v <= lower_bound l w.
Proof.
  intros Hvw; induction l as [|x l IH]; simpl; [lia|].
  destruct (comp x v) eqn:E; [|lia].
  rewrite (comp_cle_trans _ _ _ E Hvw); lia.
Qed.

(** ** The kernels under their contracts *)

Hypothesis std_sort_ok : sort_contract std_sort.
Hypothesis std_stable_sort_ok : stable_sort_contract std_stable_sort.

Lemma sort_with_perm (Stable : bool) (l : list A) : Permutation l (sort_with Stable l).
Proof.
  destruct Stable; simpl;
    [apply (stable_is_sort _ std_stable_sort_ok) | apply std_sort_ok].
Qed.

Lemma sort_with_sorted (Stable : bool) (l : list A) : StronglySorted cle (sort_with Stable l).
Proof.
  apply nondecreasing_strong; destruct Stable; simpl;
    [apply (stable_is_sort _ std_stable_sort_ok) | apply std_sort_ok].
Qed.

Lemma sort_with_length (Stable : bool) (l : list A) : length (sort_with Stable l) = length l.
Proof. symmetry; apply Permutation_length, sort_with_perm. Qed.

(** ** Splitting by sampling *)

Lemma omap_seq_nth (Y : Type) (f : nat -> option Y) (d : Y) (n : nat) (r : list Y) :
  omap f (seq 0 n) = Some r ->
  length r = n /\ forall i, i < n -> f i = Some (nth i r d).
Proof.
  intros H; destruct (omap_eq_map _ _ f d _ _ H) as [E F]; split.
  - rewrite E, length_map, length_seq; reflexivity.
  - intros i Hi; rewrite E, nth_map_seq by exact Hi.
    apply F, in_seq; lia.
Qed.

Lemma omap_length (X Y : Type) (f : X -> option Y) (l : list X) (r : list Y) :
  omap f l = Some r -> length r = length l.
Proof.
  revert r; induction l as [|x l IH]; simpl; intros r H.
  - inversion H; reflexivity.
  - apply obind_some in H; destruct H as (y & _ & H).
    apply obind_some in H; destruct H as (ys & Hys & H).
    inversion H; subst; simpl; rewrite (IH _ Hys); reflexivity.
Qed.

Lemma determine_samples_length (sd : PMWMSSortingData A) (T iam : nat) (smp : list A) :
  determine_samples sd T iam = Some smp -> length smp = num_samples_of T.
Proof.
  unfold determine_samples; intros H.
  apply obind_some in H; destruct H as (es & _ & H).
  apply omap_length in H; rewrite length_seq in H; exact H.
Qed.

Lemma determine_samples_team_length (sd : PMWMSSortingData A) (T : nat) (ws : list nat)
    (drawn : list (list A)) :
  omap (determine_samples sd T) ws = Some drawn ->
  length (concat drawn) = length ws * num_samples_of T.
Proof.
  revert drawn; induction ws as [|w ws IH]; simpl; intros drawn H.
  - inversion H; reflexivity.
  - apply obind_some in H; destruct H as (y & Hy & H).
    apply obind_some in H; destruct H as (ys & Hys & H).
    inversion H; subst; simpl.
    rewrite length_app, (IH _ Hys), (determine_samples_length _ _ _ _ Hy); reflexivity.
Qed.

Lemma sampling_piece_cut (d : A) (sd : PMWMSSortingData A) (T i s : nat) (p : PMWMSPiece) :
  1 <= sort_mwms_oversampling * T -> i < T ->
  length (sorting_places sd s) = length_local sd s ->
  sampling_piece sd T (num_samples_of T) i s = Some p ->
  p = mkPiece (cut d sd T i s) (cut d sd T (i + 1) s).
Proof.
  intros HV Hi Hlen; unfold sampling_piece, cut, splitter, num_samples_of.
  rewrite firstn_all2 by lia.
  set (ns := sort_mwms_oversampling * T - 1).
  assert (HV1 : 1 <= sort_mwms_oversampling).
  { destruct (Nat.eq_dec sort_mwms_oversampling 0) as [E|E]; [|lia].
    rewrite E in HV; simpl in HV; lia. }
  assert (Hns : 2 <= T -> 1 <= ns) by (unfold ns; nia).
  intros H.
  apply obind_some in H; destruct H as (b & Hb & H).
  apply obind_some in H; destruct H as (e & He & H).
  inversion H; subst p; clear H; f_equal.
  - destruct (Nat.eqb_spec i 0) as [->|Hi0].
    + rewrite Nat.mul_0_r in Hb; simpl in Hb; inversion Hb; reflexivity.
    + destruct (Nat.ltb_spec 0 (ns * i)) as [_|?]; [|nia].
      destruct (Nat.ltb_spec i T); [|lia].
      apply obind_some in Hb; destruct Hb as (v & Hv & Hb).
      inversion Hb; subst b; rewrite (nth_error_nth _ _ d Hv); reflexivity.
  - destruct (Nat.eqb_spec (i + 1) 0); [lia|].
    destruct (Nat.ltb_spec (i + 1) T).
    + destruct (Nat.ltb_spec (ns * (i + 1)) (ns * T)) as [_|?]; [|nia].
      apply obind_some in He; destruct He as (v & Hv & He).
      inversion He; subst e; rewrite (nth_error_nth _ _ d Hv); reflexivity.
    + destruct (Nat.ltb_spec (ns * (i + 1)) (ns * T)) as [?|_]; [nia|].
      inversion He; subst e; symmetry; exact Hlen.
Qed.

Lemma split_sampling_result (d : A) (T : nat) (sd sd' : PMWMSSortingData A) :
  1 <= sort_mwms_oversampling * T ->
  (forall s, s < T -> length (sorting_places sd s) = length_local sd s) ->
  split_sampling T sd = Some sd' ->
  source sd' = source sd /\ starts sd' = starts sd /\ temporary sd' = temporary sd
  /\ length (samples sd') = T * num_samples_of T
  /\ nondecreasing (samples sd')
  /\ forall i s, i < T -> s < T ->
       piece sd' i s = mkPiece (cut d sd' T i s) (cut d sd' T (i + 1) s).
Proof.
  intros HV Hlen H; unfold split_sampling in H.
  apply obind_some in H; destruct H as (drawn & Hdr & H).
  apply obind_some in H; destruct H as (rows & Hrows & H).
  inversion H; subst sd'; clear H; simpl.
  repeat split; try reflexivity.
  - rewrite <- (Permutation_length (sort_perm _ std_sort_ok (concat drawn))).
    rewrite (determine_samples_team_length _ _ _ _ Hdr), length_seq; reflexivity.
  - apply std_sort_ok.
  - intros i s Hi Hs.
    destruct (omap_seq_nth _ _ [] _ _ Hrows) as [_ F].
    specialize (F i Hi).
    destruct (omap_seq_nth _ _ no_piece _ _ F) as [_ G].
    specialize (G s Hs).
    apply (sampling_piece_cut d) in G; [exact G | exact HV | exact Hi |].
    apply Hlen; exact Hs.
Qed.

(** The cuts of a sorted chunk never decrease from one PU to the next. *)
Lemma cut_mono (d : A) (sd : PMWMSSortingData A) (T j s : nat) :
  length (samples sd) = T * num_samples_of T ->
  nondecreasing (samples sd) ->
  cut d sd T j s <= cut d sd T (j + 1) s.
Proof.
  intros Hlen Hs; unfold cut.
  destruct (Nat.eqb_spec j 0) as [->|Hj]; [lia|].
  destruct (Nat.eqb_spec (j + 1) 0); [lia|].
  destruct (Nat.ltb_spec j T) as [HjT|HjT].
  - destruct (Nat.ltb_spec (j + 1) T) as [Hj1|Hj1]; [|apply lower_bound_le].
    apply lower_bound_mono; unfold splitter.
    destruct (Nat.eq_dec (num_samples_of T) 0) as [E|E].
    + rewrite E; simpl; apply cle_refl.
    + apply strong_nth; [apply nondecreasing_strong, Hs | nia | rewrite Hlen; nia].
  - destruct (Nat.ltb_spec (j + 1) T); [lia|apply Nat.le_refl].
Qed.

Lemma cut_le_length (d : A) (sd : PMWMSSortingData A) (T j s : nat) :
  cut d sd T j s <= length (sorting_places sd s).
Proof.
  unfold cut; destruct (j =? 0); [lia|].
  destruct (j <? T); [apply lower_bound_le | apply Nat.le_refl].
Qed.

Lemma cut_first (d : A) (sd : PMWMSSortingData A) (T s : nat) : cut d sd T 0 s = 0.
Proof. reflexivity. Qed.

Lemma cut_last (d : A) (sd : PMWMSSortingData A) (T s : nat) :
  1 <= T -> cut d sd T T s = length (sorting_places sd s).
Proof.
  intros HT; unfold cut.
  destruct (Nat.eqb_spec T 0); [lia|].
  rewrite Nat.ltb_irrefl; reflexivity.
Qed.

(** ** Sums *)

Lemma sum_nat_cons (x : nat) (l : list nat) : sum_nat (x :: l) = x + sum_nat l.
Proof.
  unfold sum_nat; simpl.
  assert (G : forall l a, fold_left Nat.add l a = a + fold_left Nat.add l 0).
  { clear; induction l as [|y l IH]; intros a; simpl; [lia|].
    rewrite (IH (a + y)), (IH y); lia. }
  apply G.
Qed.

Lemma sum_Z_cons (x : Z) (l : list Z) : sum_Z (x :: l) = (x + sum_Z l)%Z.
Proof.
  unfold sum_Z; simpl.
  assert (G : forall l a, fold_left Z.add l a = (a + fold_left Z.add l 0%Z)%Z).
  { clear; induction l as [|y l IH]; intros a; simpl; [lia|].
    rewrite (IH (a + y)%Z), (IH y); lia. }
  apply G.
Qed.

Lemma sum_nat_app (l1 l2 : list nat) : sum_nat (l1 ++ l2) = sum_nat l1 + sum_nat l2.
Proof.
  induction l1 as [|x l1 IH]; [reflexivity|].
  simpl; rewrite !sum_nat_cons, IH; lia.
Qed.

Lemma sum_Z_diff (f g : nat -> nat) (l : list nat) :
  (Z.of_nat (sum_nat (map f l))
   + sum_Z (map (fun s => Z.of_nat (g s) - Z.of_nat (f s)) l)
   = Z.of_nat (sum_nat (map g l)))%Z.
Proof.
  induction l as [|x l IH]; simpl; [reflexivity|].
  rewrite !sum_nat_cons, sum_Z_cons; lia.
Qed.

Lemma length_concat_map (X : Type) (h : nat -> list X) (l : list nat) :
  length (concat (map h l)) = sum_nat (map (fun s => length (h s)) l).
Proof.
  induction l as [|x l IH]; simpl; [reflexivity|].
  rewrite length_app, sum_nat_cons, IH; reflexivity.
Qed.

Lemma map_seq_ext (Y : Type) (f g : nat -> Y) (T : nat) :
  (forall s, s < T -> f s = g s) -> map f (seq 0 T) = map g (seq 0 T).
Proof.
  intros H; apply map_ext_in; intros s Hs; apply H; apply in_seq in Hs; lia.
Qed.

Lemma sum_steps (c : nat -> nat) (T : nat) :
  (forall k, k < T -> c k <= c (k + 1)) ->
  sum_nat (map (fun s => c (s + 1) - c s) (seq 0 T)) = c T - c 0.
Proof.
  induction T as [|T IH]; intros Hc; [unfold sum_nat; simpl; lia|].
  rewrite seq_S, map_app, sum_nat_app, IH by (intros; apply Hc; lia).
  simpl; rewrite sum_nat_cons; unfold sum_nat; simpl.
  pose proof (monotone_le c (S T) Hc 0 T ltac:(lia) ltac:(lia)).
  specialize (Hc T ltac:(lia)); rewrite Nat.add_1_r in *; lia.
Qed.

Lemma sum_nat_diff (f g : nat -> nat) (l : list nat) :
  (forall s, In s l -> f s <= g s) ->
  sum_nat (map f l) + sum_nat (map (fun s => g s - f s) l) = sum_nat (map g l).
Proof.
  induction l as [|x l IH]; intros H; simpl; [reflexivity|].
  rewrite !sum_nat_cons.
  specialize (H x (or_introl eq_refl)) as Hx.
  specialize (IH (fun s Hs => H s (or_intror Hs))); lia.
Qed.

Lemma sum_nat_zero (l : list nat) : sum_nat (map (fun _ => 0) l) = 0.
Proof.
  induction l as [|x l IH]; simpl; [reflexivity|].
  rewrite sum_nat_cons, IH; reflexivity.
Qed.

Lemma omap_total (X Y : Type) (f : X -> option Y) (g : X -> Y) (l : list X) :
  (forall x, In x l -> f x = Some (g x)) -> omap f l = Some (map g l).
Proof.
  induction l as [|x l IH]; intros H; simpl; [reflexivity|].
  rewrite (H x (or_introl eq_refl)); simpl.
  rewrite IH by (intros; apply H; right; assumption); reflexivity.
Qed.

(** ** The merge phase on a state cut by splitters *)

Hypothesis merge_ok : merge_contract.

Section MergePhase.
Variable d : A.
Variable Stable : bool.
Variable T : nat.
Variable sd2 : PMWMSSortingData A.

Hypothesis T_pos : 1 <= T.
Hypothesis pieces_cut : forall i s, i < T -> s < T ->
  piece sd2 i s = mkPiece (cut d sd2 T i s) (cut d sd2 T (i + 1) s).
Hypothesis samples_length : length (samples sd2) = T * num_samples_of T.
Hypothesis samples_sorted : nondecreasing (samples sd2).
Hypothesis places_sorted : forall s, s < T -> StronglySorted cle (sorting_places sd2 s).
Hypothesis places_total :
  sum_nat (map (fun s => length (sorting_places sd2 s)) (seq 0 T)) = length (source sd2).

Lemma cut_offset_step (i : nat) :
  cut_offset d sd2 T i + length (concat (cut_seqs d sd2 T i)) = cut_offset d sd2 T (i + 1).
Proof.
  unfold cut_offset, cut_seqs.
  rewrite length_concat_map.
  rewrite (map_ext (fun s => length (slice (cut d sd2 T i s) (cut d sd2 T (i + 1) s)
                                       (sorting_places sd2 s)))
                   (fun s => cut d sd2 T (i + 1) s - cut d sd2 T i s)).
  - apply (sum_nat_diff (cut d sd2 T i) (cut d sd2 T (i + 1))).
    intros s _; apply cut_mono; assumption.
  - intros s; apply slice_length; [apply cut_mono; assumption | apply cut_le_length].
Qed.

Lemma cut_offset_first : cut_offset d sd2 T 0 = 0.
Proof. unfold cut_offset; apply (sum_nat_zero (seq 0 T)). Qed.

Lemma cut_offset_last : cut_offset d sd2 T T = length (source sd2).
Proof.
  unfold cut_offset; rewrite <- places_total; f_equal.
  apply map_ext; intros s; apply cut_last; exact T_pos.
Qed.

Lemma cut_offset_mono (j k : nat) :
  j <= k -> cut_offset d sd2 T j <= cut_offset d sd2 T k.
Proof.
  intros Hjk; apply (monotone_le (cut_offset d sd2 T) k); [|exact Hjk|lia].
  intros i _; pose proof (cut_offset_step i); lia.
Qed.

Lemma pu_seqs_cut (i : nat) :
  i < T -> pu_seqs sd2 T i = Some (cut_seqs d sd2 T i).
Proof.
  intros Hi; unfold pu_seqs, cut_seqs.
  apply omap_total; intros s Hs; apply in_seq in Hs.
  rewrite pieces_cut by lia; simpl; unfold subrange.
  pose proof (cut_mono d sd2 T i s samples_length samples_sorted).
  pose proof (cut_le_length d sd2 T (i + 1) s).
  destruct (Nat.leb_spec (cut d sd2 T i s) (cut d sd2 T (i + 1) s)); [|lia].
  destruct (Nat.leb_spec (cut d sd2 T (i + 1) s) (length (sorting_places sd2 s))); [|lia].
  reflexivity.
Qed.

Lemma pu_offset_cut (i : nat) : i < T -> pu_offset sd2 T i = cut_offset d sd2 T i.
Proof.
  intros Hi; unfold pu_offset, cut_offset; f_equal.
  apply map_seq_ext; intros s Hs; rewrite pieces_cut by lia; reflexivity.
Qed.

Lemma pu_length_am_cut (i : nat) :
  i < T -> pu_length_am sd2 T i = Z.of_nat (length (concat (cut_seqs d sd2 T i))).
Proof.
  intros Hi; unfold pu_length_am.
  rewrite (map_seq_ext _ _
             (fun s => (Z.of_nat (cut d sd2 T (i + 1) s) - Z.of_nat (cut d sd2 T i s))%Z))
    by (intros s Hs; rewrite pieces_cut by lia; reflexivity).
  pose proof (sum_Z_diff (cut d sd2 T i) (cut d sd2 T (i + 1)) (seq 0 T)) as E.
  pose proof (cut_offset_step i) as F; unfold cut_offset in F.
  lia.
Qed.

Lemma cut_seqs_sorted (i : nat) : Forall nondecreasing (cut_seqs d sd2 T i).
Proof.
  apply Forall_forall; intros q Hq; unfold cut_seqs in Hq.
  apply in_map_iff in Hq; destruct Hq as (s & <- & Hs); apply in_seq in Hs.
  apply strong_nondecreasing, strong_slice, places_sorted; lia.
Qed.

Lemma segment_perm (i : nat) :
  Permutation (concat (cut_seqs d sd2 T i)) (segment d Stable sd2 T i).
Proof. apply (merge_perm merge_ok), cut_seqs_sorted. Qed.

Lemma segment_length (i : nat) :
  cut_offset d sd2 T i + length (segment d Stable sd2 T i) = cut_offset d sd2 T (i + 1).
Proof.
  rewrite <- (Permutation_length (segment_perm i)); apply cut_offset_step.
Qed.

Lemma pu_merged_cut (i : nat) :
  i < T -> pu_merged Stable sd2 T i = Some (segment d Stable sd2 T i).
Proof.
  intros Hi; unfold pu_merged.
  rewrite (pu_seqs_cut i Hi); simpl.
  rewrite (pu_length_am_cut i Hi); reflexivity.
Qed.

Lemma pu_frame (sd sd' : PMWMSSortingData A) (i : nat) :
  temporary sd = temporary sd' -> pieces sd = pieces sd' ->
  pu_merged Stable sd T i = pu_merged Stable sd' T i
  /\ pu_offset sd T i = pu_offset sd' T i.
Proof.
  unfold pu_merged, pu_seqs, pu_length_am, pu_offset, piece, sorting_places.
  intros E1 E2; rewrite E1, E2; split; reflexivity.
Qed.

Lemma write_range_middle (pre post data : list A) :
  length data <= length post ->
  write_range (pre ++ post) (length pre) data
  = Some ((pre ++ data) ++ skipn (length data) post).
Proof.
  intros Hd; unfold write_range.
  rewrite length_app.
  destruct (Nat.leb_spec (length pre + length data) (length pre + length post)); [|lia].
  rewrite firstn_app, firstn_all, Nat.sub_diag, firstn_O, app_nil_r.
  rewrite skipn_app, skipn_all2 by lia.
  replace (length pre + length data - length pre) with (length data) by lia.
  rewrite <- app_assoc; reflexivity.
Qed.

Lemma pu_merge_step (sd : PMWMSSortingData A) (k : nat) (pre post : list A) :
  k < T -> temporary sd = temporary sd2 -> pieces sd = pieces sd2 ->
  source sd = pre ++ post -> length pre = cut_offset d sd2 T k ->
  length (pre ++ post) = length (source sd2) ->
  exists sd',
    pu_merge Stable T sd k = Some sd'
    /\ temporary sd' = temporary sd2 /\ pieces sd' = pieces sd2
    /\ starts sd' = starts sd /\ samples sd' = samples sd
    /\ source sd' = (pre ++ segment d Stable sd2 T k)
                    ++ skipn (length (segment d Stable sd2 T k)) post.
Proof.
  intros Hk Et Ep Es Hpre Hlen; unfold pu_merge.
  destruct (pu_frame sd sd2 k Et Ep) as [-> ->].
  rewrite (pu_merged_cut k Hk), (pu_offset_cut k Hk); simpl.
  rewrite Es, <- Hpre, write_range_middle; simpl.
  - eexists; split; [reflexivity|]; simpl; auto.
  - pose proof (segment_length k).
    pose proof (cut_offset_mono (k + 1) T ltac:(lia)).
    rewrite cut_offset_last, <- Hlen, length_app in *; lia.
Qed.

Lemma merge_fold (m : nat) :
  forall (k : nat) (sd : PMWMSSortingData A) (pre post : list A),
    k + m <= T -> temporary sd = temporary sd2 -> pieces sd = pieces sd2 ->
    source sd = pre ++ post -> length pre = cut_offset d sd2 T k ->
    length (pre ++ post) = length (source sd2) ->
    exists sd',
      ofold (pu_merge Stable T) (seq k m) sd = Some sd'
      /\ temporary sd' = temporary sd2 /\ pieces sd' = pieces sd2
      /\ starts sd' = starts sd /\ samples sd' = samples sd
      /\ source sd' = pre ++ concat (map (segment d Stable sd2 T) (seq k m))
                      ++ skipn (cut_offset d sd2 T (k + m) - cut_offset d sd2 T k) post.
Proof.
  induction m as [|m IH]; intros k sd pre post Hk Et Ep Es Hpre Hlen.
  - exists sd; simpl; rewrite Nat.add_0_r, Nat.sub_diag; simpl; auto 10.
  - simpl.
    destruct (pu_merge_step sd k pre post ltac:(lia) Et Ep Es Hpre Hlen)
      as (sd1 & H1 & Et1 & Ep1 & Est1 & Esm1 & Es1).
    rewrite H1; simpl.
    pose proof (segment_length k) as Hseg.
    pose proof (cut_offset_mono (k + 1) T ltac:(lia)) as Hmono.
    rewrite cut_offset_last in Hmono.
    assert (Hpost : length (segment d Stable sd2 T k) <= length post)
      by (rewrite <- Hlen, length_app in Hmono; lia).
    destruct (IH (S k) sd1 (pre ++ segment d Stable sd2 T k)
                 (skipn (length (segment d Stable sd2 T k)) post))
      as (sd' & H' & Et' & Ep' & Est' & Esm' & Es'); auto.
    + lia.
    + rewrite length_app, Hpre, <- Nat.add_1_r, <- Hseg; reflexivity.
    + rewrite length_app, length_skipn, length_app, <- Hlen, length_app; lia.
    + exists sd'; rewrite H'; repeat split; try congruence.
      rewrite Es', skipn_skipn, <- !app_assoc; do 4 f_equal.
      pose proof (cut_offset_mono (k + 1) (k + S m) ltac:(lia)).
      replace (S k + m) with (k + S m) by lia.
      replace (S k) with (k + 1) by lia.
      lia.
Qed.

Lemma merge_phase_result :
  exists sd3,
    merge_phase Stable T sd2 = Some sd3
    /\ temporary sd3 = temporary sd2 /\ pieces sd3 = pieces sd2
    /\ starts sd3 = starts sd2 /\ samples sd3 = samples sd2
    /\ source sd3 = concat (map (segment d Stable sd2 T) (seq 0 T)).
Proof.
  destruct (merge_fold T 0 sd2 [] (source sd2)) as (sd3 & H & Et & Ep & Est & Esm & Es);
    auto using cut_offset_first.
  exists sd3; repeat split; auto.
  rewrite Es; simpl.
  rewrite cut_offset_last, cut_offset_first, Nat.sub_0_r, skipn_all, app_nil_r.
  reflexivity.
Qed.

(** *** Where the elements of a piece lie *)

Lemma splitter_mono (j k : nat) :
  j <= k -> k < T -> cle (splitter d sd2 T j) (splitter d sd2 T k).
Proof.
  intros Hjk Hk; unfold splitter.
  destruct (Nat.eq_dec (num_samples_of T) 0) as [E|E].
  - rewrite E; simpl; apply cle_refl.
  - apply strong_nth;
      [apply nondecreasing_strong, samples_sorted | nia | rewrite samples_length; nia].
Qed.

Lemma piece_below (i s : nat) (x : A) :
  s < T -> i + 1 < T ->
  In x (slice (cut d sd2 T i s) (cut d sd2 T (i + 1) s) (sorting_places sd2 s)) ->
  comp x (splitter d sd2 T (i + 1)) = true.
Proof.
  intros Hs Hi Hx; apply slice_in in Hx; destruct Hx as [_ Hx].
  unfold cut in Hx.
  destruct (Nat.eqb_spec (i + 1) 0); [lia|].
  destruct (Nat.ltb_spec (i + 1) T); [|lia].
  eapply lower_bound_before; exact Hx.
Qed.

Lemma piece_above (i s : nat) (x : A) :
  s < T -> 1 <= i -> i < T ->
  In x (slice (cut d sd2 T i s) (cut d sd2 T (i + 1) s) (sorting_places sd2 s)) ->
  comp x (splitter d sd2 T i) = false.
Proof.
  intros Hs Hi HiT Hx; apply slice_in in Hx; destruct Hx as [Hx _].
  unfold cut in Hx.
  destruct (Nat.eqb_spec i 0); [lia|].
  destruct (Nat.ltb_spec i T); [|lia].
  eapply lower_bound_after; [apply places_sorted; exact Hs | exact Hx].
Qed.

Lemma in_cut_seqs (i : nat) (x : A) :
  In x (concat (cut_seqs d sd2 T i)) ->
  exists s, s < T
    /\ In x (slice (cut d sd2 T i s) (cut d sd2 T (i + 1) s) (sorting_places sd2 s)).
Proof.
  intros Hx; apply in_concat in Hx; destruct Hx as (q & Hq & Hx).
  unfold cut_seqs in Hq; apply in_map_iff in Hq; destruct Hq as (s & <- & Hs).
  apply in_seq in Hs; exists s; split; [lia | exact Hx].
Qed.

Lemma pieces_ordered (i j : nat) (x y : A) :
  i < j -> j < T ->
  In x (concat (cut_seqs d sd2 T i)) -> In y (concat (cut_seqs d sd2 T j)) ->
  cle x y.
Proof.
  intros Hij Hj Hx Hy.
  apply in_cut_seqs in Hx; destruct Hx as (s & Hs & Hx).
  apply in_cut_seqs in Hy; destruct Hy as (s' & Hs' & Hy).
  apply piece_below in Hx; [|lia|lia].
  apply piece_above in Hy; [|lia|lia|lia].
  pose proof (splitter_mono (i + 1) j ltac:(lia) Hj) as Hsp.
  unfold cle; destruct (comp y x) eqn:E; [|reflexivity].
  pose proof (swo_trans comp_swo _ _ _ E Hx) as H1.
  rewrite (comp_cle_trans _ _ _ H1 Hsp) in Hy; discriminate.
Qed.

(** *** The output is non-decreasing *)

Lemma strong_app (a b : list A) :
  StronglySorted cle a -> StronglySorted cle b ->
  (forall x y, In x a -> In y b -> cle x y) -> StronglySorted cle (a ++ b).
Proof.
  intros Ha Hb Hab; induction Ha as [|x a Ha IH Hx]; simpl; [exact Hb|].
  constructor.
  - apply IH; intros; apply Hab; [right|]; assumption.
  - apply Forall_app; split; [exact Hx|].
    apply Forall_forall; intros y Hy; apply Hab; [left; reflexivity | exact Hy].
Qed.

Lemma strong_concat_seq (f : nat -> list A) (m : nat) :
  forall k,
    (forall i, k <= i < k + m -> StronglySorted cle (f i)) ->
    (forall i j x y, k <= i -> i < j -> j < k + m ->
                     In x (f i) -> In y (f j) -> cle x y) ->
    StronglySorted cle (concat (map f (seq k m))).
Proof.
  induction m as [|m IH]; intros k Hs Ho; simpl; [constructor|].
  apply strong_app.
  - apply Hs; lia.
  - apply IH; [intros; apply Hs; lia|].
    intros i j x y H1 H2 H3 H4 H5; apply (Ho i j x y); auto; lia.
  - intros x y Hx Hy.
    apply in_concat in Hy; destruct Hy as (q & Hq & Hy).
    apply in_map_iff in Hq; destruct Hq as (j & <- & Hj); apply in_seq in Hj.
    apply (Ho k j); auto; lia.
Qed.

Lemma segments_sorted :
  StronglySorted cle (concat (map (segment d Stable sd2 T) (seq 0 T))).
Proof.
  apply strong_concat_seq.
  - intros i _; apply nondecreasing_strong, (merge_sorted merge_ok), cut_seqs_sorted.
  - intros i j x y _ Hij Hj Hx Hy.
    apply (pieces_ordered i j); auto.
    + eapply Permutation_in; [apply Permutation_sym, segment_perm | exact Hx].
    + eapply Permutation_in; [apply Permutation_sym, segment_perm | exact Hy].
Qed.

(** *** The output is a permutation of the sorted chunks *)

Lemma concat_map_nil (X Y : Type) (l : list X) :
  concat (map (fun _ => @nil Y) l) = [].
Proof. induction l as [|x l IH]; simpl; auto. Qed.

Lemma perm_concat_map (X : Type) (f g : nat -> list X) (l : list nat) :
  (forall i, In i l -> Permutation (f i) (g i)) ->
  Permutation (concat (map f l)) (concat (map g l)).
Proof.
  induction l as [|i l IH]; intros H; simpl; [constructor|].
  apply Permutation_app; [apply H; left; reflexivity|].
  apply IH; intros; apply H; right; assumption.
Qed.

Lemma perm_concat_split (X : Type) (f g : nat -> list X) (J : list nat) :
  Permutation (concat (map (fun s => f s ++ g s) J))
              (concat (map f J) ++ concat (map g J)).
Proof.
  induction J as [|s J IH]; simpl; [constructor|].
  rewrite <- !app_assoc; apply Permutation_app_head.
  rewrite IH; apply Permutation_app_swap_app.
Qed.

Lemma perm_concat_swap (X : Type) (F : nat -> nat -> list X) (I J : list nat) :
  Permutation (concat (map (fun i => concat (map (F i) J)) I))
              (concat (map (fun s => concat (map (fun i => F i s) I)) J)).
Proof.
  induction I as [|i I IH]; simpl.
  - rewrite concat_map_nil; constructor.
  - rewrite (perm_concat_split _ (F i) (fun s => concat (map (fun i' => F i' s) I)) J).
    apply Permutation_app_head, IH.
Qed.

Lemma pieces_of_chunk (s : nat) :
  concat (map (fun i => slice (cut d sd2 T i s) (cut d sd2 T (i + 1) s)
                           (sorting_places sd2 s)) (seq 0 T))
  = sorting_places sd2 s.
Proof.
  rewrite (concat_slices _ (fun j => cut d sd2 T j s))
    by (intros; apply cut_mono; assumption).
  rewrite cut_first, cut_last by exact T_pos; apply slice_full.
Qed.

Lemma segments_perm :
  Permutation (concat (map (sorting_places sd2) (seq 0 T)))
              (concat (map (segment d Stable sd2 T) (seq 0 T))).
Proof.
  transitivity (concat (map (fun i => concat (cut_seqs d sd2 T i)) (seq 0 T)));
    [|apply perm_concat_map; intros; apply segment_perm].
  unfold cut_seqs.
  rewrite (perm_concat_swap _
             (fun i s => slice (cut d sd2 T i s) (cut d sd2 T (i + 1) s)
                           (sorting_places sd2 s))).
  erewrite map_ext; [reflexivity|].
  intros s; simpl; rewrite pieces_of_chunk; reflexivity.
Qed.

(** *** Equivalent elements keep the order of the sorted chunks *)

Lemma filter_concat (X : Type) (p : X -> bool) (ls : list (list X)) :
  filter p (concat ls) = concat (map (filter p) ls).
Proof.
  induction ls as [|l ls IH]; simpl; [reflexivity|].
  rewrite filter_app, IH; reflexivity.
Qed.

Lemma concat_nil_all (X : Type) (ls : list (list X)) :
  (forall l, In l ls -> l = []) -> concat ls = [].
Proof.
  induction ls as [|l ls IH]; intros H; simpl; [reflexivity|].
  rewrite (H l (or_introl eq_refl)), IH; [reflexivity|].
  intros; apply H; right; assumption.
Qed.

Lemma concat_swap_one_row (X : Type) (F : nat -> nat -> list X) (I J : list nat) :
  NoDup I ->
  (forall i i' s s', In i I -> In i' I -> i <> i' -> In s J -> In s' J ->
                     F i s = [] \/ F i' s' = []) ->
  concat (map (fun i => concat (map (F i) J)) I)
  = concat (map (fun s => concat (map (fun i => F i s) I)) J).
Proof.
  induction I as [|i I IH]; intros Hnd H; simpl.
  - rewrite concat_map_nil; reflexivity.
  - inversion Hnd as [|? ? Hni Hnd']; subst.
    assert (Hrow : (forall s, In s J -> F i s = [])
                   \/ exists s, In s J /\ F i s <> []).
    { clear; induction J as [|s J IHJ].
      - left; intros ? [].
      - destruct (F i s) eqn:E.
        + destruct IHJ as [Hall|(s0 & Hs0 & Hne)].
          * left; intros s' [<-|Hs']; auto.
          * right; exists s0; split; [right|]; assumption.
        + right; exists s; split; [left; reflexivity | rewrite E; discriminate]. }
    destruct Hrow as [Hall|(s0 & Hs0 & Hne)].
    + rewrite (concat_nil_all _ (map (F i) J)); simpl.
      * rewrite IH; [|exact Hnd'|].
        -- f_equal; apply map_ext_in; intros s Hs; rewrite (Hall s Hs); reflexivity.
        -- intros; apply H; auto; right; assumption.
      * intros l Hl; apply in_map_iff in Hl; destruct Hl as (s & <- & Hs); auto.
    + assert (Hrest : forall i' s', In i' I -> In s' J -> F i' s' = []).
      { intros i' s' Hi' Hs'.
        destruct (H i i' s0 s') as [E|E]; auto.
        - left; reflexivity.
        - right; assumption.
        - intros ->; contradiction.
        - contradiction. }
      rewrite (concat_nil_all _ (map (fun i0 => concat (map (F i0) J)) I)).
      * rewrite app_nil_r; f_equal; apply map_ext_in; intros s Hs.
        rewrite (concat_nil_all _ (map (fun i0 => F i0 s) I)), app_nil_r; [reflexivity|].
        intros l Hl; apply in_map_iff in Hl; destruct Hl as (i' & <- & Hi'); auto.
      * intros l Hl; apply in_map_iff in Hl; destruct Hl as (i' & <- & Hi').
        apply concat_nil_all; intros q Hq.
        apply in_map_iff in Hq; destruct Hq as (s' & <- & Hs'); auto.
Qed.

Lemma pieces_separate (x : A) (i i' s s' : nat) :
  i < i' -> i' < T -> s < T -> s' < T ->
  filter (equiv x) (slice (cut d sd2 T i s) (cut d sd2 T (i + 1) s)
                          (sorting_places sd2 s)) = []
  \/ filter (equiv x) (slice (cut d sd2 T i' s') (cut d sd2 T (i' + 1) s')
                             (sorting_places sd2 s')) = [].
Proof.
  intros Hi Hi' Hs Hs'.
  destruct (filter (equiv x) (slice (cut d sd2 T i s) _ _)) as [|z r] eqn:E;
    [left; reflexivity|].
  destruct (filter (equiv x) (slice (cut d sd2 T i' s') _ _)) as [|z' r'] eqn:E';
    [right; reflexivity|].
  exfalso.
  assert (Hz : In z (z :: r)) by (left; reflexivity).
  assert (Hz' : In z' (z' :: r')) by (left; reflexivity).
  rewrite <- E in Hz; rewrite <- E' in Hz'.
  apply filter_In in Hz, Hz'; destruct Hz as [Hz Ez], Hz' as [Hz' Ez'].
  apply piece_below in Hz; [|lia|lia].
  apply piece_above in Hz'; [|lia|lia|lia].
  rewrite <- (equiv_comp_l _ _ _ Ez) in Hz.
  rewrite <- (equiv_comp_l _ _ _ Ez') in Hz'.
  pose proof (splitter_mono (i + 1) i' ltac:(lia) Hi') as Hsp.
  rewrite (comp_cle_trans _ _ _ Hz Hsp) in Hz'; discriminate.
Qed.

Lemma segments_stable (x : A) :
  Stable = true ->
  filter (equiv x) (concat (map (segment d Stable sd2 T) (seq 0 T)))
  = filter (equiv x) (concat (map (sorting_places sd2) (seq 0 T))).
Proof.
  intros HS.
  rewrite !filter_concat, !map_map.
  rewrite (map_ext (fun i => filter (equiv x) (segment d Stable sd2 T i))
             (fun i => concat (map (fun s =>
                 filter (equiv x) (slice (cut d sd2 T i s) (cut d sd2 T (i + 1) s)
                                         (sorting_places sd2 s))) (seq 0 T)))).
  - rewrite (concat_swap_one_row _
               (fun i s => filter (equiv x)
                  (slice (cut d sd2 T i s) (cut d sd2 T (i + 1) s)
                         (sorting_places sd2 s)))).
    + f_equal; apply map_ext; intros s.
      transitivity
        (filter (equiv x)
           (concat (map (fun i => slice (cut d sd2 T i s) (cut d sd2 T (i + 1) s)
                                    (sorting_places sd2 s)) (seq 0 T))));
        [rewrite filter_concat, map_map; reflexivity
        |rewrite pieces_of_chunk; reflexivity].
    + apply seq_NoDup.
    + intros i i' s s' Hi Hi' Hne Hs Hs'.
      apply in_seq in Hi, Hi', Hs, Hs'.
      destruct (Nat.lt_total i i') as [Hlt|[Heq|Hgt]]; [|contradiction|].
      * apply pieces_separate; lia.
      * destruct (pieces_separate x i' i s' s) as [E|E]; auto; lia.
  - intros i; unfold segment; subst Stable.
    rewrite (merge_stable merge_ok) by apply cut_seqs_sorted.
    unfold cut_seqs; rewrite filter_concat, map_map; reflexivity.
Qed.
End MergePhase.

(** ** From the call to the state after the local sort *)

Lemma clamp_threads_min (n num_threads : nat) :
  clamp_threads n num_threads = Nat.min num_threads n.
Proof.
  unfold clamp_threads; destruct (Nat.ltb_spec n num_threads); lia.
Qed.

Lemma length_local_chunk (l : list A) (st : list nat) (tmp : list (TempBuffer A))
    (smp : list A) (pcs : list (list PMWMSPiece)) (mp : list nat) (T s : nat) :
  starts_tile st T (length l) -> s < T ->
  length (chunk l st s) = length_local (mkSD l st tmp smp pcs mp) s.
Proof.
  intros Hst Hs; unfold chunk, length_local; simpl.
  apply slice_length.
  - apply (starts_tile_le st T (length l)); auto; lia.
  - destruct Hst as (H0 & HT & Hm).
    rewrite <- HT.
    apply (monotone_le (fun i => nth i st 0) T); auto; lia.
Qed.

Lemma sum_length_local (sd : PMWMSSortingData A) (T : nat) :
  starts_tile (starts sd) T (length (source sd)) ->
  sum_nat (map (length_local sd) (seq 0 T)) = length (source sd).
Proof.
  intros (H0 & HT & Hm); unfold length_local.
  rewrite (sum_steps (fun i => nth i (starts sd) 0) T Hm); lia.
Qed.

(** ** Where the sample reads land *)

Lemma determine_samples_reads (sd : PMWMSSortingData A) (T iam : nat) (es : list nat) :
  equally_split (length_local sd iam) (sort_mwms_oversampling * T) = Some es ->
  (forall i, i < num_samples_of T -> sample_index sd es iam i < length (source sd)) ->
  exists smp, determine_samples sd T iam = Some smp.
Proof.
  intros Hes Hin; unfold determine_samples; rewrite Hes; simpl.
  apply omap_defined; intros i Hi; apply in_seq in Hi.
  destruct (nth_error (source sd) (sample_index sd es iam i)) as [v|] eqn:E;
    [exists v; reflexivity|].
  apply nth_error_None in E; specialize (Hin i ltac:(lia)); lia.
Qed.

Lemma determine_samples_inside (sd : PMWMSSortingData A) (T iam : nat) :
  helper_keeps_inside ->
  starts_tile (starts sd) T (length (source sd)) -> iam < T ->
  1 <= sort_mwms_oversampling * T -> 1 <= length_local sd iam ->
  exists smp, determine_samples sd T iam = Some smp.
Proof.
  intros Hk Hst Hi HV Hlen.
  destruct (Hk _ _ Hlen HV) as (es & Hes & Hin).
  apply (determine_samples_reads sd T iam es Hes).
  intros i Hns; unfold sample_index, num_samples_of in *.
  specialize (Hin (i + 1) ltac:(lia) ltac:(lia)).
  pose proof (starts_tile_le _ _ _ iam (iam + 1) Hst ltac:(lia) ltac:(lia)) as H1.
  pose proof (starts_tile_le _ _ _ (iam + 1) T Hst ltac:(lia) ltac:(lia)) as H2.
  destruct Hst as (_ & HT & _); rewrite HT in H2.
  unfold length_local in Hin; lia.
Qed.

Lemma equally_split_nth (n p k : nat) (es : list nat) :
  helper_as_specified ->
  equally_split n p = Some es -> k <= p ->
  1 <= p /\ nth k es 0 = k * (n / p) + Nat.min k (n mod p).
Proof.
  intros Hh; rewrite Hh; unfold equally_split_model.
  destruct (Nat.eqb_spec p 0) as [?|Hp]; [discriminate|].
  intros H Hk; inversion H; subst es; split; [lia|].
  apply starts_nth; exact Hk.
Qed.

Lemma sample_index_inside (sd : PMWMSSortingData A) (T iam i : nat) (es : list nat) :
  helper_as_specified ->
  equally_split (length_local sd iam) (sort_mwms_oversampling * T) = Some es ->
  sort_mwms_oversampling * T <= length_local sd iam ->
  i < num_samples_of T ->
  nth iam (starts sd) 0 <= sample_index sd es iam i
  /\ sample_index sd es iam i < nth iam (starts sd) 0 + length_local sd iam.
Proof.
  unfold num_samples_of, sample_index; intros Hh Hes Hlen Hi.
  destruct (equally_split_nth _ _ (i + 1) _ Hh Hes ltac:(lia)) as [Hp ->].
  set (p := sort_mwms_oversampling * T) in *.
  set (n := length_local sd iam) in *.
  pose proof (Nat.div_mod_eq n p) as Hdm.
  pose proof (Nat.mod_upper_bound n p ltac:(lia)) as Hr.
  assert (Hq : 1 <= n / p) by (apply Nat.div_le_lower_bound; lia).
  assert (Hmul : (i + 1) * (n / p) + (n / p) <= p * (n / p)) by nia.
  lia.
Qed.

Lemma determine_samples_defined (sd : PMWMSSortingData A) (T iam : nat) :
  helper_as_specified ->
  starts_tile (starts sd) T (length (source sd)) -> iam < T ->
  1 <= sort_mwms_oversampling * T ->
  sort_mwms_oversampling * T <= length_local sd iam ->
  exists smp, determine_samples sd T iam = Some smp.
Proof.
  intros Hh Hst Hi HV Hlen.
  destruct (equally_split (length_local sd iam) (sort_mwms_oversampling * T))
    as [es|] eqn:Hes.
  - apply (determine_samples_reads sd T iam es Hes); intros i Hns.
    destruct (sample_index_inside sd T iam i es Hh Hes Hlen Hns) as [_ Hidx].
    pose proof (starts_tile_le _ _ _ iam (iam + 1) Hst ltac:(lia) ltac:(lia)) as H1.
    pose proof (starts_tile_le _ _ _ (iam + 1) T Hst ltac:(lia) ltac:(lia)) as H2.
    destruct Hst as (_ & HT & _); rewrite HT in H2.
    unfold length_local in Hidx; lia.
  - rewrite Hh in Hes; unfold equally_split_model in Hes.
    destruct (Nat.eqb_spec (sort_mwms_oversampling * T) 0); [lia | discriminate].
Qed.

Lemma last_sample_index_outside (sd : PMWMSSortingData A) (T : nat) (es : list nat) :
  helper_as_specified ->
  starts_tile (starts sd) T (length (source sd)) -> 1 <= T ->
  1 <= length_local sd (T - 1) ->
  length_local sd (T - 1) < sort_mwms_oversampling * T ->
  equally_split (length_local sd (T - 1)) (sort_mwms_oversampling * T) = Some es ->
  num_samples_of T - 1 < num_samples_of T
  /\ sample_index sd es (T - 1) (num_samples_of T - 1) = length (source sd).
Proof.
  intros Hh Hst HT Hlen1 Hlen Hes; unfold num_samples_of, sample_index.
  split; [lia|].
  destruct (equally_split_nth _ _ (sort_mwms_oversampling * T - 1 - 1 + 1) _ Hh Hes
              ltac:(lia)) as [Hp ->].
  rewrite Nat.div_small, Nat.mod_small by lia.
  pose proof (starts_tile_le _ _ _ (T - 1) T Hst ltac:(lia) ltac:(lia)) as H1.
  destruct Hst as (_ & HTn & _).
  unfold length_local in *.
  replace (T - 1 + 1) with T in * by lia.
  lia.
Qed.

Lemma determine_samples_last_undefined (sd : PMWMSSortingData A) (T : nat) :
  helper_as_specified ->
  starts_tile (starts sd) T (length (source sd)) -> 1 <= T ->
  1 <= length_local sd (T - 1) ->
  length_local sd (T - 1) < sort_mwms_oversampling * T ->
  determine_samples sd T (T - 1) = None.
Proof.
  intros Hh Hst HT Hlen1 Hlen; unfold determine_samples.
  destruct (equally_split (length_local sd (T - 1)) (sort_mwms_oversampling * T))
    as [es|] eqn:Hes; [simpl|reflexivity].
  destruct (last_sample_index_outside sd T es Hh Hst HT Hlen1 Hlen Hes) as [Hi Hidx].
  apply (omap_none _ _ _ _ (num_samples_of T - 1)).
  - apply in_seq; lia.
  - rewrite Hidx; apply nth_error_None; lia.
Qed.

Lemma sampling_piece_defined (sd : PMWMSSortingData A) (T i s : nat) :
  length (samples sd) = T * num_samples_of T -> i < T ->
  exists p, sampling_piece sd T (num_samples_of T) i s = Some p.
Proof.
  intros Hlen Hi; unfold sampling_piece.
  set (ns := num_samples_of T) in *.
  assert (Hb : exists b,
    (if 0 <? ns * i
     then v <- nth_error (samples sd) (ns * i) ;;
          Some (lower_bound (firstn (length_local sd s) (sorting_places sd s)) v)
     else Some 0) = Some b).
  { destruct (Nat.ltb_spec 0 (ns * i)); [|eexists; reflexivity].
    destruct (nth_error (samples sd) (ns * i)) eqn:E; [eexists; reflexivity|].
    apply nth_error_None in E; nia. }
  assert (He : exists e,
    (if ns * (i + 1) <? ns * T
     then v <- nth_error (samples sd) (ns * (i + 1)) ;;
          Some (lower_bound (firstn (length_local sd s) (sorting_places sd s)) v)
     else Some (length_local sd s)) = Some e).
  { destruct (Nat.ltb_spec (ns * (i + 1)) (ns * T)); [|eexists; reflexivity].
    destruct (nth_error (samples sd) (ns * (i + 1))) eqn:E; [eexists; reflexivity|].
    apply nth_error_None in E; nia. }
  destruct Hb as [b ->], He as [e ->]; simpl; eexists; reflexivity.
Qed.

Lemma split_sampling_defined (T : nat) (sd : PMWMSSortingData A) :
  (forall iam, iam < T -> exists smp, determine_samples sd T iam = Some smp) ->
  exists sd', split_sampling T sd = Some sd'.
Proof.
  intros Hdef; unfold split_sampling.
  destruct (omap_defined _ _ (determine_samples sd T) (seq 0 T)) as [drawn Hdr].
  { intros iam Hin; apply in_seq in Hin; apply Hdef; lia. }
  rewrite Hdr; simpl.
  match goal with
  | |- exists _, obind (omap ?f _) _ = _ =>
      destruct (omap_defined _ _ f (seq 0 T)) as [rows Hrows]
  end.
  { intros i Hi; apply in_seq in Hi; apply omap_defined; intros s _.
    apply sampling_piece_defined; [simpl|lia].
    rewrite <- (Permutation_length (sort_perm _ std_sort_ok (concat drawn))).
    rewrite (determine_samples_team_length _ _ _ _ Hdr), length_seq; reflexivity. }
  rewrite Hrows; simpl; eexists; reflexivity.
Qed.

(** ** The run, phase by phase *)

Lemma product_positive (a b : nat) : a * b <> 0 -> 1 <= a /\ 1 <= b /\ 1 <= a * b.
Proof. destruct a, b; simpl; lia. Qed.

Lemma after_split_unfold (mode : MultiwayMergeSplittingAlgorithm) (Stable : bool)
    (l : list A) (T_req : nat) :
  let T := clamp_threads (length l) T_req in
  after_split mode Stable l T_req
  = if match mode with
       | MWMSA_SAMPLING => sort_mwms_oversampling * T =? 0
       | MWMSA_EXACT => T =? 0
       end
    then None
    else split_phase mode T (after_local_sort Stable l T).
Proof.
  intros T.
  assert (Hrun : 1 <= T ->
            (sd <- setup l T ;; pmwms_until_split mode Stable T sd)
            = split_phase mode T (after_local_sort Stable l T)).
  { intros HT; unfold setup, compute_starts.
    destruct (Nat.eqb_spec T 0) as [?|_]; [lia|].
    simpl; unfold pmwms_until_split.
    rewrite local_sort_phase_result; [reflexivity|].
    apply compute_starts_tile; lia. }
  unfold after_split, sorting_data_sizes, allocate_samples; fold T.
  destruct mode.
  - destruct (Nat.eqb_spec (sort_mwms_oversampling * T) 0) as [E|E].
    + destruct (T =? 0); reflexivity.
    + destruct (product_positive _ _ E) as (_ & HT & _).
      destruct (Nat.eqb_spec T 0) as [?|_]; [lia|].
      simpl; apply Hrun; exact HT.
  - destruct (Nat.eqb_spec T 0) as [E|E]; [reflexivity|].
    simpl; apply Hrun; lia.
Qed.

Lemma after_split_inhabited (mode : MultiwayMergeSplittingAlgorithm) (Stable : bool)
    (l : list A) (T_req : nat) (sd : PMWMSSortingData A) :
  after_split mode Stable l T_req = Some sd -> exists d : A, In d l.
Proof.
  destruct l as [|d l]; [|intros _; exists d; left; reflexivity].
  rewrite after_split_unfold, clamp_threads_min; simpl.
  rewrite Nat.min_0_r, Nat.mul_0_r; destruct mode; simpl; discriminate.
Qed.

Lemma team_unfold (Stable : bool) (l : list A) (T_req : nat) :
  parallel_mergesort_team Stable l T_req
  = sd2 <- after_split mwmsa Stable l T_req ;;
    merge_phase Stable (clamp_threads (length l) T_req) sd2.
Proof.
  unfold parallel_mergesort_team, after_split, parallel_sort_mwms_pu, pmwms_body.
  destruct (sorting_data_sizes (clamp_threads (length l) T_req)); [|reflexivity].
  destruct (allocate_samples mwmsa (clamp_threads (length l) T_req)); [|reflexivity].
  destruct (setup l (clamp_threads (length l) T_req)); reflexivity.
Qed.

Lemma after_local_sort_tile (Stable : bool) (l : list A) (T : nat) :
  1 <= T ->
  starts_tile (starts (after_local_sort Stable l T)) T
              (length (source (after_local_sort Stable l T))).
Proof. intros HT; simpl; apply compute_starts_tile; exact HT. Qed.

Lemma after_local_sort_place (Stable : bool) (l : list A) (T s : nat) :
  s < T ->
  sorting_places (after_local_sort Stable l T) s
  = sort_with Stable (chunk l (team_starts (length l) T) s).
Proof.
  intros Hs; unfold after_local_sort, sorting_places; simpl.
  rewrite nth_map_seq by exact Hs; reflexivity.
Qed.

Lemma after_local_sort_length (Stable : bool) (l : list A) (T s : nat) :
  1 <= T -> s < T ->
  length (sorting_places (after_local_sort Stable l T) s)
  = length_local (after_local_sort Stable l T) s.
Proof.
  intros HT Hs; rewrite after_local_sort_place, sort_with_length by exact Hs.
  apply (length_local_chunk l _ _ _ _ _ T); [apply compute_starts_tile; exact HT | exact Hs].
Qed.

Lemma after_split_sampling_facts (d : A) (Stable : bool) (l : list A) (T_req : nat)
    (sd2 : PMWMSSortingData A) :
  let T := clamp_threads (length l) T_req in
  after_split MWMSA_SAMPLING Stable l T_req = Some sd2 ->
  1 <= T
  /\ 1 <= sort_mwms_oversampling * T
  /\ source sd2 = l
  /\ starts sd2 = team_starts (length l) T
  /\ (forall s, s < T ->
        sorting_places sd2 s = sort_with Stable (chunk l (team_starts (length l) T) s))
  /\ (forall i s, i < T -> s < T ->
        piece sd2 i s = mkPiece (cut d sd2 T i s) (cut d sd2 T (i + 1) s))
  /\ length (samples sd2) = T * num_samples_of T
  /\ nondecreasing (samples sd2)
  /\ (forall s, s < T -> StronglySorted cle (sorting_places sd2 s))
  /\ sum_nat (map (fun s => length (sorting_places sd2 s)) (seq 0 T)) = length (source sd2).
Proof.
  intros T H; rewrite after_split_unfold in H; fold T in H.
  destruct (Nat.eqb_spec (sort_mwms_oversampling * T) 0) as [E|E]; [discriminate|].
  destruct (product_positive _ _ E) as (_ & HT & HV).
  simpl in H.
  destruct (split_sampling_result d T _ _ HV
              (fun s Hs => after_local_sort_length Stable l T s HT Hs) H)
    as (Es & Est & Et & Hsl & Hss & Hpc).
  assert (Hpl : forall s, s < T ->
            sorting_places sd2 s
            = sort_with Stable (chunk l (team_starts (length l) T) s)).
  { intros s Hs; unfold sorting_places; rewrite Et.
    apply (after_local_sort_place Stable l T s Hs). }
  repeat split; auto.
  - intros s Hs; rewrite (Hpl s Hs); apply sort_with_sorted.
  - rewrite Es.
    transitivity (sum_nat (map (length_local (after_local_sort Stable l T)) (seq 0 T))).
    + f_equal; apply map_seq_ext; intros s Hs.
      unfold sorting_places; rewrite Et.
      apply (after_local_sort_length Stable l T s HT Hs).
    + apply sum_length_local, after_local_sort_tile; exact HT.
Qed.

(** ** The pieces tile the chunks, in either mode *)

Lemma split_sampling_pieces (T : nat) (sd sd' : PMWMSSortingData A) :
  split_sampling T sd = Some sd' ->
  source sd' = source sd /\ starts sd' = starts sd /\ temporary sd' = temporary sd
  /\ forall i s, i < T -> s < T ->
       sampling_piece sd' T (num_samples_of T) i s = Some (piece sd' i s).
Proof.
  intros H; unfold split_sampling in H.
  apply obind_some in H; destruct H as (drawn & Hdr & H).
  apply obind_some in H; destruct H as (rows & Hrows & H).
  inversion H; subst sd'; clear H; simpl.
  repeat split; try reflexivity.
  intros i s Hi Hs.
    destruct (omap_seq_nth _ _ [] _ _ Hrows) as [_ F].
    destruct (omap_seq_nth _ _ no_piece _ _ (F i Hi)) as [_ G].
    exact (G s Hs).
Qed.

Lemma sampling_piece_first (sd : PMWMSSortingData A) (T s : nat) (p : PMWMSPiece) :
  sampling_piece sd T (num_samples_of T) 0 s = Some p -> piece_begin p = 0.
Proof.
  unfold sampling_piece; rewrite Nat.mul_0_r; simpl; intros H.
  apply obind_some in H; destruct H as (e & _ & H); inversion H; reflexivity.
Qed.

Lemma sampling_piece_last (sd : PMWMSSortingData A) (T s : nat) (p : PMWMSPiece) :
  1 <= T ->
  sampling_piece sd T (num_samples_of T) (T - 1) s = Some p ->
  piece_end p = length_local sd s.
Proof.
  unfold sampling_piece; intros HT H.
  apply obind_some in H; destruct H as (b & _ & H).
  replace (T - 1 + 1) with T in H by lia.
  rewrite Nat.ltb_irrefl in H; simpl in H; inversion H; reflexivity.
Qed.

Lemma sampling_piece_next (sd : PMWMSSortingData A) (T i s : nat) (p p' : PMWMSPiece) :
  1 <= sort_mwms_oversampling * T -> i + 1 < T ->
  sampling_piece sd T (num_samples_of T) i s = Some p ->
  sampling_piece sd T (num_samples_of T) (i + 1) s = Some p' ->
  piece_end p = piece_begin p'.
Proof.
  unfold sampling_piece, num_samples_of; intros HV Hi H H'.
  set (ns := sort_mwms_oversampling * T - 1) in *.
  assert (HV1 : 1 <= sort_mwms_oversampling).
  { destruct (Nat.eq_dec sort_mwms_oversampling 0) as [E|E]; [|lia].
    rewrite E in HV; simpl in HV; lia. }
  assert (Hns : 1 <= ns) by (unfold ns; nia).
  apply obind_some in H; destruct H as (b & _ & H).
  apply obind_some in H; destruct H as (e & He & H).
  apply obind_some in H'; destruct H' as (b' & Hb' & H').
  apply obind_some in H'; destruct H' as (e' & _ & H').
  inversion H; inversion H'; subst; simpl; clear H H'.
  destruct (Nat.ltb_spec (ns * (i + 1)) (ns * T)); [|nia].
  destruct (Nat.ltb_spec 0 (ns * (i + 1))); [|nia].
  congruence.
Qed.

Lemma split_exact_pieces (T : nat) (sd sd' : PMWMSSortingData A) :
  split_exact T sd = Some sd' ->
  source sd' = source sd /\ starts sd' = starts sd /\ temporary sd' = temporary sd
  /\ forall i s, i < T -> s < T ->
       piece sd' i s
       = mkPiece (if 0 <? i then nth s (exact_ends sd T (i - 1)) 0 else 0)
                 (nth s (exact_ends sd T i) 0).
Proof.
  unfold split_exact; intros H; inversion H; subst sd'; clear H; simpl.
  repeat split; try reflexivity.
  intros i s Hi Hs; unfold piece; simpl.
  rewrite nth_map_seq by exact Hi.
  unfold exact_row; rewrite nth_map_seq by exact Hs.
  rewrite !nth_map_seq by lia; reflexivity.
Qed.

Lemma exact_ends_last (T s : nat) (sd : PMWMSSortingData A) :
  1 <= T -> s < T -> nth s (exact_ends sd T (T - 1)) 0 = length_local sd s.
Proof.
  intros HT Hs; unfold exact_ends.
  rewrite nth_map_seq by exact Hs.
  rewrite Nat.ltb_irrefl; reflexivity.
Qed.

Lemma split_tiles (mode : MultiwayMergeSplittingAlgorithm) (Stable : bool)
    (l : list A) (T_req : nat) (sd : PMWMSSortingData A) :
  let T := clamp_threads (length l) T_req in
  after_split mode Stable l T_req = Some sd ->
  1 <= T /\ source sd = l /\ starts sd = team_starts (length l) T
  /\ forall s, s < T ->
       piece_begin (piece sd 0 s) = 0
       /\ piece_end (piece sd (T - 1) s) = length_local sd s
       /\ forall i, i + 1 < T ->
            piece_end (piece sd i s) = piece_begin (piece sd (i + 1) s).
Proof.
  intros T H; rewrite after_split_unfold in H; fold T in H.
  destruct mode.
  - destruct (Nat.eqb_spec (sort_mwms_oversampling * T) 0) as [E|E]; [discriminate|].
    destruct (product_positive _ _ E) as (_ & HT & HV).
    simpl in H.
    destruct (split_sampling_pieces T _ _ H) as (Es & Est & Et & Hp).
    repeat split; auto.
    + apply (sampling_piece_first sd T s), Hp; lia.
    + apply (sampling_piece_last sd T s); [exact HT|]; apply Hp; lia.
    + intros i Hi.
      apply (sampling_piece_next sd T i s); auto; apply Hp; lia.
  - destruct (Nat.eqb_spec T 0) as [E|E]; [discriminate|].
    assert (HT : 1 <= T) by lia.
    simpl in H.
    destruct (split_exact_pieces T _ _ H) as (Es & Est & Et & Hp).
    repeat split; auto.
    + rewrite Hp by lia; reflexivity.
    + rewrite Hp by lia; simpl.
      rewrite exact_ends_last by lia.
      unfold length_local; rewrite Est; reflexivity.
    + intros i Hi; rewrite !Hp by lia; simpl.
      destruct (Nat.ltb_spec 0 (i + 1)); [|lia].
      replace (i + 1 - 1) with i by lia; reflexivity.
Qed.

(** ** Offsets and lengths of the output segments *)

Lemma offsets_chain (sd : PMWMSSortingData A) (T : nat) :
  1 <= T ->
  starts_tile (starts sd) T (length (source sd)) ->
  (forall s, s < T ->
     piece_begin (piece sd 0 s) = 0
     /\ piece_end (piece sd (T - 1) s) = length_local sd s
     /\ forall i, i + 1 < T ->
          piece_end (piece sd i s) = piece_begin (piece sd (i + 1) s)) ->
  pu_offset sd T 0 = 0
  /\ (forall i, i + 1 < T ->
        (Z.of_nat (pu_offset sd T i) + pu_length_am sd T i
         = Z.of_nat (pu_offset sd T (i + 1)))%Z)
  /\ (Z.of_nat (pu_offset sd T (T - 1)) + pu_length_am sd T (T - 1)
      = Z.of_nat (length (source sd)))%Z.
Proof.
  intros HT Hst Htile; unfold pu_offset, pu_length_am.
  split; [|split].
  - rewrite (map_seq_ext _ _ (fun _ => 0)) by (intros s Hs; apply Htile; exact Hs).
    apply sum_nat_zero.
  - intros i Hi.
    rewrite (sum_Z_diff (fun s => piece_begin (piece sd i s))
                        (fun s => piece_end (piece sd i s)) (seq 0 T)).
    do 2 f_equal; apply map_seq_ext; intros s Hs.
    apply Htile; assumption.
  - rewrite (sum_Z_diff (fun s => piece_begin (piece sd (T - 1) s))
                        (fun s => piece_end (piece sd (T - 1) s)) (seq 0 T)).
    rewrite <- (sum_length_local sd T Hst).
    do 2 f_equal; apply map_seq_ext; intros s Hs.
    apply Htile; assumption.
Qed.

(** ** When the call returns, and when it does not *)

Lemma team_starts_length_local (Stable : bool) (l : list A) (T iam : nat) :
  iam < T ->
  length_local (after_local_sort Stable l T) iam
  = if iam <? length l mod T then length l / T + 1 else length l / T.
Proof.
  intros Hi; unfold length_local, after_local_sort, team_starts; simpl.
  rewrite starts_step by exact Hi; lia.
Qed.

Lemma team_defined_if (Stable : bool) (l : list A) (T_req : nat) :
  let T := clamp_threads (length l) T_req in
  1 <= sort_mwms_oversampling * T ->
  (forall iam, iam < T ->
     exists smp, determine_samples (after_local_sort Stable l T) T iam = Some smp) ->
  exists sd3, parallel_mergesort_team Stable l T_req = Some sd3.
Proof.
  intros T HV Hdef.
  assert (Hne : sort_mwms_oversampling * T <> 0) by lia.
  destruct (product_positive _ _ Hne) as (_ & HT & _).
  destruct (split_sampling_defined T (after_local_sort Stable l T) Hdef) as [sd2 H2].
  assert (H2' : after_split MWMSA_SAMPLING Stable l T_req = Some sd2).
  { rewrite after_split_unfold; fold T.
    destruct (Nat.eqb_spec (sort_mwms_oversampling * T) 0); [lia | exact H2]. }
  destruct (after_split_inhabited _ _ _ _ _ H2') as [d _].
  destruct (after_split_sampling_facts d Stable l T_req sd2 H2')
    as (_ & _ & Es & Est & Hpl & Hpc & Hsl & Hss & Hps & Hpt).
  destruct (merge_phase_result d Stable T sd2 HT Hpc Hsl Hss Hps Hpt) as (sd3 & H3 & _).
  exists sd3; rewrite team_unfold; unfold mwmsa; rewrite H2'; simpl; exact H3.
Qed.

Lemma team_defined (Stable : bool) (l : list A) (T_req : nat) :
  let T := clamp_threads (length l) T_req in
  helper_as_specified ->
  1 <= sort_mwms_oversampling * T ->
  sort_mwms_oversampling * T <= length l / T ->
  exists sd3, parallel_mergesort_team Stable l T_req = Some sd3.
Proof.
  intros T Hh HV Hlen; apply team_defined_if; fold T; [exact HV|].
  assert (Hne : sort_mwms_oversampling * T <> 0) by lia.
  destruct (product_positive _ _ Hne) as (_ & HT & _).
  intros iam Hi; apply determine_samples_defined; auto.
  - apply after_local_sort_tile; exact HT.
  - rewrite team_starts_length_local by exact Hi.
    destruct (iam <? length l mod T); lia.
Qed.

Lemma team_defined_inside (Stable : bool) (l : list A) (T_req : nat) :
  let T := clamp_threads (length l) T_req in
  helper_keeps_inside ->
  1 <= sort_mwms_oversampling * T ->
  exists sd3, parallel_mergesort_team Stable l T_req = Some sd3.
Proof.
  intros T Hk HV; apply team_defined_if; fold T; [exact HV|].
  assert (Hne : sort_mwms_oversampling * T <> 0) by lia.
  destruct (product_positive _ _ Hne) as (_ & HT & _).
  assert (HTn : T <= length l) by (unfold T; rewrite clamp_threads_min; lia).
  intros iam Hi; apply determine_samples_inside; auto.
  - apply after_local_sort_tile; exact HT.
  - rewrite team_starts_length_local by exact Hi.
    assert (1 <= length l / T) by (apply Nat.div_le_lower_bound; lia).
    destruct (iam <? length l mod T); lia.
Qed.

Lemma team_undefined (Stable : bool) (l : list A) (T_req : nat) :
  let T := clamp_threads (length l) T_req in
  helper_as_specified ->
  1 <= T -> length l / T < sort_mwms_oversampling * T ->
  parallel_mergesort_team Stable l T_req = None.
Proof.
  intros T Hh HT Hlen; rewrite team_unfold, after_split_unfold; fold T.
  destruct (Nat.eqb_spec (sort_mwms_oversampling * T) 0); [reflexivity|]; simpl.
  unfold split_sampling.
  assert (HTn : T <= length l) by (unfold T; rewrite clamp_threads_min; lia).
  rewrite (omap_none _ _ _ _ (T - 1)); [reflexivity | apply in_seq; lia |].
  apply determine_samples_last_undefined.
  - exact Hh.
  - apply after_local_sort_tile; exact HT.
  - exact HT.
  - rewrite team_starts_length_local by lia.
    pose proof (Nat.mod_upper_bound (length l) T ltac:(lia)).
    destruct (Nat.ltb_spec (T - 1) (length l mod T)); [lia|].
    apply Nat.div_le_lower_bound; lia.
  - rewrite team_starts_length_local by lia.
    pose proof (Nat.mod_upper_bound (length l) T ltac:(lia)).
    destruct (Nat.ltb_spec (T - 1) (length l mod T)); [lia|exact Hlen].
Qed.

(** ** The sorted chunks against the input *)

Lemma sorted_chunks_perm (Stable : bool) (l : list A) (T : nat)
    (sd2 : PMWMSSortingData A) :
  1 <= T ->
  (forall s, s < T ->
     sorting_places sd2 s = sort_with Stable (chunk l (team_starts (length l) T) s)) ->
  Permutation l (concat (map (sorting_places sd2) (seq 0 T))).
Proof.
  intros HT Hpl.
  transitivity (concat (map (chunk l (team_starts (length l) T)) (seq 0 T)));
    [rewrite chunks_tile by (apply compute_starts_tile; exact HT); reflexivity|].
  apply perm_concat_map; intros s Hs; apply in_seq in Hs.
  rewrite Hpl by lia; apply sort_with_perm.
Qed.

Lemma sorted_chunks_stable (l : list A) (T : nat) (sd2 : PMWMSSortingData A) (x : A) :
  1 <= T ->
  (forall s, s < T ->
     sorting_places sd2 s = sort_with true (chunk l (team_starts (length l) T) s)) ->
  filter (equiv x) (concat (map (sorting_places sd2) (seq 0 T))) = filter (equiv x) l.
Proof.
  intros HT Hpl.
  transitivity (filter (equiv x)
                  (concat (map (chunk l (team_starts (length l) T)) (seq 0 T))));
    [|rewrite chunks_tile by (apply compute_starts_tile; exact HT); reflexivity].
  rewrite !filter_concat, !map_map; f_equal.
  apply map_seq_ext; intros s Hs.
  rewrite Hpl by exact Hs; simpl; apply (stable_order _ std_stable_sort_ok).
Qed.

Lemma team_inhabited (Stable : bool) (l : list A) (T_req : nat) (sd : PMWMSSortingData A) :
  parallel_mergesort_team Stable l T_req = Some sd -> exists d : A, In d l.
Proof.
  destruct l as [|d l]; [|intros _; exists d; left; reflexivity].
  unfold parallel_mergesort_team, clamp_threads, sorting_data_sizes; simpl.
  destruct T_req; simpl; discriminate.
Qed.

Lemma team_run (Stable : bool) (l : list A) (T_req : nat) (sd3 : PMWMSSortingData A) :
  parallel_mergesort_team Stable l T_req = Some sd3 ->
  StronglySorted cle (source sd3)
  /\ Permutation l (source sd3)
  /\ (Stable = true -> forall x, filter (equiv x) (source sd3) = filter (equiv x) l).
Proof.
  intros H; destruct (team_inhabited _ _ _ _ H) as [d _].
  rewrite team_unfold in H; apply obind_some in H; destruct H as (sd2 & H2 & H3).
  set (T := clamp_threads (length l) T_req) in *.
  destruct (after_split_sampling_facts d Stable l T_req sd2 H2)
    as (HT & _ & Es & Est & Hpl & Hpc & Hsl & Hss & Hps & Hpt); fold T in HT, Hpl, Hpc, Hsl, Hps, Hpt.
  destruct (merge_phase_result d Stable T sd2 HT Hpc Hsl Hss Hps Hpt)
    as (sd3' & H3' & _ & _ & _ & _ & Esrc).
  rewrite H3 in H3'; inversion H3'; subst sd3'; clear H3'.
  rewrite Esrc; split; [|split].
  - apply segments_sorted; assumption.
  - rewrite (sorted_chunks_perm Stable l T sd2 HT Hpl).
    apply segments_perm; assumption.
  - intros HS x; rewrite segments_stable by assumption.
    subst Stable; apply sorted_chunks_stable; assumption.
Qed.

Lemma parallel_mergesort_cases (Stable : bool) (l : list A) (T_req : nat) (out : Outcome A) :
  parallel_mergesort Stable l T_req = Some out ->
  (length l <= 1 /\ out = mkOutcome l [])
  \/ (2 <= length l
      /\ exists sd, parallel_mergesort_team Stable l T_req = Some sd
                    /\ sequence out = source sd).
Proof.
  unfold parallel_mergesort.
  destruct (Nat.leb_spec (length l) 1) as [Hn|Hn]; intros H.
  - left; inversion H; auto.
  - right; split; [lia|].
    apply obind_some in H; destruct H as (sd & Hsd & H).
    inversion H; subst out; exists sd; auto.
Qed.

Lemma short_sorted (l : list A) : length l <= 1 -> StronglySorted cle l.
Proof.
  destruct l as [|a [|b l]]; simpl; intros H; [constructor | | lia].
  constructor; constructor.
Qed.

Lemma parallel_mergesort_returns_iff (Stable : bool) (l : list A) (T_req : nat) :
  helper_as_specified ->
  ((exists out, parallel_mergesort Stable l T_req = Some out)
   <-> reads_in_bounds (length l) T_req).
Proof.
  intros Hh.
  unfold reads_in_bounds; set (T := clamp_threads (length l) T_req); split.
  - intros [out H]; apply parallel_mergesort_cases in H.
    destruct H as [[Hn _]|(Hn & sd & H & _)]; [left; exact Hn|right].
    destruct (team_inhabited _ _ _ _ H) as [d _].
    pose proof H as H'.
    rewrite team_unfold in H; apply obind_some in H; destruct H as (sd2 & H2 & _).
    destruct (after_split_sampling_facts d Stable l T_req sd2 H2) as (HT & HV & _).
    fold T in HT, HV.
    assert (HTr : 1 <= T_req) by (unfold T in HT; rewrite clamp_threads_min in HT; lia).
    assert (Hne : sort_mwms_oversampling * T <> 0) by lia.
    destruct (product_positive _ _ Hne) as (HV1 & _ & _).
    repeat split; auto.
    destruct (Nat.le_gt_cases (sort_mwms_oversampling * T) (length l / T)) as [Hle|Hgt];
      [exact Hle|].
    rewrite (team_undefined Stable l T_req Hh HT Hgt) in H'; discriminate.
  - intros [Hn|(HTr & HV & Hlen)]; unfold parallel_mergesort.
    + destruct (Nat.leb_spec (length l) 1); [|lia]; eexists; reflexivity.
    + destruct (Nat.leb_spec (length l) 1); [eexists; reflexivity|].
      assert (HT : 1 <= T) by (unfold T; rewrite clamp_threads_min; lia).
      destruct (team_defined Stable l T_req Hh ltac:(fold T; nia) Hlen) as [sd3 H3].
      rewrite H3; simpl; eexists; reflexivity.
Qed.

Lemma parallel_mergesort_returns_inside (Stable : bool) (l : list A) (T_req : nat) :
  helper_keeps_inside ->
  length l <= 1 \/ (1 <= T_req /\ 1 <= sort_mwms_oversampling) ->
  exists out, parallel_mergesort Stable l T_req = Some out.
Proof.
  intros Hk Hcall; unfold parallel_mergesort.
  destruct (Nat.leb_spec (length l) 1) as [Hn|Hn]; [eexists; reflexivity|].
  destruct Hcall as [?|[HTr HV]]; [lia|].
  assert (HT : 1 <= clamp_threads (length l) T_req) by (rewrite clamp_threads_min; lia).
  destruct (team_defined_inside Stable l T_req Hk ltac:(nia)) as [sd3 H3].
  rewrite H3; simpl; eexists; reflexivity.
Qed.

(** ** The claims *)

(** C1.  Whenever [parallel_mergesort] returns, the sequence it leaves is
    non-decreasing under the comparator (no element is ordered before an
    earlier one) and is a permutation of the input, for either value of the
    stability flag, every requested thread count and whatever offsets the
    range-division helper hands out.  It returns on every call with at least
    one requested thread when the helper keeps the inner offsets below the
    chunk length; with the helper as the specification describes it, it
    returns exactly on the calls whose chunks hold at least
    [oversampling * T] elements. *)
Theorem parallel_mergesort_sorts (Stable : bool) (l : list A) (T_req : nat) :
  (forall out,
     parallel_mergesort Stable l T_req = Some out ->
     StronglySorted cle (sequence out) /\ Permutation l (sequence out))
  /\ (helper_keeps_inside ->
      length l <= 1 \/ (1 <= T_req /\ 1 <= sort_mwms_oversampling) ->
      exists out, parallel_mergesort Stable l T_req = Some out)
  /\ (helper_as_specified ->
      ((exists out, parallel_mergesort Stable l T_req = Some out)
       <-> reads_in_bounds (length l) T_req)).
Proof.
  split; [|split;
           [apply parallel_mergesort_returns_inside
           |apply parallel_mergesort_returns_iff]].
  intros out H; apply parallel_mergesort_cases in H.
  destruct H as [[Hn ->]|(_ & sd & H & ->)]; simpl.
  - split; [apply short_sorted; exact Hn | apply Permutation_refl].
  - destruct (team_run Stable l T_req sd H) as (Hs & Hp & _); auto.
Qed.

(** C2.  After the splitting phase, in the sampling mode and in the exact
    mode alike, for every chunk [s]: the piece of PU 0 begins at 0, the
    piece of the last PU ends at the chunk length
    [starts[s+1] - starts[s]], and the piece of PU [i] ends where the piece
    of PU [i+1] begins. *)
Theorem pieces_tile_chunks (mode : MultiwayMergeSplittingAlgorithm) (Stable : bool)
    (l : list A) (T_req : nat) (sd : PMWMSSortingData A) :
  let T := clamp_threads (length l) T_req in
  after_split mode Stable l T_req = Some sd ->
  forall s, s < T ->
    piece_begin (piece sd 0 s) = 0
    /\ piece_end (piece sd (T - 1) s) = length_local sd s
    /\ forall i, i + 1 < T ->
         piece_end (piece sd i s) = piece_begin (piece sd (i + 1) s).
Proof.
  intros T H; apply (split_tiles mode Stable l T_req sd H).
Qed.

(** C3.  With the pieces the call computes, every PU [i] merges exactly
    [length_am = sum (end - begin)] elements, its offset is
    [sum begin], the offsets start at 0, each segment ends where the next
    begins, the last ends at [n], and the sequence the merge phase leaves is
    the segments in PU order. *)
Theorem output_segments_partition (Stable : bool) (l : list A) (T_req : nat)
    (sd : PMWMSSortingData A) :
  let T := clamp_threads (length l) T_req in
  after_split mwmsa Stable l T_req = Some sd ->
  (forall i, i < T ->
     exists seg, pu_merged Stable sd T i = Some seg
                 /\ pu_length_am sd T i = Z.of_nat (length seg))
  /\ (forall i, i < T ->
        pu_offset sd T i
        = sum_nat (map (fun s => piece_begin (piece sd i s)) (seq 0 T)))
  /\ pu_offset sd T 0 = 0
  /\ (forall i, i + 1 < T ->
        (Z.of_nat (pu_offset sd T i) + pu_length_am sd T i
         = Z.of_nat (pu_offset sd T (i + 1)))%Z)
  /\ (Z.of_nat (pu_offset sd T (T - 1)) + pu_length_am sd T (T - 1)
      = Z.of_nat (length l))%Z
  /\ exists sd3,
       merge_phase Stable T sd = Some sd3
       /\ source sd3
          = concat (map (fun i => oget [] (pu_merged Stable sd T i)) (seq 0 T)).
Proof.
  intros T H.
  destruct (after_split_inhabited _ _ _ _ _ H) as [d _].
  destruct (after_split_sampling_facts d Stable l T_req sd H)
    as (HT & _ & Es & Est & Hpl & Hpc & Hsl & Hss & Hps & Hpt).
  fold T in HT, Est, Hpl, Hpc, Hsl, Hps, Hpt.
  destruct (split_tiles mwmsa Stable l T_req sd H) as (_ & _ & _ & Htile); fold T in Htile.
  assert (Hst : starts_tile (starts sd) T (length (source sd))).
  { rewrite Est, Es; apply compute_starts_tile; exact HT. }
  destruct (offsets_chain sd T HT Hst Htile) as (H0 & Hchain & Hlast).
  rewrite Es in Hlast.
  assert (Hseg : forall i, i < T ->
            pu_merged Stable sd T i = Some (segment d Stable sd T i))
    by (intros i Hi; apply pu_merged_cut; assumption).
  split; [|split; [|split; [|split; [|split]]]]; auto.
  - intros i Hi; exists (segment d Stable sd T i); split; [apply Hseg; exact Hi|].
    rewrite (pu_length_am_cut d T sd) by assumption.
    f_equal; apply Permutation_length, segment_perm; assumption.
  - destruct (merge_phase_result d Stable T sd HT Hpc Hsl Hss Hps Hpt)
      as (sd3 & H3 & _ & _ & _ & _ & Esrc).
    exists sd3; split; [exact H3|].
    rewrite Esrc; f_equal; apply map_seq_ext; intros i Hi.
    rewrite (Hseg i Hi); reflexivity.
Qed.

(** C4.  With the stability flag set, elements that compare equal keep
    their input order: for every [x], the elements equivalent to [x] appear
    in the output in the order in which they appear in the input. *)
Theorem parallel_mergesort_stable (l : list A) (T_req : nat) (out : Outcome A) :
  parallel_mergesort true l T_req = Some out ->
  forall x, filter (equiv x) (sequence out) = filter (equiv x) l.
Proof.
  intros H x; apply parallel_mergesort_cases in H.
  destruct H as [[_ ->]|(_ & sd & H & ->)]; [reflexivity|].
  destruct (team_run true l T_req sd H) as (_ & _ & Hst); auto.
Qed.

(** C5, amended.  For every [n >= 2] and every requested thread count
    [T_req >= 1], the team size is [T = min T_req n], and the boundaries
    computed from [chunk = n / T] and [rem = n % T] give the first [rem] PUs
    [chunk + 1] elements and the others [chunk]; [starts] has [T + 1]
    entries, begins at 0, ends at [n] and never decreases. *)
Theorem range_partition (l : list A) (T_req : nat) :
  let n := length l in
  let T := clamp_threads n T_req in
  2 <= n -> 1 <= T_req ->
  T = Nat.min T_req n /\ 1 <= T /\ T <= n
  /\ exists sd,
       setup l T = Some sd
       /\ length (starts sd) = T + 1
       /\ nth 0 (starts sd) 0 = 0
       /\ nth T (starts sd) 0 = n
       /\ (forall i, i < T ->
             nth (i + 1) (starts sd) 0
             = nth i (starts sd) 0 + (if i <? n mod T then n / T + 1 else n / T))
       /\ (forall i, i < T -> nth i (starts sd) 0 <= nth (i + 1) (starts sd) 0).
Proof.
  intros n T Hn HT.
  assert (E : T = Nat.min T_req n) by apply clamp_threads_min.
  assert (HT1 : 1 <= T) by lia.
  split; [exact E|]; split; [exact HT1|]; split; [lia|].
  destruct (compute_starts_tile (length l) T HT1) as [Ecs (H0 & Hl & Hm)].
  unfold setup; rewrite Ecs; simpl.
  eexists; split; [reflexivity|]; simpl.
  split; [rewrite starts_loop_length; lia|].
  repeat split; auto.
  intros i Hi; apply starts_step; exact Hi.
Qed.

(** C8.  On a sequence of length 0 or 1 the call returns at once: the
    sequence is unchanged and nothing is allocated and no team is started. *)
Theorem short_input_untouched (Stable : bool) (l : list A) (T_req : nat) :
  length l <= 1 ->
  parallel_mergesort Stable l T_req = Some (mkOutcome l []).
Proof.
  intros Hn; unfold parallel_mergesort.
  destruct (Nat.leb_spec (length l) 1); [reflexivity | lia].
Qed.


(** C10, amended.  In the copy-to-temporary configuration the private
    buffer of a PU has room for its chunk length plus one cell (the
    sentinel slot); the PU copies its sub-range into the leading cells and
    sorts those in place. *)
Theorem private_buffer (Stable : bool) (sd : PMWMSSortingData A) (T iam : nat) :
  starts_tile (starts sd) T (length (source sd)) -> iam < T ->
  exists buf,
    allocate_and_copy sd iam = Some buf
    /\ capacity buf = length_local sd iam + 1
    /\ cells buf = chunk (source sd) (starts sd) iam
    /\ length (cells buf) = length_local sd iam
    /\ sort_locally Stable buf
       = mkTemp (length_local sd iam + 1)
                (if Stable then std_stable_sort (chunk (source sd) (starts sd) iam)
                 else std_sort (chunk (source sd) (starts sd) iam)).
Proof.
  intros Hst Hi; rewrite (allocate_and_copy_chunk sd T iam Hst Hi).
  eexists; split; [reflexivity|]; simpl; repeat split.
  destruct sd as [src st tmp smp pcs mp]; simpl in *.
  apply (length_local_chunk src st tmp smp pcs mp T iam Hst Hi).
Qed.

(** ** What the result of a call is *)

Lemma equiv_refl (a : A) : equiv a a = true.
Proof. unfold equiv; rewrite (swo_irrefl comp_swo); reflexivity. Qed.

Lemma equiv_sym (a b : A) : equiv a b = equiv b a.
Proof. unfold equiv; apply andb_comm. Qed.

Lemma cle_both_equiv (a b : A) : cle a b -> cle b a -> equiv a b = true.
Proof. unfold cle, equiv; intros -> ->; reflexivity. Qed.

Lemma filter_head_in (X : Type) (p : X -> bool) (l r : list X) (z : X) :
  filter p l = z :: r -> In z l.
Proof.
  intros E; assert (H : In z (filter p l)) by (rewrite E; left; reflexivity).
  apply filter_In in H; tauto.
Qed.

(** A non-decreasing sequence is determined by the order of the elements
    inside each class of equivalent elements. *)
Lemma stable_order_unique (l1 : list A) :
  forall l2 : list A,
    StronglySorted cle l1 -> StronglySorted cle l2 ->
    (forall x, filter (equiv x) l1 = filter (equiv x) l2) -> l1 = l2.
Proof.
  induction l1 as [|a l1 IH]; intros [|b l2] H1 H2 Hf; [reflexivity| | |].
  - specialize (Hf b); simpl in Hf; rewrite equiv_refl in Hf; discriminate.
  - specialize (Hf a); simpl in Hf; rewrite equiv_refl in Hf; discriminate.
  - inversion H1 as [|? ? S1 F1]; subst; inversion H2 as [|? ? S2 F2]; subst.
    destruct (equiv a b) eqn:Eab.
    + pose proof (Hf a) as Ha; simpl in Ha; rewrite equiv_refl, Eab in Ha.
      injection Ha as <- _.
      f_equal; apply IH; auto.
      intros x; specialize (Hf x); simpl in Hf.
      destruct (equiv x a); [injection Hf as Hf|]; exact Hf.
    + exfalso.
      pose proof (Hf a) as Ha; simpl in Ha; rewrite equiv_refl, Eab in Ha.
      symmetry in Ha; apply filter_head_in in Ha.
      pose proof (Hf b) as Hb; simpl in Hb.
      rewrite equiv_refl, (equiv_sym b a), Eab in Hb.
      apply filter_head_in in Hb.
      rewrite Forall_forall in F1, F2.
      rewrite (cle_both_equiv a b (F1 b Hb) (F2 a Ha)) in Eab; discriminate.
Qed.

(** Where no two distinct elements are equivalent, a non-decreasing
    arrangement is unique. *)
Lemma sorted_perm_unique (l1 : list A) :
  forall l2 : list A,
    StronglySorted cle l1 -> StronglySorted cle l2 -> Permutation l1 l2 ->
    (forall a b, In a l1 -> In b l1 -> equiv a b = true -> a = b) -> l1 = l2.
Proof.
  induction l1 as [|a l1 IH]; intros [|b l2] H1 H2 HP Hd; [reflexivity| | |].
  - apply Permutation_nil in HP; discriminate.
  - apply Permutation_sym, Permutation_nil in HP; discriminate.
  - inversion H1 as [|? ? S1 F1]; subst; inversion H2 as [|? ? S2 F2]; subst.
    rewrite Forall_forall in F1, F2.
    assert (Hb : In b (a :: l1))
      by (eapply Permutation_in; [apply Permutation_sym, HP | left; reflexivity]).
    assert (Ha : In a (b :: l2))
      by (eapply Permutation_in; [apply HP | left; reflexivity]).
    assert (Cab : cle a b) by (destruct Hb as [<-|Hb]; [apply cle_refl | auto]).
    assert (Cba : cle b a) by (destruct Ha as [<-|Ha]; [apply cle_refl | auto]).
    assert (E : a = b)
      by (apply Hd; [left; reflexivity | exact Hb | apply cle_both_equiv; assumption]).
    subst b; f_equal; apply IH; auto.
    + eapply Permutation_cons_inv; exact HP.
    + intros x y Hx Hy; apply Hd; right; assumption.
Qed.

Lemma parallel_mergesort_outcome (Stable : bool) (l : list A) (T_req : nat)
    (out : Outcome A) :
  parallel_mergesort Stable l T_req = Some out ->
  StronglySorted cle (sequence out)
  /\ Permutation l (sequence out)
  /\ (Stable = true -> forall x, filter (equiv x) (sequence out) = filter (equiv x) l).
Proof.
  intros H; apply parallel_mergesort_cases in H.
  destruct H as [[Hn ->]|(_ & sd & H & ->)]; simpl.
  - split; [apply short_sorted; exact Hn|]; split; [apply Permutation_refl | reflexivity].
  - apply (team_run Stable l T_req sd H).
Qed.

(** ** Properties of the call beyond the claims *)

(** X1.  With the stability flag set, the sequence the call leaves is the
    one [std::stable_sort] produces on the whole input: the parallel sort
    and the sequential stable sort are the same function wherever the call
    returns. *)
Theorem stable_result_is_stable_sort (l : list A) (T_req : nat) (out : Outcome A) :
  parallel_mergesort true l T_req = Some out ->
  sequence out = std_stable_sort l.
Proof.
  intros H; destruct (parallel_mergesort_outcome true l T_req out H) as (Hs & _ & Hf).
  apply stable_order_unique; [exact Hs | |].
  - apply nondecreasing_strong, (sort_sorted _ (stable_is_sort _ std_stable_sort_ok)).
  - intros x; rewrite (Hf eq_refl), (stable_order _ std_stable_sort_ok); reflexivity.
Qed.

(** X2.  With the stability flag set, a sequence that is already
    non-decreasing is left exactly as it was, equivalent elements included. *)
Theorem sorted_input_unchanged (l : list A) (T_req : nat) (out : Outcome A) :
  StronglySorted cle l ->
  parallel_mergesort true l T_req = Some out ->
  sequence out = l.
Proof.
  intros Hl H; destruct (parallel_mergesort_outcome true l T_req out H) as (Hs & _ & Hf).
  apply stable_order_unique; auto.
Qed.

(** X3.  With the stability flag set, the result does not depend on the
    number of threads: two calls on the same input with different requested
    thread counts leave the same sequence. *)
Theorem stable_result_independent_of_threads (l : list A) (T_req T_req' : nat)
    (out out' : Outcome A) :
  parallel_mergesort true l T_req = Some out ->
  parallel_mergesort true l T_req' = Some out' ->
  sequence out = sequence out'.
Proof.
  intros H H'.
  destruct (parallel_mergesort_outcome true l T_req out H) as (Hs & _ & Hf).
  destruct (parallel_mergesort_outcome true l T_req' out' H') as (Hs' & _ & Hf').
  apply stable_order_unique; auto.
  intros x; rewrite (Hf eq_refl), (Hf' eq_refl); reflexivity.
Qed.

(** X4.  When no two distinct elements of the input are equivalent under
    the comparator, the stability flag makes no difference: either way the
    call leaves the sequence [std::sort] produces on the whole input, which
    is also the one [std::stable_sort] produces. *)
Theorem distinct_keys_unique_result (Stable : bool) (l : list A) (T_req : nat)
    (out : Outcome A) :
  (forall a b, In a l -> In b l -> equiv a b = true -> a = b) ->
  parallel_mergesort Stable l T_req = Some out ->
  sequence out = std_sort l /\ sequence out = std_stable_sort l.
Proof.
  intros Hd H.
  destruct (parallel_mergesort_outcome Stable l T_req out H) as (Hs & Hp & _).
  assert (Hd' : forall a b, In a (sequence out) -> In b (sequence out) ->
                            equiv a b = true -> a = b).
  { intros a b Ha Hb; apply Hd; eapply Permutation_in;
      try (apply Permutation_sym; exact Hp); assumption. }
  split; apply sorted_perm_unique; auto.
  - apply nondecreasing_strong, (sort_sorted _ std_sort_ok).
  - rewrite <- Hp; apply (sort_perm _ std_sort_ok).
  - apply nondecreasing_strong, (sort_sorted _ (stable_is_sort _ std_stable_sort_ok)).
  - rewrite <- Hp; apply (sort_perm _ (stable_is_sort _ std_stable_sort_ok)).
Qed.

(** *** The range division and the local sort *)

Lemma setup_unfold (l : list A) (T : nat) (sd : PMWMSSortingData A) :
  setup l T = Some sd ->
  1 <= T
  /\ sd = mkSD l (team_starts (length l) T) [] [] (repeat (repeat no_piece T) T) []
  /\ starts_tile (starts sd) T (length (source sd)).
Proof.
  unfold setup, compute_starts; destruct (Nat.eqb_spec T 0) as [?|HT]; [discriminate|].
  simpl; intros H; inversion H; subst sd; simpl.
  split; [lia|]; split; [reflexivity|].
  apply compute_starts_tile; lia.
Qed.

(** X5.  At least one element per thread: after the clamp every PU of the
    team owns a non-empty chunk, and no chunk is more than one element
    longer than another. *)
Theorem every_pu_owns_an_element (l : list A) (T_req : nat) (sd : PMWMSSortingData A) :
  let T := clamp_threads (length l) T_req in
  setup l T = Some sd ->
  forall iam, iam < T ->
    1 <= length_local sd iam
    /\ forall jam, jam < T -> length_local sd iam <= length_local sd jam + 1.
Proof.
  intros T H; destruct (setup_unfold l T sd H) as (HT & -> & _).
  assert (HTn : T <= length l) by (unfold T; rewrite clamp_threads_min; lia).
  assert (Hq : 1 <= length l / T) by (apply Nat.div_le_lower_bound; lia).
  assert (Hlen : forall k, k < T ->
            length_local (mkSD l (team_starts (length l) T) [] []
                               (repeat (repeat no_piece T) T) []) k
            = if k <? length l mod T then length l / T + 1 else length l / T).
  { intros k Hk; unfold length_local, team_starts; simpl.
    rewrite starts_step by exact Hk; lia. }
  intros iam Hi; rewrite (Hlen iam Hi); split.
  - destruct (iam <? length l mod T); lia.
  - intros jam Hj; rewrite (Hlen jam Hj).
    destruct (iam <? length l mod T), (jam <? length l mod T); lia.
Qed.

Lemma sum_nat_succ (f : nat -> nat) (l : list nat) :
  sum_nat (map (fun i => f i + 1) l) = sum_nat (map f l) + length l.
Proof.
  induction l as [|x l IH]; simpl; [reflexivity|].
  rewrite !sum_nat_cons, IH; lia.
Qed.

(** X6.  The local sort never leaves the caller's sequence: every PU copies
    its chunk into a private buffer and sorts the copy.  After the phase the
    caller's sequence is still the input, there is one buffer per PU, the
    buffer of PU [iam] holds a non-decreasing permutation of chunk [iam],
    and the buffers together take [n + T] cells. *)
Theorem local_sort_works_on_copies (Stable : bool) (l : list A) (T_req : nat)
    (sd : PMWMSSortingData A) :
  let T := clamp_threads (length l) T_req in
  setup l T = Some sd ->
  exists sd1,
    local_sort_phase Stable T sd = Some sd1
    /\ source sd1 = l
    /\ length (temporary sd1) = T
    /\ (forall iam, iam < T ->
          StronglySorted cle (sorting_places sd1 iam)
          /\ Permutation (chunk l (starts sd) iam) (sorting_places sd1 iam)
          /\ length (sorting_places sd1 iam) = length_local sd iam)
    /\ Permutation l (concat (map (sorting_places sd1) (seq 0 T)))
    /\ sum_nat (map (@capacity A) (temporary sd1)) = length l + T.
Proof.
  intros T H; destruct (setup_unfold l T sd H) as (HT & E & Hst).
  rewrite (local_sort_phase_result Stable T sd Hst).
  eexists; split; [reflexivity|].
  assert (Hpl : forall iam, iam < T ->
            sorting_places
              (mkSD (source sd) (starts sd)
                 (map (fun iam => mkTemp (length_local sd iam + 1)
                                    (sort_with Stable (chunk (source sd) (starts sd) iam)))
                      (seq 0 T))
                 (samples sd) (pieces sd) (merging_places sd)) iam
            = sort_with Stable (chunk l (starts sd) iam)).
  { intros iam Hi; unfold sorting_places; simpl.
    rewrite nth_map_seq by exact Hi; simpl; rewrite E; reflexivity. }
  assert (Es : source sd = l) by (rewrite E; reflexivity).
  simpl; split; [exact Es|]; split; [rewrite length_map, length_seq; reflexivity|].
  split; [|split].
  - intros iam Hi; rewrite (Hpl iam Hi); split; [apply sort_with_sorted|].
    split; [apply sort_with_perm|].
    rewrite sort_with_length; destruct sd as [src st tmp smp pcs mp]; simpl in *.
    subst src; apply (length_local_chunk l st tmp smp pcs mp T iam Hst Hi).
  - transitivity (concat (map (chunk l (starts sd)) (seq 0 T))).
    + rewrite chunks_tile; [reflexivity | rewrite <- Es; exact Hst].
    + apply perm_concat_map; intros s Hs; apply in_seq in Hs.
      rewrite Hpl by lia; apply sort_with_perm.
  - rewrite map_map; simpl.
    rewrite (sum_nat_succ (length_local sd) (seq 0 T)), length_seq.
    rewrite (sum_length_local sd T Hst), Es; reflexivity.
Qed.

(** *** The samples and the pieces *)

Lemma omap_in (X Y : Type) (f : X -> option Y) (l : list X) (r : list Y) (y : Y) :
  omap f l = Some r -> In y r -> exists x, In x l /\ f x = Some y.
Proof.
  revert r; induction l as [|x l IH]; simpl; intros r H Hy.
  - inversion H; subst; destruct Hy.
  - apply obind_some in H; destruct H as (z & Hz & H).
    apply obind_some in H; destruct H as (zs & Hzs & H).
    inversion H; subst; clear H.
    destruct Hy as [<-|Hy]; [exists x; auto|].
    destruct (IH _ Hzs Hy) as (x' & Hx' & Hf); exists x'; auto.
Qed.

Lemma determine_samples_in (sd : PMWMSSortingData A) (T iam : nat) (smp : list A) (v : A) :
  determine_samples sd T iam = Some smp -> In v smp -> In v (source sd).
Proof.
  unfold determine_samples; intros H Hv.
  apply obind_some in H; destruct H as (es & _ & H).
  destruct (omap_in _ _ _ _ _ v H Hv) as (i & _ & Hi).
  eapply nth_error_In; exact Hi.
Qed.

Lemma after_split_sampling_drawn (Stable : bool) (l : list A) (T_req : nat)
    (sd : PMWMSSortingData A) :
  let T := clamp_threads (length l) T_req in
  after_split MWMSA_SAMPLING Stable l T_req = Some sd ->
  exists drawn,
    omap (determine_samples (after_local_sort Stable l T) T) (seq 0 T) = Some drawn
    /\ samples sd = std_sort (concat drawn).
Proof.
  intros T H; rewrite after_split_unfold in H; fold T in H.
  destruct (sort_mwms_oversampling * T =? 0); [discriminate|].
  simpl in H; unfold split_sampling in H.
  apply obind_some in H; destruct H as (drawn & Hdr & H).
  apply obind_some in H; destruct H as (rows & _ & H).
  inversion H; subst sd; clear H; simpl.
  exists drawn; auto.
Qed.

(** X7.  The splitters are elements of the input.  After the sampling
    split the caller's sequence is still the input, the sample vector holds
    [T * (oversampling * T - 1)] values in non-decreasing order, and every
    one of them occurs in the input. *)
Theorem splitters_are_input_elements (Stable : bool) (l : list A) (T_req : nat)
    (sd : PMWMSSortingData A) :
  let T := clamp_threads (length l) T_req in
  after_split MWMSA_SAMPLING Stable l T_req = Some sd ->
  source sd = l
  /\ length (samples sd) = T * num_samples_of T
  /\ StronglySorted cle (samples sd)
  /\ forall v, In v (samples sd) -> In v l.
Proof.
  intros T H.
  destruct (after_split_inhabited _ _ _ _ _ H) as [d _].
  destruct (after_split_sampling_facts d Stable l T_req sd H)
    as (_ & _ & Es & _ & _ & _ & Hsl & Hss & _).
  split; [exact Es|]; split; [exact Hsl|]; split; [apply nondecreasing_strong, Hss|].
  destruct (after_split_sampling_drawn Stable l T_req sd H) as (drawn & Hdr & ->).
  intros v Hv.
  apply (Permutation_in _ (Permutation_sym (sort_perm _ std_sort_ok (concat drawn)))) in Hv.
  apply in_concat in Hv; destruct Hv as (q & Hq & Hv).
  destruct (omap_in _ _ _ _ _ q Hdr Hq) as (iam & _ & Hiam).
  apply (determine_samples_in _ _ _ _ _ Hiam Hv).
Qed.

(** X8.  Every piece is a well-formed range of its sorted chunk, and the
    pieces of PU [i] are the bucket between two splitters: a piece begins no
    later than it ends and ends inside the chunk; none of its elements is
    ordered before the splitter [samples[num_samples * i]] (for [i >= 1]),
    and all of them are ordered before the splitter
    [samples[num_samples * (i + 1)]] (for [i + 1 < T]). *)
Theorem pieces_are_splitter_buckets (Stable : bool) (l : list A) (T_req : nat)
    (sd : PMWMSSortingData A) :
  let T := clamp_threads (length l) T_req in
  after_split MWMSA_SAMPLING Stable l T_req = Some sd ->
  forall i s, i < T -> s < T ->
    piece_begin (piece sd i s) <= piece_end (piece sd i s)
    /\ piece_end (piece sd i s) <= length (sorting_places sd s)
    /\ forall x,
         In x (slice (piece_begin (piece sd i s)) (piece_end (piece sd i s))
                     (sorting_places sd s)) ->
         (forall v, 1 <= i ->
            nth_error (samples sd) (num_samples_of T * i) = Some v -> comp x v = false)
         /\ (forall v, i + 1 < T ->
               nth_error (samples sd) (num_samples_of T * (i + 1)) = Some v ->
               comp x v = true).
Proof.
  intros T H i s Hi Hs.
  destruct (after_split_inhabited _ _ _ _ _ H) as [d _].
  destruct (after_split_sampling_facts d Stable l T_req sd H)
    as (HT & _ & _ & _ & _ & Hpc & Hsl & Hss & Hps & Hpt).
  fold T in HT, Hpc, Hsl, Hps, Hpt.
  rewrite (Hpc i s Hi Hs); simpl.
  split; [apply cut_mono; assumption|]; split; [apply cut_le_length|].
  intros x Hx; split.
  - intros v Hi1 Hv.
    pose proof (piece_above d T sd HT Hsl Hps Hpt i s x Hs Hi1 Hi Hx) as Hc.
    unfold splitter in Hc; rewrite (nth_error_nth _ _ d Hv) in Hc; exact Hc.
  - intros v Hi1 Hv.
    pose proof (piece_below d T sd HT Hsl Hpt i s x Hs Hi1 Hx) as Hc.
    unfold splitter in Hc; rewrite (nth_error_nth _ _ d Hv) in Hc; exact Hc.
Qed.

(** *** When the call completes *)

Lemma team_needs (Stable : bool) (l : list A) (T_req : nat) (sd3 : PMWMSSortingData A) :
  let T := clamp_threads (length l) T_req in
  parallel_mergesort_team Stable l T_req = Some sd3 ->
  1 <= T /\ 1 <= sort_mwms_oversampling
  /\ exists drawn,
       omap (determine_samples (after_local_sort Stable l T) T) (seq 0 T) = Some drawn.
Proof.
  intros T H; rewrite team_unfold in H.
  apply obind_some in H; destruct H as (sd2 & H2 & _).
  pose proof H2 as H2'.
  rewrite after_split_unfold in H2; fold T in H2; unfold mwmsa in H2.
  destruct (Nat.eqb_spec (sort_mwms_oversampling * T) 0) as [E|E]; [discriminate|].
  destruct (product_positive _ _ E) as (HV & HT & _).
  split; [exact HT|]; split; [exact HV|].
  destruct (after_split_sampling_drawn Stable l T_req sd2 H2') as (drawn & Hdr & _).
  exists drawn; exact Hdr.
Qed.

(** X10.  A call on two or more elements completes only if at least one
    thread is requested and the oversampling factor is at least 1: with
    zero threads the shared data cannot be built and [n / num_threads]
    divides by zero, with oversampling 0 the sample count
    [oversampling * num_threads - 1] wraps around. *)
Theorem call_needs_a_thread_and_oversampling (Stable : bool) (l : list A) (T_req : nat)
    (out : Outcome A) :
  2 <= length l ->
  parallel_mergesort Stable l T_req = Some out ->
  1 <= T_req /\ 1 <= sort_mwms_oversampling.
Proof.
  intros Hn H; apply parallel_mergesort_cases in H.
  destruct H as [[Hn' _]|(_ & sd & H & _)]; [lia|].
  destruct (team_needs Stable l T_req sd H) as (HT & HV & _).
  rewrite clamp_threads_min in HT; split; [lia | exact HV].
Qed.

(** X11.  The sample reads of [determine_samples] are the only accesses of
    a call that can leave their object.  On two or more elements, with at
    least one thread and oversampling at least 1, the call completes exactly
    when every PU's [determine_samples] stays inside the caller's sequence:
    the copy into the private buffers, the splitter lookups, the ranges
    handed to the merge and the writes of the merged segments are always in
    bounds. *)
Theorem only_sample_reads_can_fail (Stable : bool) (l : list A) (T_req : nat)
    (sd sd1 : PMWMSSortingData A) :
  let T := clamp_threads (length l) T_req in
  2 <= length l -> 1 <= T_req -> 1 <= sort_mwms_oversampling ->
  setup l T = Some sd ->
  local_sort_phase Stable T sd = Some sd1 ->
  ((exists out, parallel_mergesort Stable l T_req = Some out)
   <-> forall iam, iam < T -> exists smp, determine_samples sd1 T iam = Some smp).
Proof.
  intros T Hn HTr HV Hsd Hsd1.
  destruct (setup_unfold l T sd Hsd) as (HT & E & Hst).
  rewrite (local_sort_phase_result Stable T sd Hst) in Hsd1.
  assert (E1 : sd1 = after_local_sort Stable l T)
    by (inversion Hsd1; rewrite E; reflexivity).
  subst sd1; clear Hsd1; split.
  - intros [out H]; apply parallel_mergesort_cases in H.
    destruct H as [[Hn' _]|(_ & sd3 & H & _)]; [lia|].
    destruct (team_needs Stable l T_req sd3 H) as (_ & _ & drawn & Hdr).
    fold T in Hdr; intros iam Hi.
    destruct (omap_seq_nth _ _ [] _ _ Hdr) as [_ F].
    eexists; apply F; exact Hi.
  - intros Hdef; unfold parallel_mergesort.
    destruct (Nat.leb_spec (length l) 1); [lia|].
    destruct (team_defined_if Stable l T_req ltac:(fold T; nia) Hdef) as [sd3 H3].
    rewrite H3; simpl; eexists; reflexivity.
Qed.

(** *** The sample vector, cell by cell *)

Lemma nth_error_concat_rows (X : Type) (m : nat) (rows : list (list X)) :
  (forall q, In q rows -> length q = m) ->
  forall iam i, iam < length rows -> i < m ->
    nth_error (concat rows) (iam * m + i) = nth_error (nth iam rows []) i.
Proof.
  induction rows as [|q rows IH]; intros Hlen iam i Hiam Hi; simpl in *; [lia|].
  assert (Hq : length q = m) by (apply Hlen; left; reflexivity).
  destruct iam as [|iam]; simpl.
  - rewrite nth_error_app1 by lia; reflexivity.
  - rewrite nth_error_app2 by lia.
    replace (m + iam * m + i - length q) with (iam * m + i) by lia.
    apply IH; [intros; apply Hlen; right; assumption | lia | exact Hi].
Qed.

(** X12.  The PUs fill disjoint cells of the sample vector, all inside the
    vector as [parallel_mergesort] sized it: sample [i] of PU [iam] goes to
    cell [iam * num_samples + i], which lies below
    [T * num_samples]; two different (PU, sample) pairs never share a cell;
    and the vector handed to [std::sort] holds each PU's samples at exactly
    these cells. *)
Theorem sample_cells_disjoint_in_bounds (T : nat) (sd : PMWMSSortingData A)
    (drawn : list (list A)) :
  omap (determine_samples sd T) (seq 0 T) = Some drawn ->
  length (concat drawn) = T * num_samples_of T
  /\ forall iam i, iam < T -> i < num_samples_of T ->
       sample_slot (num_samples_of T) iam i < T * num_samples_of T
       /\ nth_error (concat drawn) (sample_slot (num_samples_of T) iam i)
          = nth_error (oget [] (determine_samples sd T iam)) i
       /\ forall iam' i', iam' < T -> i' < num_samples_of T ->
            sample_slot (num_samples_of T) iam i = sample_slot (num_samples_of T) iam' i' ->
            iam = iam' /\ i = i'.
Proof.
  intros Hdr.
  destruct (omap_seq_nth _ _ [] _ _ Hdr) as [Hlen F].
  split; [rewrite (determine_samples_team_length _ _ _ _ Hdr), length_seq; reflexivity|].
  intros iam i Hiam Hi; unfold sample_slot; split; [nia|]; split.
  - rewrite (F iam Hiam); simpl.
    apply nth_error_concat_rows; [|lia|exact Hi].
    intros q Hq; destruct (omap_in _ _ _ _ _ q Hdr Hq) as (k & _ & Hk).
    apply (determine_samples_length _ _ _ _ Hk).
  - intros iam' i' Hiam' Hi' E.
    assert (iam = iam') by nia; subst iam'; split; [reflexivity | lia].
Qed.

(** *** The exact split *)

(** X9.  In the exact branch, when the rank selection hands PU [iam] offsets
    that sum to the rank it asked for ([starts[iam + 1]]), every PU merges
    exactly as many elements as it sorted and writes them where its own
    chunk lay: the offset of PU [iam] is [starts[iam]] and its length after
    merging is [starts[iam + 1] - starts[iam]]. *)
Theorem exact_split_keeps_chunk_bounds (Stable : bool) (l : list A) (T_req : nat)
    (sd : PMWMSSortingData A) :
  let T := clamp_threads (length l) T_req in
  after_split MWMSA_EXACT Stable l T_req = Some sd ->
  (forall iam, iam + 1 < T ->
     sum_nat (map (fun s =>
                     nth s (multisequence_partition
                              (map (fun s => firstn (length_local sd s) (sorting_places sd s))
                                   (seq 0 T))
                              (nth (iam + 1) (starts sd) 0)) 0)
                  (seq 0 T))
     = nth (iam + 1) (starts sd) 0) ->
  forall iam, iam < T ->
    pu_offset sd T iam = nth iam (starts sd) 0
    /\ pu_length_am sd T iam = Z.of_nat (length_local sd iam).
Proof.
  intros T H Hrank.
  pose proof H as H'.
  rewrite after_split_unfold in H'; fold T in H'.
  destruct (Nat.eqb_spec T 0) as [?|HT0]; [discriminate|].
  assert (HT : 1 <= T) by lia.
  simpl in H'.
  destruct (split_exact_pieces T _ _ H') as (Es & Est & Et & Hp).
  assert (Hst : starts_tile (starts sd) T (length (source sd))).
  { rewrite Est, Es; apply after_local_sort_tile; exact HT. }
  assert (Hends : forall i, i < T ->
            sum_nat (map (fun s => nth s (exact_ends (after_local_sort Stable l T) T i) 0)
                         (seq 0 T))
            = nth (i + 1) (starts sd) 0).
  { intros i Hi.
    destruct (Nat.eq_dec (i + 1) T) as [Elast|Hne].
    - replace i with (T - 1) by lia.
      rewrite (map_seq_ext _ _ (length_local sd)).
      + rewrite (sum_length_local sd T Hst).
        replace (T - 1 + 1) with T by lia.
        destruct Hst as (_ & -> & _); reflexivity.
      + intros s Hs; rewrite exact_ends_last by lia.
        unfold length_local; rewrite Est; reflexivity.
    - rewrite <- (Hrank i ltac:(lia)).
      f_equal; apply map_seq_ext; intros s Hs.
      unfold exact_ends; rewrite nth_map_seq by exact Hs.
      destruct (Nat.ltb_spec i (T - 1)); [|lia].
      unfold length_local, sorting_places; rewrite Est, Et; reflexivity. }
  assert (Hoff : forall i, i < T -> pu_offset sd T i = nth i (starts sd) 0).
  { intros i Hi; unfold pu_offset.
    destruct (Nat.eq_dec i 0) as [->|Hi0].
    - rewrite (map_seq_ext _ _ (fun _ => 0))
        by (intros s Hs; rewrite Hp by lia; reflexivity).
      rewrite sum_nat_zero; destruct Hst as (-> & _); reflexivity.
    - rewrite (map_seq_ext _ _
                 (fun s => nth s (exact_ends (after_local_sort Stable l T) T (i - 1)) 0)).
      + rewrite (Hends (i - 1)) by lia.
        replace (i - 1 + 1) with i by lia; reflexivity.
      + intros s Hs; rewrite Hp by lia; simpl.
        destruct (Nat.ltb_spec 0 i); [reflexivity | lia]. }
  intros iam Hi; split; [apply Hoff; exact Hi|].
  pose proof (sum_Z_diff (fun s => piece_begin (piece sd iam s))
                         (fun s => piece_end (piece sd iam s)) (seq 0 T)) as Hd.
  fold (pu_offset sd T iam) in Hd.
  rewrite (Hoff iam Hi) in Hd.
  rewrite (map_seq_ext _ _
             (fun s => nth s (exact_ends (after_local_sort Stable l T) T iam) 0)) in Hd
    by (intros s Hs; rewrite Hp by lia; reflexivity).
  rewrite (Hends iam Hi) in Hd.
  pose proof (proj2 (proj2 Hst) iam Hi).
  unfold length_local, pu_length_am; lia.
Qed.

(** *** The result without the stability flag *)

Lemma equiv_comp_r (x y v : A) : equiv x y = true -> comp v x = comp v y.
Proof.
  unfold equiv; intros E; apply andb_true_iff in E; destruct E as [E1 E2].
  apply negb_true_iff in E1, E2.
  destruct (comp v x) eqn:Hx, (comp v y) eqn:Hy; try reflexivity.
  - destruct (swo_negtrans comp_swo v y x Hx) as [H|H]; congruence.
  - destruct (swo_negtrans comp_swo v x y Hy) as [H|H]; congruence.
Qed.

Lemma equiv_class (x a b : A) : equiv a b = true -> equiv x a = equiv x b.
Proof.
  intros E; unfold equiv.
  rewrite (equiv_comp_r a b x E), (equiv_comp_l a b x E); reflexivity.
Qed.

Lemma filter_length_perm (p : A -> bool) (l1 l2 : list A) :
  Permutation l1 l2 -> length (filter p l1) = length (filter p l2).
Proof.
  induction 1 as [|x l1 l2 _ IH|x y l|l1 l2 l3 _ IH1 _ IH2]; simpl.
  - reflexivity.
  - destruct (p x); simpl; rewrite IH; reflexivity.
  - destruct (p x), (p y); reflexivity.
  - rewrite IH1; exact IH2.
Qed.

Lemma filter_length_in (p : A -> bool) (l : list A) :
  1 <= length (filter p l) -> exists y, In y l /\ p y = true.
Proof.
  destruct (filter p l) as [|y r] eqn:E; simpl; [lia|intros _].
  assert (H : In y (filter p l)) by (rewrite E; left; reflexivity).
  apply filter_In in H; exists y; exact H.
Qed.

(** Two non-decreasing sequences with equally large classes of equivalent
    elements agree position by position, up to equivalence. *)
Lemma sorted_classes_pointwise (l1 : list A) :
  forall l2 : list A,
    StronglySorted cle l1 -> StronglySorted cle l2 ->
    (forall x, length (filter (equiv x) l1) = length (filter (equiv x) l2)) ->
    Forall2 (fun a b => equiv a b = true) l1 l2.
Proof.
  induction l1 as [|a l1 IH]; intros [|b l2] H1 H2 Hf; [constructor| | |].
  - specialize (Hf b); simpl in Hf; rewrite equiv_refl in Hf; discriminate.
  - specialize (Hf a); simpl in Hf; rewrite equiv_refl in Hf; discriminate.
  - inversion H1 as [|? ? S1 F1]; subst; inversion H2 as [|? ? S2 F2]; subst.
    rewrite Forall_forall in F1, F2.
    assert (Eab : equiv a b = true).
    { destruct (equiv a b) eqn:Eab; [reflexivity|exfalso].
      pose proof (Hf a) as Ha; simpl in Ha; rewrite equiv_refl, Eab in Ha; simpl in Ha.
      destruct (filter_length_in (equiv a) l2 ltac:(lia)) as (y & Hy & Ey).
      pose proof (Hf b) as Hb; simpl in Hb.
      rewrite equiv_refl, (equiv_sym b a), Eab in Hb; simpl in Hb.
      destruct (filter_length_in (equiv b) l1 ltac:(lia)) as (z & Hz & Ez).
      pose proof (F2 y Hy) as C1; unfold cle in C1.
      rewrite <- (equiv_comp_l a y b Ey) in C1.
      pose proof (F1 z Hz) as C2; unfold cle in C2.
      rewrite <- (equiv_comp_l b z a Ez) in C2.
      unfold equiv in Eab; rewrite C1, C2 in Eab; discriminate. }
    constructor; [exact Eab|].
    apply IH; auto.
    intros x; specialize (Hf x); simpl in Hf.
    rewrite (equiv_class x a b Eab) in Hf.
    destruct (equiv x b); simpl in Hf; lia.
Qed.

(** X13.  With or without the stability flag, the sequence the call leaves
    agrees with the one [std::sort] produces on the whole input position by
    position, up to equivalence under the comparator: the two have the same
    length and the elements at every position are equivalent. *)
Theorem result_agrees_with_std_sort (Stable : bool) (l : list A) (T_req : nat)
    (out : Outcome A) :
  parallel_mergesort Stable l T_req = Some out ->
  Forall2 (fun a b => equiv a b = true) (sequence out) (std_sort l).
Proof.
  intros H.
  destruct (parallel_mergesort_outcome Stable l T_req out H) as (Hs & Hp & _).
  apply sorted_classes_pointwise; [exact Hs | |].
  - apply nondecreasing_strong, (sort_sorted _ std_sort_ok).
  - intros x; apply filter_length_perm.
    rewrite <- Hp; apply (sort_perm _ std_sort_ok).
Qed.

(** ** The in-place configuration *)

Lemma omap_ext_in (X Y : Type) (f g : X -> option Y) (l : list X) :
  (forall x, In x l -> f x = g x) -> omap f l = omap g l.
Proof.
  induction l as [|x l IH]; simpl; intros H; [reflexivity|].
  rewrite (H x (or_introl eq_refl)), IH by (intros; apply H; right; assumption).
  reflexivity.
Qed.

Lemma concat_seq_length (X : Type) (f : nat -> list X) (c : nat -> nat) (k : nat) :
  c 0 = 0 ->
  (forall i, i < k -> c i <= c (i + 1)) ->
  (forall i, i < k -> length (f i) = c (i + 1) - c i) ->
  length (concat (map f (seq 0 k))) = c k.
Proof.
  intros H0; induction k as [|k IH]; intros Hm Hl; [simpl; lia|].
  rewrite seq_S, map_app, concat_app, length_app; simpl.
  rewrite app_nil_r, IH, Hl by (intros; auto).
  specialize (Hm k ltac:(lia)); rewrite Nat.add_1_r in *; lia.
Qed.

Lemma concat_seq_skipn (X : Type) (f : nat -> list X) (c : nat -> nat) (T s : nat) :
  c 0 = 0 ->
  (forall i, i < T -> c i <= c (i + 1)) ->
  (forall i, i < T -> length (f i) = c (i + 1) - c i) ->
  s < T ->
  skipn (c s) (concat (map f (seq 0 T)))
  = f s ++ concat (map f (seq (S s) (T - S s))).
Proof.
  intros H0 Hm Hl Hs.
  replace T with (s + S (T - S s)) at 1 by lia.
  rewrite seq_app, map_app, concat_app; simpl.
  assert (E : length (concat (map f (seq 0 s))) = c s).
  { apply concat_seq_length; [exact H0| |]; intros; [apply Hm|apply Hl]; lia. }
  rewrite skipn_app, E, Nat.sub_diag, skipn_all2 by lia; reflexivity.
Qed.

Lemma write_range_after (pre post data : list A) :
  length data <= length post ->
  write_range (pre ++ post) (length pre) data
  = Some ((pre ++ data) ++ skipn (length data) post).
Proof.
  intros Hd; unfold write_range.
  rewrite length_app.
  destruct (Nat.leb_spec (length pre + length data) (length pre + length post)); [|lia].
  rewrite firstn_app, firstn_all, Nat.sub_diag, firstn_O, app_nil_r.
  rewrite skipn_app, skipn_all2 by lia.
  replace (length pre + length data - length pre) with (length data) by lia.
  rewrite <- app_assoc; reflexivity.
Qed.

Lemma sort_in_place_fold (Stable : bool) (l : list A) (st : list nat) (T : nat) :
  starts_tile st T (length l) ->
  forall (m k : nat) (sd : PMWMSSortingData A) (pre : list A),
    k + m <= T -> starts sd = st ->
    source sd = pre ++ skipn (nth k st 0) l -> length pre = nth k st 0 ->
    exists sd',
      ofold (sort_in_place Stable) (seq k m) sd = Some sd'
      /\ starts sd' = st /\ temporary sd' = temporary sd /\ samples sd' = samples sd
      /\ pieces sd' = pieces sd /\ merging_places sd' = merging_places sd
      /\ source sd'
         = pre ++ concat (map (fun s => sort_with Stable (chunk l st s)) (seq k m))
               ++ skipn (nth (k + m) st 0) l.
Proof.
  intros Hst; induction m as [|m IH]; intros k sd pre Hk Est Es Hpre.
  - exists sd; simpl; rewrite Nat.add_0_r; auto 10.
  - simpl.
    pose proof (starts_tile_le st T (length l) k (k + 1) Hst ltac:(lia) ltac:(lia)) as H1.
    pose proof (starts_tile_le st T (length l) (k + 1) T Hst ltac:(lia) ltac:(lia)) as H2.
    assert (HT : nth T st 0 = length l) by apply Hst.
    rewrite HT in H2.
    assert (Hchunk : length (chunk l st k) = nth (k + 1) st 0 - nth k st 0)
      by (apply slice_length; lia).
    assert (Hread : read_range (source sd) (nth k (starts sd) 0) (length_local sd k)
                    = Some (chunk l st k)).
    { unfold read_range, length_local; rewrite Est, Es, length_app, length_skipn, Hpre.
      destruct (Nat.leb_spec (nth k st 0 + (nth (k + 1) st 0 - nth k st 0))
                             (nth k st 0 + (length l - nth k st 0))); [|lia].
      rewrite skipn_app, skipn_all2, Hpre, Nat.sub_diag by lia; reflexivity. }
    unfold sort_in_place at 1; rewrite Hread; simpl.
    fold (sort_with Stable (chunk l st k)).
    rewrite Est, Es, <- Hpre, write_range_after
      by (rewrite sort_with_length, length_skipn, Hchunk; lia).
    simpl.
    match goal with
    | |- exists sd', ofold _ _ ?s = _ /\ _ =>
        destruct (IH (S k) s (pre ++ sort_with Stable (chunk l st k)))
          as (sd' & H' & Est' & Et' & Esm' & Ep' & Em' & Es')
    end; simpl; auto; try lia.
    + rewrite skipn_skipn, sort_with_length, Hchunk, Hpre.
      replace (S k) with (k + 1) by lia.
      do 2 f_equal; lia.
    + rewrite length_app, sort_with_length, Hchunk, Hpre.
      replace (S k) with (k + 1) by lia; lia.
    + exists sd'; rewrite H'; repeat split; auto.
      rewrite Es'; simpl; rewrite <- !app_assoc.
      replace (S (k + m)) with (k + S m) by lia; reflexivity.
Qed.

Lemma local_sort_in_place_result (Stable : bool) (l : list A) (T : nat)
    (sd : PMWMSSortingData A) :
  setup l T = Some sd ->
  local_sort_in_place_phase Stable T sd
  = Some (mkSD (concat (map (fun s => sort_with Stable
                                        (chunk l (team_starts (length l) T) s))
                            (seq 0 T)))
               (team_starts (length l) T) [] [] (repeat (repeat no_piece T) T) []).
Proof.
  intros H; destruct (setup_unfold l T sd H) as (HT & -> & Hst); simpl in Hst.
  destruct (sort_in_place_fold Stable l (team_starts (length l) T) T Hst T 0
              (mkSD l (team_starts (length l) T) [] [] (repeat (repeat no_piece T) T) [])
              [])
    as (sd' & H' & Est & Et & Esm & Ep & Em & Es); simpl; auto.
  - destruct Hst as (-> & _); reflexivity.
  - destruct Hst as (-> & _); reflexivity.
  - unfold local_sort_in_place_phase; rewrite H'; f_equal.
    destruct sd' as [src st tmp smp pcs mp]; simpl in *; subst.
    destruct Hst as (_ & -> & _); rewrite skipn_all, app_nil_r; reflexivity.
Qed.

(** After the in-place local sort, the cells of chunk [s] hold the sorted
    chunk. *)
Lemma sorted_in_place_chunk (Stable : bool) (l : list A) (T s : nat) :
  1 <= T -> s < T ->
  let st := team_starts (length l) T in
  let src := concat (map (fun s => sort_with Stable (chunk l st s)) (seq 0 T)) in
  skipn (nth s st 0) src
  = sort_with Stable (chunk l st s)
    ++ concat (map (fun s => sort_with Stable (chunk l st s)) (seq (S s) (T - S s)))
  /\ length (sort_with Stable (chunk l st s)) = nth (s + 1) st 0 - nth s st 0
  /\ length src = length l.
Proof.
  intros HT Hs st src.
  assert (Hst : starts_tile st T (length l)) by (apply compute_starts_tile; exact HT).
  assert (Hl : forall i, i < T ->
            length (sort_with Stable (chunk l st i)) = nth (i + 1) st 0 - nth i st 0).
  { intros i Hi; rewrite sort_with_length; apply slice_length.
    - apply (starts_tile_le st T (length l) i (i + 1) Hst); lia.
    - pose proof (starts_tile_le st T (length l) (i + 1) T Hst ltac:(lia) ltac:(lia)) as H2.
      destruct Hst as (_ & HTn & _); rewrite HTn in H2; exact H2. }
  split; [|split].
  - apply (concat_seq_skipn A (fun s => sort_with Stable (chunk l st s))
             (fun i => nth i st 0) T s); auto; apply Hst.
  - apply Hl; exact Hs.
  - unfold src.
    rewrite (concat_seq_length A (fun s => sort_with Stable (chunk l st s))
               (fun i => nth i st 0) T); auto; apply Hst.
Qed.

Lemma in_place_chunk (Stable : bool) (l : list A) (T s : nat) (sd : PMWMSSortingData A) :
  1 <= T -> s < T ->
  source sd
  = concat (map (fun s => sort_with Stable (chunk l (team_starts (length l) T) s))
                (seq 0 T)) ->
  starts sd = team_starts (length l) T ->
  length_local sd s = length (sort_with Stable (chunk l (team_starts (length l) T) s))
  /\ length (source sd) = length l
  /\ exists rest,
       sorting_places_in_place sd s
       = sort_with Stable (chunk l (team_starts (length l) T) s) ++ rest.
Proof.
  intros HT Hs Es Est.
  destruct (sorted_in_place_chunk Stable l T s HT Hs) as (Hsk & Hlen & Hsrc).
  unfold length_local, sorting_places_in_place; rewrite Es, Est, Hlen.
  split; [reflexivity|]; split; [exact Hsrc|].
  eexists; exact Hsk.
Qed.

Lemma private_view_place (sd : PMWMSSortingData A) (T s : nat) :
  s < T ->
  sorting_places (private_view sd T) s
  = firstn (length_local sd s) (sorting_places_in_place sd s).
Proof.
  intros Hs; unfold sorting_places, private_view; simpl.
  rewrite nth_map_seq by exact Hs; reflexivity.
Qed.

Lemma private_view_sorted_chunk (Stable : bool) (l : list A) (T s : nat)
    (sd : PMWMSSortingData A) :
  1 <= T -> s < T ->
  source sd
  = concat (map (fun s => sort_with Stable (chunk l (team_starts (length l) T) s))
                (seq 0 T)) ->
  starts sd = team_starts (length l) T ->
  sorting_places (private_view sd T) s
  = sort_with Stable (chunk l (team_starts (length l) T) s).
Proof.
  intros HT Hs Es Est; rewrite private_view_place by exact Hs.
  destruct (in_place_chunk Stable l T s sd HT Hs Es Est) as (-> & _ & rest & ->).
  rewrite firstn_app, firstn_all, Nat.sub_diag, firstn_O, app_nil_r; reflexivity.
Qed.

(** X14.  In the in-place configuration the samples are the ones the
    sorted chunk holds at the split points: after the in-place local sort,
    [determine_samples] of PU [iam] yields exactly the entries of the PU's
    sorted chunk at the offsets [es[i + 1]] (the values the copy
    configuration holds in the PU's private buffer and does not read), and
    it is undefined exactly when one of these offsets leaves the chunk. *)
Theorem in_place_samples_from_sorted_chunk (Stable : bool) (l : list A) (T_req : nat)
    (sd sd1 sd1' : PMWMSSortingData A) :
  let T := clamp_threads (length l) T_req in
  setup l T = Some sd ->
  local_sort_in_place_phase Stable T sd = Some sd1 ->
  local_sort_phase Stable T sd = Some sd1' ->
  forall iam, iam < T ->
    determine_samples_in_place sd1 T iam = determine_samples_sorted_chunk sd1' T iam.
Proof.
  intros T Hsd H1 H1' iam Hi.
  destruct (setup_unfold l T sd Hsd) as (HT & E & Hst).
  rewrite (local_sort_in_place_result Stable l T sd Hsd) in H1.
  rewrite (local_sort_phase_result Stable T sd Hst) in H1'.
  inversion H1; subst sd1; clear H1; inversion H1'; subst sd1'; clear H1'.
  set (sdi := mkSD _ (team_starts (length l) T) [] [] _ []).
  destruct (in_place_chunk Stable l T iam sdi HT Hi eq_refl eq_refl)
    as (Hlen & _ & rest & Hpl).
  unfold determine_samples_in_place, determine_samples_sorted_chunk.
  assert (Ell : length_local sdi iam
                = length_local
                    (mkSD (source sd) (starts sd)
                       (map (fun iam => mkTemp (length_local sd iam + 1)
                               (sort_with Stable (chunk (source sd) (starts sd) iam)))
                            (seq 0 T))
                       (samples sd) (pieces sd) (merging_places sd)) iam)
    by (rewrite E; reflexivity).
  rewrite <- Ell.
  destruct (equally_split (length_local sdi iam) (sort_mwms_oversampling * T))
    as [es|]; [simpl|reflexivity].
  apply omap_ext_in; intros i _.
  unfold sorting_places; simpl; rewrite nth_map_seq by exact Hi; simpl.
  rewrite E; simpl.
  unfold sample_index; simpl.
  rewrite <- nth_error_skipn.
  unfold sorting_places_in_place in Hpl; simpl in Hpl.
  rewrite Hpl, Hlen.
  destruct (Nat.ltb_spec (nth (i + 1) es 0)
              (length (sort_with Stable (chunk l (team_starts (length l) T) iam)))).
  - apply nth_error_app1; assumption.
  - symmetry; apply nth_error_None; assumption.
Qed.

Lemma determine_samples_in_place_length (sd : PMWMSSortingData A) (T iam : nat)
    (smp : list A) :
  determine_samples_in_place sd T iam = Some smp -> length smp = num_samples_of T.
Proof.
  unfold determine_samples_in_place; intros H.
  apply obind_some in H; destruct H as (es & _ & H).
  apply omap_length in H; rewrite length_seq in H; exact H.
Qed.

Lemma determine_samples_in_place_team_length (sd : PMWMSSortingData A) (T : nat)
    (ws : list nat) (drawn : list (list A)) :
  omap (determine_samples_in_place sd T) ws = Some drawn ->
  length (concat drawn) = length ws * num_samples_of T.
Proof.
  revert drawn; induction ws as [|w ws IH]; simpl; intros drawn H.
  - inversion H; reflexivity.
  - apply obind_some in H; destruct H as (y & Hy & H).
    apply obind_some in H; destruct H as (ys & Hys & H).
    inversion H; subst; simpl.
    rewrite length_app, (IH _ Hys), (determine_samples_in_place_length _ _ _ _ Hy).
    reflexivity.
Qed.

Lemma sampling_piece_view (sd : PMWMSSortingData A) (T ns i s : nat) :
  s < T ->
  sampling_piece_in_place sd T ns i s = sampling_piece (private_view sd T) T ns i s.
Proof.
  intros Hs; unfold sampling_piece_in_place, sampling_piece.
  rewrite private_view_place by exact Hs.
  change (length_local (private_view sd T) s) with (length_local sd s).
  rewrite firstn_firstn, Nat.min_id; reflexivity.
Qed.

Lemma split_sampling_in_place_result (d : A) (T : nat) (sd sd' : PMWMSSortingData A) :
  1 <= sort_mwms_oversampling * T ->
  (forall s, s < T -> length (sorting_places (private_view sd T) s) = length_local sd s) ->
  split_sampling_in_place T sd = Some sd' ->
  source sd' = source sd /\ starts sd' = starts sd /\ temporary sd' = temporary sd
  /\ length (samples sd') = T * num_samples_of T
  /\ nondecreasing (samples sd')
  /\ forall i s, i < T -> s < T ->
       piece sd' i s
       = mkPiece (cut d (private_view sd' T) T i s) (cut d (private_view sd' T) T (i + 1) s).
Proof.
  intros HV Hlen H; unfold split_sampling_in_place in H.
  apply obind_some in H; destruct H as (drawn & Hdr & H).
  apply obind_some in H; destruct H as (rows & Hrows & H).
  inversion H; subst sd'; clear H; simpl.
  repeat split; try reflexivity.
  - rewrite <- (Permutation_length (sort_perm _ std_sort_ok (concat drawn))).
    rewrite (determine_samples_in_place_team_length _ _ _ _ Hdr), length_seq; reflexivity.
  - apply std_sort_ok.
  - intros i s Hi Hs.
    destruct (omap_seq_nth _ _ [] _ _ Hrows) as [_ F].
    specialize (F i Hi).
    destruct (omap_seq_nth _ _ no_piece _ _ F) as [_ G].
    specialize (G s Hs).
    rewrite sampling_piece_view in G by exact Hs.
    apply (sampling_piece_cut d) in G; [exact G | exact HV | exact Hi |].
    apply Hlen; exact Hs.
Qed.

Lemma slice_prefix (X : Type) (b e n : nat) (p : list X) :
  e <= n -> slice b e (firstn n p) = slice b e p.
Proof.
  intros He; unfold slice.
  rewrite skipn_firstn_comm, firstn_firstn.
  f_equal; lia.
Qed.

Lemma pieces_frame (sd sd' : PMWMSSortingData A) (T i : nat) :
  pieces sd = pieces sd' ->
  pu_offset sd T i = pu_offset sd' T i /\ pu_length_am sd T i = pu_length_am sd' T i.
Proof.
  unfold pu_offset, pu_length_am, piece; intros ->; split; reflexivity.
Qed.

Section CopyLastMerge.
Variable d : A.
Variable Stable : bool.
Variable T : nat.
Variable sd2 : PMWMSSortingData A.

Hypothesis T_pos : 1 <= T.
Hypothesis pieces_cut : forall i s, i < T -> s < T ->
  piece (private_view sd2 T) i s
  = mkPiece (cut d (private_view sd2 T) T i s) (cut d (private_view sd2 T) T (i + 1) s).
Hypothesis samples_length :
  length (samples (private_view sd2 T)) = T * num_samples_of T.
Hypothesis samples_sorted : nondecreasing (samples (private_view sd2 T)).
Hypothesis places_sorted :
  forall s, s < T -> StronglySorted cle (sorting_places (private_view sd2 T) s).
Hypothesis places_total :
  sum_nat (map (fun s => length (sorting_places (private_view sd2 T) s)) (seq 0 T))
  = length (source (private_view sd2 T)).

Lemma pu_seqs_in_place_cut (i : nat) :
  i < T -> pu_seqs_in_place sd2 T i = Some (cut_seqs d (private_view sd2 T) T i).
Proof.
  intros Hi; unfold pu_seqs_in_place, cut_seqs.
  apply omap_total; intros s Hs; apply in_seq in Hs.
  change (piece sd2 i s) with (piece (private_view sd2 T) i s).
  rewrite pieces_cut by lia; simpl; unfold subrange.
  pose proof (cut_mono d (private_view sd2 T) T i s samples_length samples_sorted) as Hm.
  pose proof (cut_le_length d (private_view sd2 T) T (i + 1) s) as Hl.
  rewrite private_view_place in Hl by lia.
  rewrite length_firstn in Hl.
  destruct (Nat.leb_spec (cut d (private_view sd2 T) T i s)
                         (cut d (private_view sd2 T) T (i + 1) s)); [|lia].
  destruct (Nat.leb_spec (cut d (private_view sd2 T) T (i + 1) s)
                         (length (sorting_places_in_place sd2 s))); [|lia].
  simpl; f_equal.
  rewrite (private_view_place sd2 T s) by lia.
  symmetry; apply slice_prefix; lia.
Qed.

Lemma segment_length_am (i : nat) :
  i < T ->
  pu_length_am sd2 T i = Z.of_nat (length (segment d Stable (private_view sd2 T) T i)).
Proof.
  intros Hi.
  change (pu_length_am sd2 T i) with (pu_length_am (private_view sd2 T) T i).
  rewrite (pu_length_am_cut d T (private_view sd2 T)) by assumption.
  f_equal; apply Permutation_length.
  apply (segment_perm d Stable T (private_view sd2 T)); assumption.
Qed.

Lemma pu_merge_to_temporary_cut (i : nat) :
  i < T ->
  pu_merge_to_temporary Stable T sd2 i
  = Some (mkTemp (length (segment d Stable (private_view sd2 T) T i))
                 (segment d Stable (private_view sd2 T) T i)).
Proof.
  intros Hi; unfold pu_merge_to_temporary.
  rewrite (pu_seqs_in_place_cut i Hi); simpl.
  pose proof (segment_length_am i Hi) as E.
  change (pu_length_am sd2 T i) with (pu_length_am (private_view sd2 T) T i) in *.
  rewrite (pu_length_am_cut d T (private_view sd2 T)) in * by assumption.
  fold (segment d Stable (private_view sd2 T) T i).
  destruct (Z.ltb_spec (Z.of_nat (length (concat (cut_seqs d (private_view sd2 T) T i)))) 0);
    [lia|].
  rewrite E, Nat2Z.id, Nat.leb_refl; reflexivity.
Qed.

Lemma merge_to_temporary_result :
  merge_to_temporary_phase Stable T sd2
  = Some (mkSD (source sd2) (starts sd2)
               (map (fun i => mkTemp (length (segment d Stable (private_view sd2 T) T i))
                                     (segment d Stable (private_view sd2 T) T i))
                    (seq 0 T))
               (samples sd2) (pieces sd2) (merging_places sd2)).
Proof.
  unfold merge_to_temporary_phase.
  rewrite (omap_total _ _ (pu_merge_to_temporary Stable T sd2)
             (fun i => mkTemp (length (segment d Stable (private_view sd2 T) T i))
                              (segment d Stable (private_view sd2 T) T i))).
  - reflexivity.
  - intros i Hi; apply in_seq in Hi; apply pu_merge_to_temporary_cut; lia.
Qed.

Lemma write_back_simulation (ws : list nat) :
  forall (s s' a : PMWMSSortingData A),
    (forall k, In k ws -> k < T) ->
    source s' = source s ->
    pieces s = pieces sd2 -> pieces s' = pieces sd2 ->
    temporary s = temporary (private_view sd2 T) ->
    temporary s'
    = map (fun i => mkTemp (length (segment d Stable (private_view sd2 T) T i))
                           (segment d Stable (private_view sd2 T) T i))
          (seq 0 T) ->
    ofold (pu_merge Stable T) ws s = Some a ->
    exists b, ofold (pu_write_back T) ws s' = Some b /\ source b = source a.
Proof.
  induction ws as [|k ws IH]; intros s s' a Hws Es Ep Ep' Et Et' H; simpl in *.
  - inversion H; subst a; exists s'; auto.
  - apply obind_some in H; destruct H as (s1 & H1 & H).
    assert (Hk : k < T) by (apply Hws; left; reflexivity).
    unfold pu_merge in H1.
    apply obind_some in H1; destruct H1 as (merged & Hm & H1).
    apply obind_some in H1; destruct H1 as (src & Hsrc & H1).
    inversion H1; subst s1; clear H1.
    destruct (pu_frame Stable T s (private_view sd2 T) k Et Ep) as [Em Eo].
    rewrite Em, (pu_merged_cut d Stable T (private_view sd2 T)) in Hm by assumption.
    inversion Hm; subst merged; clear Hm.
    destruct (pieces_frame s' sd2 T k Ep') as [Eo' El'].
    destruct (pieces_frame s sd2 T k Ep) as [Eo2 _].
    unfold pu_write_back at 1.
    rewrite Et', nth_map_seq by exact Hk; simpl.
    rewrite El', (segment_length_am k Hk), Nat2Z.id.
    unfold read_range; simpl.
    rewrite Nat.leb_refl, firstn_all; simpl.
    rewrite Es, Eo', <- Eo2, Hsrc; simpl.
    eapply IH; [.. | exact H]; simpl; auto.
Qed.

Lemma copy_last_merge_result :
  exists sd3 sd4,
    merge_to_temporary_phase Stable T sd2 = Some sd3
    /\ write_back_phase T sd3 = Some sd4
    /\ temporary sd3
       = map (fun i => mkTemp (length (segment d Stable (private_view sd2 T) T i))
                              (segment d Stable (private_view sd2 T) T i))
             (seq 0 T)
    /\ source sd4 = concat (map (segment d Stable (private_view sd2 T) T) (seq 0 T)).
Proof.
  destruct (merge_phase_result d Stable T (private_view sd2 T))
    as (a & Ha & _ & _ & _ & _ & Esrc); try assumption.
  rewrite merge_to_temporary_result.
  destruct (write_back_simulation (seq 0 T) (private_view sd2 T)
              (mkSD (source sd2) (starts sd2)
                 (map (fun i => mkTemp (length (segment d Stable (private_view sd2 T) T i))
                                       (segment d Stable (private_view sd2 T) T i))
                      (seq 0 T))
                 (samples sd2) (pieces sd2) (merging_places sd2)) a)
    as (b & Hb & Eb); auto.
  - intros k Hk; apply in_seq in Hk; lia.
  - do 2 eexists; split; [reflexivity|]; split; [exact Hb|]; split; [reflexivity|].
    rewrite Eb; exact Esrc.
Qed.
End CopyLastMerge.

Lemma in_place_sorted_state (Stable : bool) (l : list A) (T : nat)
    (sd sd1 : PMWMSSortingData A) :
  setup l T = Some sd ->
  local_sort_in_place_phase Stable T sd = Some sd1 ->
  1 <= T
  /\ source sd1
     = concat (map (fun s => sort_with Stable (chunk l (team_starts (length l) T) s))
                   (seq 0 T))
  /\ starts sd1 = team_starts (length l) T
  /\ starts_tile (starts sd1) T (length (source sd1)).
Proof.
  intros Hsd H1; destruct (setup_unfold l T sd Hsd) as (HT & _ & _).
  rewrite (local_sort_in_place_result Stable l T sd Hsd) in H1.
  inversion H1; subst sd1; clear H1; simpl.
  split; [exact HT|]; split; [reflexivity|]; split; [reflexivity|].
  destruct (sorted_in_place_chunk Stable l T 0 HT ltac:(lia)) as (_ & _ & ->).
  apply compute_starts_tile; exact HT.
Qed.

Lemma copy_last_split_facts (d : A) (Stable : bool) (l : list A) (T : nat)
    (sd sd2 : PMWMSSortingData A) :
  1 <= sort_mwms_oversampling * T ->
  setup l T = Some sd ->
  copy_last_until_split Stable T sd = Some sd2 ->
  1 <= T
  /\ (forall s, s < T ->
        sorting_places (private_view sd2 T) s
        = sort_with Stable (chunk l (team_starts (length l) T) s))
  /\ (forall i s, i < T -> s < T ->
        piece (private_view sd2 T) i s
        = mkPiece (cut d (private_view sd2 T) T i s)
                  (cut d (private_view sd2 T) T (i + 1) s))
  /\ length (samples (private_view sd2 T)) = T * num_samples_of T
  /\ nondecreasing (samples (private_view sd2 T))
  /\ (forall s, s < T -> StronglySorted cle (sorting_places (private_view sd2 T) s))
  /\ sum_nat (map (fun s => length (sorting_places (private_view sd2 T) s)) (seq 0 T))
     = length (source (private_view sd2 T))
  /\ length (source sd2) = length l
  /\ starts sd2 = team_starts (length l) T.
Proof.
  intros HV Hsd H; unfold copy_last_until_split in H.
  apply obind_some in H; destruct H as (sd1 & H1 & H2).
  destruct (in_place_sorted_state Stable l T sd sd1 Hsd H1) as (HT & Es1 & Est1 & Hst1).
  assert (Hlen1 : forall s, s < T ->
            length (sorting_places (private_view sd1 T) s) = length_local sd1 s).
  { intros s Hs.
    rewrite (private_view_sorted_chunk Stable l T s sd1 HT Hs Es1 Est1).
    destruct (in_place_chunk Stable l T s sd1 HT Hs Es1 Est1) as (-> & _); reflexivity. }
  destruct (split_sampling_in_place_result d T sd1 sd2 HV Hlen1 H2)
    as (Es & Est & _ & Hsl & Hss & Hpc).
  rewrite Es1 in Es; rewrite Est1 in Est.
  assert (Hpl : forall s, s < T ->
            sorting_places (private_view sd2 T) s
            = sort_with Stable (chunk l (team_starts (length l) T) s))
    by (intros s Hs; apply private_view_sorted_chunk; assumption).
  assert (Hn : length (source sd2) = length l)
    by (destruct (in_place_chunk Stable l T 0 sd2 HT ltac:(lia) Es Est) as (_ & Hn & _);
        exact Hn).
  repeat split; auto.
  - intros s Hs; rewrite (Hpl s Hs); apply sort_with_sorted.
  - simpl.
    rewrite (map_seq_ext _ _ (length_local sd2)).
    + apply sum_length_local; rewrite Est, Hn; apply compute_starts_tile; exact HT.
    + intros s Hs; rewrite (Hpl s Hs).
      destruct (in_place_chunk Stable l T s sd2 HT Hs Es Est) as (-> & _); reflexivity.
Qed.

Lemma copy_last_cases (Stable : bool) (l : list A) (T_req : nat) (out : list A) :
  let T := clamp_threads (length l) T_req in
  parallel_mergesort_copy_last Stable l T_req = Some out ->
  (length l <= 1 /\ out = l)
  \/ (2 <= length l /\ 1 <= sort_mwms_oversampling * T
      /\ exists sd sd2 sd3 sd4,
           setup l T = Some sd
           /\ copy_last_until_split Stable T sd = Some sd2
           /\ merge_to_temporary_phase Stable T sd2 = Some sd3
           /\ write_back_phase T sd3 = Some sd4
           /\ out = source sd4).
Proof.
  intros T; unfold parallel_mergesort_copy_last; fold T.
  destruct (Nat.leb_spec (length l) 1) as [Hn|Hn]; intros H.
  - left; inversion H; subst; auto.
  - right; split; [lia|].
    apply obind_some in H; destruct H as (? & _ & H).
    apply obind_some in H; destruct H as (? & Ha & H).
    unfold allocate_samples, mwmsa in Ha.
    destruct (Nat.eqb_spec (sort_mwms_oversampling * T) 0) as [?|HV]; [discriminate|].
    split; [lia|].
    apply obind_some in H; destruct H as (sd & Hsd & H).
    apply obind_some in H; destruct H as (sd4 & H4 & H).
    inversion H; subst out; clear H.
    unfold parallel_sort_mwms_pu_copy_last in H4.
    apply obind_some in H4; destruct H4 as (sd2 & H2 & H4).
    apply obind_some in H4; destruct H4 as (sd3 & H3 & H4).
    exists sd, sd2, sd3, sd4; auto.
Qed.

Lemma copy_last_run (Stable : bool) (l : list A) (T_req : nat) (out : list A) :
  parallel_mergesort_copy_last Stable l T_req = Some out ->
  StronglySorted cle out
  /\ Permutation l out
  /\ (Stable = true -> forall x, filter (equiv x) out = filter (equiv x) l).
Proof.
  intros H; apply copy_last_cases in H.
  destruct H as [[Hn ->]|(Hn & HV & sd & sd2 & sd3 & sd4 & Hsd & H2 & H3 & H4 & ->)].
  - split; [apply short_sorted; exact Hn|]; split; [apply Permutation_refl | reflexivity].
  - set (T := clamp_threads (length l) T_req) in *.
    assert (Hd : exists d : A, In d l)
      by (destruct l as [|d l]; [simpl in Hn; lia | exists d; left; reflexivity]).
    destruct Hd as [d _].
    destruct (copy_last_split_facts d Stable l T sd sd2 HV Hsd H2)
      as (HT & Hpl & Hpc & Hsl & Hss & Hps & Hpt & _).
    destruct (copy_last_merge_result d Stable T sd2 HT Hpc Hsl Hss Hps Hpt)
      as (sd3' & sd4' & H3' & H4' & _ & Esrc).
    rewrite H3 in H3'; inversion H3'; subst sd3'; clear H3'.
    rewrite H4 in H4'; inversion H4'; subst sd4'; clear H4'.
    rewrite Esrc; split; [|split].
    + apply segments_sorted; assumption.
    + rewrite (sorted_chunks_perm Stable l T (private_view sd2 T) HT Hpl).
      apply segments_perm; assumption.
    + intros HS x; rewrite segments_stable by assumption.
      subst Stable; apply sorted_chunks_stable; assumption.
Qed.

Lemma determine_samples_in_place_inside (sd : PMWMSSortingData A) (T iam : nat) :
  helper_keeps_inside ->
  starts_tile (starts sd) T (length (source sd)) -> iam < T ->
  1 <= sort_mwms_oversampling * T -> 1 <= length_local sd iam ->
  exists smp, determine_samples_in_place sd T iam = Some smp.
Proof.
  intros Hk Hst Hi HV Hlen.
  destruct (Hk _ _ Hlen HV) as (es & Hes & Hin).
  unfold determine_samples_in_place; rewrite Hes; simpl.
  apply omap_defined; intros i Hns; apply in_seq in Hns.
  unfold num_samples_of in Hns.
  specialize (Hin (i + 1) ltac:(lia) ltac:(lia)).
  destruct (Nat.ltb_spec (nth (i + 1) es 0) (length_local sd iam)); [|lia].
  destruct (nth_error (source sd) (sample_index sd es iam i)) as [v|] eqn:E;
    [exists v; reflexivity|].
  apply nth_error_None in E; unfold sample_index in E.
  pose proof (starts_tile_le _ _ _ iam (iam + 1) Hst ltac:(lia) ltac:(lia)) as H1.
  pose proof (starts_tile_le _ _ _ (iam + 1) T Hst ltac:(lia) ltac:(lia)) as H2.
  destruct Hst as (_ & HT & _); rewrite HT in H2.
  unfold length_local in *; lia.
Qed.

Lemma split_sampling_in_place_defined (T : nat) (sd : PMWMSSortingData A) :
  (forall iam, iam < T -> exists smp, determine_samples_in_place sd T iam = Some smp) ->
  exists sd', split_sampling_in_place T sd = Some sd'.
Proof.
  intros Hdef; unfold split_sampling_in_place.
  destruct (omap_defined _ _ (determine_samples_in_place sd T) (seq 0 T)) as [drawn Hdr].
  { intros iam Hin; apply in_seq in Hin; apply Hdef; lia. }
  rewrite Hdr; simpl.
  match goal with
  | |- exists _, obind (omap ?f _) _ = _ =>
      destruct (omap_defined _ _ f (seq 0 T)) as [rows Hrows]
  end.
  { intros i Hi; apply in_seq in Hi; apply omap_defined; intros s Hs; apply in_seq in Hs.
    rewrite sampling_piece_view by lia.
    apply sampling_piece_defined; [simpl|lia].
    rewrite <- (Permutation_length (sort_perm _ std_sort_ok (concat drawn))).
    rewrite (determine_samples_in_place_team_length _ _ _ _ Hdr), length_seq.
    reflexivity. }
  rewrite Hrows; simpl; eexists; reflexivity.
Qed.

Lemma copy_last_defined (Stable : bool) (l : list A) (T_req : nat) :
  helper_keeps_inside ->
  length l <= 1 \/ (1 <= T_req /\ 1 <= sort_mwms_oversampling) ->
  exists out, parallel_mergesort_copy_last Stable l T_req = Some out.
Proof.
  intros Hk Hcall; unfold parallel_mergesort_copy_last.
  destruct (Nat.leb_spec (length l) 1) as [Hn|Hn]; [eexists; reflexivity|].
  destruct Hcall as [?|[HTr HV]]; [lia|].
  set (T := clamp_threads (length l) T_req).
  assert (HT : 1 <= T) by (unfold T; rewrite clamp_threads_min; lia).
  assert (HTn : T <= length l) by (unfold T; rewrite clamp_threads_min; lia).
  assert (HVT : 1 <= sort_mwms_oversampling * T) by nia.
  unfold sorting_data_sizes, allocate_samples, mwmsa.
  destruct (Nat.eqb_spec T 0); [lia|].
  destruct (Nat.eqb_spec (sort_mwms_oversampling * T) 0); [lia|]; simpl.
  destruct (compute_starts_tile (length l) T HT) as [Ecs _].
  assert (Hsd : setup l T
                = Some (mkSD l (team_starts (length l) T) [] []
                             (repeat (repeat no_piece T) T) []))
    by (unfold setup; rewrite Ecs; reflexivity).
  rewrite Hsd; simpl.
  unfold parallel_sort_mwms_pu_copy_last, copy_last_until_split.
  rewrite (local_sort_in_place_result Stable l T _ Hsd); simpl.
  set (sd1 := mkSD _ (team_starts (length l) T) [] [] _ []).
  assert (H1 : local_sort_in_place_phase Stable T
                 (mkSD l (team_starts (length l) T) [] []
                       (repeat (repeat no_piece T) T) []) = Some sd1)
    by apply (local_sort_in_place_result Stable l T _ Hsd).
  destruct (in_place_sorted_state Stable l T _ sd1 Hsd H1) as (_ & Es1 & Est1 & Hst1).
  destruct (split_sampling_in_place_defined T sd1) as [sd2 H2].
  { intros iam Hi; apply determine_samples_in_place_inside; auto.
    destruct (in_place_chunk Stable l T iam sd1 HT Hi Es1 Est1) as (-> & _).
    destruct (sorted_in_place_chunk Stable l T iam HT Hi) as (_ & -> & _).
    unfold team_starts; rewrite starts_step by exact Hi.
    assert (1 <= length l / T) by (apply Nat.div_le_lower_bound; lia).
    destruct (iam <? length l mod T); lia. }
  rewrite H2; simpl.
  assert (Hd : exists d : A, In d l)
    by (destruct l as [|d l]; [simpl in Hn; lia | exists d; left; reflexivity]).
  destruct Hd as [d _].
  assert (H2' : copy_last_until_split Stable T
                  (mkSD l (team_starts (length l) T) [] []
                        (repeat (repeat no_piece T) T) []) = Some sd2)
    by (unfold copy_last_until_split; rewrite H1; exact H2).
  destruct (copy_last_split_facts d Stable l T _ sd2 HVT Hsd H2')
    as (_ & Hpl & Hpc & Hsl & Hss & Hps & Hpt & _).
  destruct (copy_last_merge_result d Stable T sd2 HT Hpc Hsl Hss Hps Hpt)
    as (sd3 & sd4 & H3 & H4 & _).
  rewrite H3; simpl; rewrite H4; simpl; eexists; reflexivity.
Qed.

(** X15.  The in-place configuration sorts as well: the sequence its
    write-back leaves is non-decreasing and a permutation of the input, and
    with the stability flag set equivalent elements keep their input order.
    With a range-division helper that keeps the inner offsets below the
    chunk length, the configuration completes on every call with at least
    one thread and oversampling at least 1. *)
Theorem copy_last_sorts (Stable : bool) (l : list A) (T_req : nat) :
  (forall out,
     parallel_mergesort_copy_last Stable l T_req = Some out ->
     StronglySorted cle out
     /\ Permutation l out
     /\ (Stable = true -> forall x, filter (equiv x) out = filter (equiv x) l))
  /\ (helper_keeps_inside ->
      length l <= 1 \/ (1 <= T_req /\ 1 <= sort_mwms_oversampling) ->
      exists out, parallel_mergesort_copy_last Stable l T_req = Some out).
Proof.
  split; [intros out; apply copy_last_run | apply copy_last_defined].
Qed.

(** X16.  With the stability flag set the two configurations leave the
    same sequence, whatever thread counts they run with: sorting in private
    copies and merging into the caller's sequence, or sorting in the
    caller's sequence and merging into private buffers. *)
Theorem configurations_agree_when_stable (l : list A) (T_req T_req' : nat)
    (out : Outcome A) (out' : list A) :
  parallel_mergesort true l T_req = Some out ->
  parallel_mergesort_copy_last true l T_req' = Some out' ->
  sequence out = out'.
Proof.
  intros H H'.
  destruct (parallel_mergesort_outcome true l T_req out H) as (Hs & _ & Hf).
  destruct (copy_last_run true l T_req' out' H') as (Hs' & _ & Hf').
  apply stable_order_unique; auto.
  intros x; rewrite (Hf eq_refl), (Hf' eq_refl); reflexivity.
Qed.

(** X17.  In the in-place configuration the merge buffer of PU [iam] has
    exactly [length_am] cells, all of them filled by the merge, and the
    buffers of the team together take [n] cells. *)
Theorem copy_last_buffers (Stable : bool) (l : list A) (T_req : nat)
    (sd sd2 sd3 : PMWMSSortingData A) :
  let T := clamp_threads (length l) T_req in
  1 <= sort_mwms_oversampling ->
  setup l T = Some sd ->
  copy_last_until_split Stable T sd = Some sd2 ->
  merge_to_temporary_phase Stable T sd2 = Some sd3 ->
  length (temporary sd3) = T
  /\ (forall iam, iam < T ->
        Z.of_nat (capacity (nth iam (temporary sd3) no_buffer)) = pu_length_am sd2 T iam
        /\ length (cells (nth iam (temporary sd3) no_buffer))
           = capacity (nth iam (temporary sd3) no_buffer))
  /\ sum_nat (map (@capacity A) (temporary sd3)) = length l.
Proof.
  intros T HV Hsd H2 H3.
  destruct (setup_unfold l T sd Hsd) as (HT & _ & _).
  assert (HVT : 1 <= sort_mwms_oversampling * T) by nia.
  assert (Hd : exists d : A, In d l).
  { destruct l as [|d l]; [|exists d; left; reflexivity].
    unfold T in HT; rewrite clamp_threads_min in HT; simpl in HT; lia. }
  destruct Hd as [d _].
  destruct (copy_last_split_facts d Stable l T sd sd2 HVT Hsd H2)
    as (_ & Hpl & Hpc & Hsl & Hss & Hps & Hpt & Hn & _).
  destruct (copy_last_merge_result d Stable T sd2 HT Hpc Hsl Hss Hps Hpt)
    as (sd3' & sd4 & H3' & _ & Et & _).
  rewrite H3 in H3'; inversion H3'; subst sd3'; clear H3'.
  rewrite Et; split; [rewrite length_map, length_seq; reflexivity|]; split.
  - intros iam Hi; rewrite nth_map_seq by exact Hi; simpl; split; [|reflexivity].
    symmetry; apply (segment_length_am d Stable T sd2); assumption.
  - rewrite map_map; simpl.
    rewrite <- (length_concat_map A (segment d Stable (private_view sd2 T) T) (seq 0 T)).
    rewrite <- (Permutation_length
                  (segments_perm d Stable T (private_view sd2 T) HT Hsl Hss Hps Hpt)).
    rewrite (length_concat_map A (sorting_places (private_view sd2 T)) (seq 0 T)).
    rewrite Hpt; exact Hn.
Qed.

(** X18.  In the in-place configuration the local sort allocates nothing
    and rearranges the caller's sequence chunk by chunk: afterwards the
    sequence is a permutation of the input of the same length, and the cells
    of every chunk hold a non-decreasing permutation of what the chunk held
    before. *)
Theorem in_place_local_sort_sorts_chunks (Stable : bool) (l : list A) (T_req : nat)
    (sd : PMWMSSortingData A) :
  let T := clamp_threads (length l) T_req in
  setup l T = Some sd ->
  exists sd1,
    local_sort_in_place_phase Stable T sd = Some sd1
    /\ temporary sd1 = []
    /\ length (source sd1) = length l
    /\ Permutation l (source sd1)
    /\ forall iam, iam < T ->
         StronglySorted cle (chunk (source sd1) (starts sd1) iam)
         /\ Permutation (chunk l (starts sd) iam) (chunk (source sd1) (starts sd1) iam).
Proof.
  intros T Hsd.
  pose proof (local_sort_in_place_result Stable l T sd Hsd) as H1.
  destruct (in_place_sorted_state Stable l T sd _ Hsd H1) as (HT & Es1 & Est1 & _).
  destruct (setup_unfold l T sd Hsd) as (_ & E & _).
  eexists; split; [exact H1|].
  set (sd1 := mkSD _ (team_starts (length l) T) [] [] _ []) in *.
  assert (Hch : forall iam, iam < T ->
            chunk (source sd1) (starts sd1) iam
            = sort_with Stable (chunk l (team_starts (length l) T) iam)).
  { intros iam Hi.
    destruct (in_place_chunk Stable l T iam sd1 HT Hi Es1 Est1) as (Hlen & _ & rest & Hpl).
    unfold chunk, slice.
    change (skipn (nth iam (starts sd1) 0) (source sd1))
      with (sorting_places_in_place sd1 iam).
    change (nth (iam + 1) (starts sd1) 0 - nth iam (starts sd1) 0)
      with (length_local sd1 iam).
    rewrite Hpl, Hlen, firstn_app, firstn_all, Nat.sub_diag, firstn_O, app_nil_r.
    reflexivity. }
  split; [reflexivity|]; split.
  - destruct (in_place_chunk Stable l T 0 sd1 HT ltac:(lia) Es1 Est1) as (_ & Hn & _).
    exact Hn.
  - split.
    + rewrite Es1.
      transitivity (concat (map (chunk l (team_starts (length l) T)) (seq 0 T))).
      * rewrite chunks_tile by (apply compute_starts_tile; exact HT); reflexivity.
      * apply perm_concat_map; intros s _; apply sort_with_perm.
    + intros iam Hi; rewrite (Hch iam Hi), E; simpl.
      split; [apply sort_with_sorted | apply sort_with_perm].
Qed.
End PMWMS.

(** ** The reference kernels meet the contracts *)

Section KernelContracts.
Context {A : Type}.
Variable comp : A -> A -> bool.
Hypothesis comp_swo : strict_weak_order comp.

Lemma comp_asym (a b : A) : comp a b = true -> comp b a = false.
Proof.
  intros H; destruct (comp b a) eqn:E; [|reflexivity].
  pose proof (swo_trans comp comp_swo _ _ _ H E) as C.
  rewrite (swo_irrefl comp comp_swo a) in C; discriminate.
Qed.

Lemma equiv_not_both (x y a : A) :
  comp y a = true -> equiv comp x y = true -> equiv comp x a = false.
Proof.
  intros Hya Hxy.
  rewrite <- (equiv_comp_l comp comp_swo x y a Hxy) in Hya.
  unfold equiv; rewrite Hya; reflexivity.
Qed.

Lemma insert_sorted_perm (a : A) (l : list A) :
  Permutation (a :: l) (insert_sorted comp a l).
Proof.
  induction l as [|y r IH]; simpl; [apply Permutation_refl|].
  destruct (comp y a); [|apply Permutation_refl].
  rewrite perm_swap; apply perm_skip, IH.
Qed.

Lemma insertion_sort_perm (l : list A) : Permutation l (insertion_sort comp l).
Proof.
  induction l as [|a r IH]; simpl; [constructor|].
  rewrite <- insert_sorted_perm; apply perm_skip, IH.
Qed.

Lemma insert_sorted_strong (a : A) (l : list A) :
  StronglySorted (cle comp) l -> StronglySorted (cle comp) (insert_sorted comp a l).
Proof.
  intros Hs; induction Hs as [|y r Hs IH Hy]; simpl.
  - constructor; constructor.
  - destruct (comp y a) eqn:E.
    + constructor; [exact IH|].
      eapply Permutation_Forall; [apply insert_sorted_perm|].
      constructor; [apply comp_asym; exact E | exact Hy].
    + constructor; [constructor; assumption|].
      constructor; [exact E|].
      eapply Forall_impl; [|exact Hy].
      intros z Hz; apply (cle_trans comp comp_swo a y z); assumption.
Qed.

Lemma insertion_sort_strong (l : list A) : StronglySorted (cle comp) (insertion_sort comp l).
Proof.
  induction l as [|a r IH]; simpl; [constructor | apply insert_sorted_strong, IH].
Qed.

Lemma insert_sorted_filter (x a : A) (l : list A) :
  filter (equiv comp x) (insert_sorted comp a l) = filter (equiv comp x) (a :: l).
Proof.
  induction l as [|y r IH]; [reflexivity|].
  simpl insert_sorted; destruct (comp y a) eqn:E; [|reflexivity].
  simpl in *; rewrite IH.
  destruct (equiv comp x y) eqn:Ey; [|reflexivity].
  rewrite (equiv_not_both x y a E Ey); reflexivity.
Qed.

Lemma insertion_sort_filter (l : list A) (x : A) :
  filter (equiv comp x) (insertion_sort comp l) = filter (equiv comp x) l.
Proof.
  induction l as [|a r IH]; [reflexivity|].
  simpl insertion_sort; rewrite insert_sorted_filter; simpl; rewrite IH; reflexivity.
Qed.

Lemma insertion_sort_contract : sort_contract comp (insertion_sort comp).
Proof.
  split; [apply insertion_sort_perm|].
  intros l; apply StronglySorted_Sorted, insertion_sort_strong.
Qed.

Lemma insertion_sort_stable_contract : stable_sort_contract comp (insertion_sort comp).
Proof.
  split; [apply insertion_sort_contract | apply insertion_sort_filter].
Qed.

Lemma merge2_cons (a b : A) (r1 r2 : list A) :
  merge2 comp (a :: r1) (b :: r2)
  = if comp b a then b :: merge2 comp (a :: r1) r2 else a :: merge2 comp r1 (b :: r2).
Proof. reflexivity. Qed.

Lemma merge2_nil_r (l1 : list A) : merge2 comp l1 [] = l1.
Proof. destruct l1; reflexivity. Qed.

Lemma merge2_perm (l1 l2 : list A) : Permutation (l1 ++ l2) (merge2 comp l1 l2).
Proof.
  revert l2; induction l1 as [|a r1 IH1]; intros l2; [destruct l2; apply Permutation_refl|].
  induction l2 as [|b r2 IH2]; [rewrite app_nil_r; apply Permutation_refl|].
  rewrite merge2_cons; destruct (comp b a).
  - rewrite <- Permutation_middle; apply perm_skip, IH2.
  - apply (perm_skip a), IH1.
Qed.

Lemma merge2_strong (l1 l2 : list A) :
  StronglySorted (cle comp) l1 -> StronglySorted (cle comp) l2 ->
  StronglySorted (cle comp) (merge2 comp l1 l2).
Proof.
  intros H1; revert l2; induction H1 as [|a r1 H1 IH1 Ha]; intros l2 H2;
    [destruct l2; exact H2|].
  induction H2 as [|b r2 H2 IH2 Hb]; [constructor; assumption|].
  rewrite merge2_cons; destruct (comp b a) eqn:E.
  - constructor; [exact IH2|].
    eapply Permutation_Forall; [apply merge2_perm|].
    apply Forall_app; split; [|exact Hb].
    assert (Hba : cle comp b a) by (apply comp_asym; exact E).
    constructor; [exact Hba|].
    eapply Forall_impl; [|exact Ha].
    intros z Hz; apply (cle_trans comp comp_swo b a z); assumption.
  - constructor; [apply IH1; constructor; assumption|].
    eapply Permutation_Forall; [apply merge2_perm|].
    apply Forall_app; split; [exact Ha|].
    constructor; [exact E|].
    eapply Forall_impl; [|exact Hb].
    intros z Hz; apply (cle_trans comp comp_swo a b z); assumption.
Qed.

Lemma filter_cons_if (p : A -> bool) (b : A) (l : list A) :
  filter p (b :: l) = (if p b then [b] else []) ++ filter p l.
Proof. simpl; destruct (p b); reflexivity. Qed.

Lemma filter_none (p : A -> bool) (l : list A) :
  Forall (fun z => p z = false) l -> filter p l = [].
Proof.
  intros F; induction F as [|z q Hz F IH]; [reflexivity|].
  simpl; rewrite Hz; exact IH.
Qed.

Lemma merge2_filter (x : A) (l1 l2 : list A) :
  StronglySorted (cle comp) l1 ->
  filter (equiv comp x) (merge2 comp l1 l2)
  = filter (equiv comp x) l1 ++ filter (equiv comp x) l2.
Proof.
  intros H1; revert l2; induction H1 as [|a r1 H1 IH1 Ha]; intros l2;
    [destruct l2; reflexivity|].
  induction l2 as [|b r2 IH2]; [rewrite merge2_nil_r, app_nil_r; reflexivity|].
  rewrite merge2_cons; destruct (comp b a) eqn:E.
  - rewrite (filter_cons_if _ b (merge2 comp (a :: r1) r2)), IH2.
    rewrite (filter_cons_if _ b r2).
    destruct (equiv comp x b) eqn:Eb; [|reflexivity].
    rewrite (filter_none (equiv comp x) (a :: r1)); [reflexivity|].
    constructor; [apply (equiv_not_both x b a E Eb)|].
    eapply Forall_impl; [|exact Ha].
    intros z Hz; apply (equiv_not_both x b z); [|exact Eb].
    apply (comp_cle_trans comp comp_swo b a z E Hz).
  - rewrite (filter_cons_if _ a (merge2 comp r1 (b :: r2))), IH1.
    rewrite (filter_cons_if _ a r1), app_assoc; reflexivity.
Qed.

Lemma fold_merge2_perm (seqs : list (list A)) :
  Permutation (concat seqs) (fold_right (merge2 comp) [] seqs).
Proof.
  induction seqs as [|q seqs IH]; simpl; [constructor|].
  rewrite <- merge2_perm; apply Permutation_app_head, IH.
Qed.

Lemma fold_merge2_strong (seqs : list (list A)) :
  Forall (nondecreasing comp) seqs ->
  StronglySorted (cle comp) (fold_right (merge2 comp) [] seqs).
Proof.
  intros H; induction H as [|q seqs Hq H IH]; simpl; [constructor|].
  apply merge2_strong; [apply (nondecreasing_strong comp comp_swo), Hq | exact IH].
Qed.

Lemma fold_merge2_filter (x : A) (seqs : list (list A)) :
  Forall (nondecreasing comp) seqs ->
  filter (equiv comp x) (fold_right (merge2 comp) [] seqs)
  = filter (equiv comp x) (concat seqs).
Proof.
  intros H; induction H as [|q seqs Hq H IH]; simpl; [reflexivity|].
  rewrite merge2_filter by (apply (nondecreasing_strong comp comp_swo), Hq).
  rewrite filter_app, IH; reflexivity.
Qed.

Lemma kway_merge_all (Stable : bool) (seqs : list (list A)) :
  kway_merge comp Stable seqs (Z.of_nat (length (concat seqs)))
  = fold_right (merge2 comp) [] seqs.
Proof.
  unfold kway_merge; rewrite Nat2Z.id.
  rewrite (Permutation_length (fold_merge2_perm seqs)); apply firstn_all.
Qed.

Lemma kway_merge_contract : merge_contract comp (kway_merge comp).
Proof.
  split.
  - intros Stable seqs _; rewrite kway_merge_all; apply fold_merge2_perm.
  - intros Stable seqs H; rewrite kway_merge_all.
    apply StronglySorted_Sorted, fold_merge2_strong, H.
  - intros seqs x H; rewrite kway_merge_all; apply fold_merge2_filter, H.
Qed.
End KernelContracts.

(** ** The embedding at work: [unsigned] keys under [<] *)

Lemma ltb_on_swo (X : Type) (f : X -> nat) :
  strict_weak_order (fun x y => f x <? f y).
Proof.
  split.
  - intros a; apply Nat.ltb_irrefl.
  - intros a b c H1 H2; apply Nat.ltb_lt in H1, H2; apply Nat.ltb_lt; lia.
  - intros a b c H.
    apply Nat.ltb_lt in H.
    destruct (Nat.ltb_spec (f a) (f b)); [left; reflexivity|].
    right; apply Nat.ltb_lt; lia.
Qed.

Lemma nat_ltb_swo : strict_weak_order Nat.ltb.
Proof. exact (ltb_on_swo nat (fun x => x)). Qed.

Lemma equally_split_model_as_specified : helper_as_specified equally_split_model.
Proof. intros n p; reflexivity. Qed.

Lemma equally_split_clamped_keeps_inside : helper_keeps_inside equally_split_clamped.
Proof.
  intros n p Hn Hp; unfold equally_split_clamped.
  destruct (Nat.eqb_spec p 0); [lia|].
  eexists; split; [reflexivity|].
  intros k Hk1 Hkp; rewrite (nth_map_seq nat _ 0 (p + 1) k) by lia.
  destruct (Nat.ltb_spec k p); lia.
Qed.

(** C1, at work: forty keys in descending order, two threads, unstable,
    with the helper as the specification describes it; and the five keys
    5, 3, 4, 1, 2 with two threads, stable, with a helper that keeps its
    offsets inside the chunk. *)
Lemma parallel_mergesort_sorts_witness :
  (exists out,
     parallel_mergesort Nat.ltb 10 equally_split_model (insertion_sort Nat.ltb) (insertion_sort Nat.ltb)
       (kway_merge Nat.ltb) (rank_partition Nat.ltb) false (rev (seq 1 40)) 2 = Some out
     /\ StronglySorted (cle Nat.ltb) (sequence out)
     /\ Permutation (rev (seq 1 40)) (sequence out))
  /\ (exists out,
        parallel_mergesort Nat.ltb 10 equally_split_clamped (insertion_sort Nat.ltb) (insertion_sort Nat.ltb)
          (kway_merge Nat.ltb) (rank_partition Nat.ltb) true [5; 3; 4; 1; 2] 2 = Some out
        /\ sequence out = [1; 2; 3; 4; 5]
        /\ StronglySorted (cle Nat.ltb) (sequence out)
        /\ Permutation [5; 3; 4; 1; 2] (sequence out)).
Proof.
  split.
  - eexists; split; [lazy; reflexivity|].
    apply (proj1 (parallel_mergesort_sorts Nat.ltb 10 equally_split_model
                    (insertion_sort Nat.ltb) (insertion_sort Nat.ltb)
                    (kway_merge Nat.ltb) (rank_partition Nat.ltb)
                    nat_ltb_swo (insertion_sort_contract Nat.ltb nat_ltb_swo)
      (insertion_sort_stable_contract Nat.ltb nat_ltb_swo)
      (kway_merge_contract Nat.ltb nat_ltb_swo)
                    false (rev (seq 1 40)) 2)).
    lazy; reflexivity.
  - destruct (parallel_mergesort_sorts Nat.ltb 10 equally_split_clamped
                (insertion_sort Nat.ltb) (insertion_sort Nat.ltb)
                (kway_merge Nat.ltb) (rank_partition Nat.ltb)
                nat_ltb_swo (insertion_sort_contract Nat.ltb nat_ltb_swo)
      (insertion_sort_stable_contract Nat.ltb nat_ltb_swo)
      (kway_merge_contract Nat.ltb nat_ltb_swo)
                true [5; 3; 4; 1; 2] 2) as (Hsorts & Hreturns & _).
    destruct (Hreturns equally_split_clamped_keeps_inside ltac:(right; split; lia))
      as [out Hout].
    exists out; split; [exact Hout|].
    destruct (Hsorts out Hout) as [Hs Hp].
    split; [|split; assumption].
    lazy in Hout; injection Hout as <-; reflexivity.
Defined.

(** C2, at work, in both modes: forty keys in descending order, two threads. *)
Lemma pieces_tile_chunks_witness :
  (exists sd,
     after_split Nat.ltb 10 equally_split_model (insertion_sort Nat.ltb) (insertion_sort Nat.ltb)
      (rank_partition Nat.ltb) MWMSA_SAMPLING true (rev (seq 1 40)) 2 = Some sd
     /\ forall s, s < 2 ->
          piece_begin (piece sd 0 s) = 0
          /\ piece_end (piece sd 1 s) = length_local sd s
          /\ forall i, i + 1 < 2 ->
               piece_end (piece sd i s) = piece_begin (piece sd (i + 1) s))
  /\ (exists sd,
        after_split Nat.ltb 10 equally_split_model (insertion_sort Nat.ltb) (insertion_sort Nat.ltb)
      (rank_partition Nat.ltb) MWMSA_EXACT true (rev (seq 1 40)) 2 = Some sd
        /\ forall s, s < 2 ->
             piece_begin (piece sd 0 s) = 0
             /\ piece_end (piece sd 1 s) = length_local sd s
             /\ forall i, i + 1 < 2 ->
                  piece_end (piece sd i s) = piece_begin (piece sd (i + 1) s)).
Proof.
  split; (eexists; split; [lazy; reflexivity|]).
  - exact (pieces_tile_chunks Nat.ltb 10 equally_split_model (insertion_sort Nat.ltb) (insertion_sort Nat.ltb)
      (rank_partition Nat.ltb)
             MWMSA_SAMPLING true (rev (seq 1 40)) 2 _ eq_refl).
  - exact (pieces_tile_chunks Nat.ltb 10 equally_split_model (insertion_sort Nat.ltb) (insertion_sort Nat.ltb)
      (rank_partition Nat.ltb)
             MWMSA_EXACT true (rev (seq 1 40)) 2 _ eq_refl).
Defined.

(** C3, at work: forty keys in descending order, two threads. *)
Lemma output_segments_partition_witness :
  exists sd,
    after_split Nat.ltb 10 equally_split_model (insertion_sort Nat.ltb) (insertion_sort Nat.ltb)
      (rank_partition Nat.ltb) MWMSA_SAMPLING false (rev (seq 1 40)) 2 = Some sd
    /\ pu_offset sd 2 0 = 0
    /\ (Z.of_nat (pu_offset sd 2 1) + pu_length_am sd 2 1 = 40)%Z
    /\ exists sd3,
         merge_phase (kway_merge Nat.ltb) false 2 sd = Some sd3
         /\ source sd3
            = concat (map (fun i => oget [] (pu_merged (kway_merge Nat.ltb) false sd 2 i))
                          (seq 0 2)).
Proof.
  eexists; split; [lazy; reflexivity|].
  destruct (output_segments_partition Nat.ltb 10 equally_split_model (insertion_sort Nat.ltb) (insertion_sort Nat.ltb)
      (kway_merge Nat.ltb) (rank_partition Nat.ltb)
      nat_ltb_swo (insertion_sort_contract Nat.ltb nat_ltb_swo)
      (insertion_sort_stable_contract Nat.ltb nat_ltb_swo)
      (kway_merge_contract Nat.ltb nat_ltb_swo)
      false (rev (seq 1 40)) 2 _ eq_refl) as (_ & _ & H0 & _ & Hn & H3).
  exact (conj H0 (conj Hn H3)).
Defined.

(** C4, at work: forty records keyed 0, 1, 2 and tagged with their input
    position, compared by key, two threads, stable. *)
Lemma parallel_mergesort_stable_witness :
  exists out,
    parallel_mergesort (fun x y : nat * nat => fst x <? fst y) 10 equally_split_model
      (insertion_sort (fun x y : nat * nat => fst x <? fst y))
      (insertion_sort (fun x y : nat * nat => fst x <? fst y))
      (kway_merge (fun x y : nat * nat => fst x <? fst y))
      (rank_partition (fun x y : nat * nat => fst x <? fst y))
      true (map (fun i => (i mod 3, i)) (seq 0 40)) 2 = Some out
    /\ forall x,
         filter (equiv (fun x y : nat * nat => fst x <? fst y) x) (sequence out)
         = filter (equiv (fun x y : nat * nat => fst x <? fst y) x)
                  (map (fun i => (i mod 3, i)) (seq 0 40)).
Proof.
  eexists; split; [lazy; reflexivity|].
  apply (parallel_mergesort_stable (fun x y : nat * nat => fst x <? fst y) 10 equally_split_model
           (insertion_sort (fun x y : nat * nat => fst x <? fst y))
           (insertion_sort (fun x y : nat * nat => fst x <? fst y))
           (kway_merge (fun x y : nat * nat => fst x <? fst y))
           (rank_partition (fun x y : nat * nat => fst x <? fst y))
           (ltb_on_swo (nat * nat) fst)
           (insertion_sort_contract _ (ltb_on_swo (nat * nat) fst))
           (insertion_sort_stable_contract _ (ltb_on_swo (nat * nat) fst))
           (kway_merge_contract _ (ltb_on_swo (nat * nat) fst))
           (map (fun i => (i mod 3, i)) (seq 0 40)) 2).
  lazy; reflexivity.
Defined.

(** C5, at work: five elements, two threads: boundaries 0, 3, 5. *)
Lemma range_partition_witness :
  exists sd,
    setup [5; 3; 4; 1; 2] 2 = Some sd
    /\ length (starts sd) = 3
    /\ nth 0 (starts sd) 0 = 0
    /\ nth 2 (starts sd) 0 = 5.
Proof.
  destruct (range_partition [5; 3; 4; 1; 2] 2 ltac:(simpl; lia) ltac:(lia))
    as (_ & _ & _ & sd & Hsd & Hlen & H0 & Hn & _).
  exists sd; auto.
Defined.

(** C5 as stated fails for a requested thread count of zero: the team is
    empty, the shared data cannot be built, [n / num_threads] divides by
    zero, and no boundaries exist. *)
Lemma range_partition_zero_threads :
  clamp_threads 2 0 = 0
  /\ sorting_data_sizes (clamp_threads 2 0) = None
  /\ compute_starts 2 (clamp_threads 2 0) = None
  /\ ~ (exists sd : PMWMSSortingData nat,
          setup [2; 1] (clamp_threads 2 0) = Some sd
          /\ nth (clamp_threads 2 0) (starts sd) 0 = 2).
Proof.
  repeat split.
  intros (sd & H & _); simpl in H; discriminate.
Qed.

(** C8, at work: a single element, four threads requested. *)
Lemma short_input_untouched_witness :
  parallel_mergesort Nat.ltb 10 equally_split_model (insertion_sort Nat.ltb) (insertion_sort Nat.ltb)
      (kway_merge Nat.ltb) (rank_partition Nat.ltb) true [7] 4 = Some (mkOutcome [7] []).
Proof.
  apply (short_input_untouched Nat.ltb 10 equally_split_model (insertion_sort Nat.ltb) (insertion_sort Nat.ltb)
      (kway_merge Nat.ltb) (rank_partition Nat.ltb)
           true [7] 4).
  simpl; lia.
Defined.

(** C6.  Ten keys in descending order, one thread.  The PU sorts its private
    copy, yet [determine_samples] reads [sd->source], which still holds the
    unsorted input: the samples drawn are 9, 8, ..., 1, where the PU's own
    sorted chunk holds 2, 3, ..., 10 at the same split points. *)
Theorem samples_read_from_unsorted_source :
  let sd := after_local_sort (insertion_sort Nat.ltb) (insertion_sort Nat.ltb)
              true [10; 9; 8; 7; 6; 5; 4; 3; 2; 1] 1 in
  source sd = [10; 9; 8; 7; 6; 5; 4; 3; 2; 1]
  /\ sorting_places sd 0 = [1; 2; 3; 4; 5; 6; 7; 8; 9; 10]
  /\ equally_split_model (length_local sd 0) (10 * 1)
     = Some [0; 1; 2; 3; 4; 5; 6; 7; 8; 9; 10]
  /\ determine_samples 10 equally_split_model sd 1 0
     = Some [9; 8; 7; 6; 5; 4; 3; 2; 1]
  /\ determine_samples_sorted_chunk 10 equally_split_model sd 1 0
     = Some [2; 3; 4; 5; 6; 7; 8; 9; 10]
  /\ option_map (@samples nat)
       (after_split Nat.ltb 10 equally_split_model
          (insertion_sort Nat.ltb) (insertion_sort Nat.ltb) (rank_partition Nat.ltb)
          MWMSA_SAMPLING true [10; 9; 8; 7; 6; 5; 4; 3; 2; 1] 1)
     = Some [1; 2; 3; 4; 5; 6; 7; 8; 9].
Proof. repeat split; lazy; reflexivity. Qed.




(** C10 as stated fails: for a chunk of 2 elements the private buffer has 3
    cells. *)
Lemma private_buffer_has_sentinel_cell :
  exists (sd : PMWMSSortingData nat) (buf : TempBuffer nat),
    setup [2; 1] 1 = Some sd
    /\ allocate_and_copy sd 0 = Some buf
    /\ length_local sd 0 = 2
    /\ capacity buf = 3
    /\ capacity buf <> length_local sd 0.
Proof.
  do 2 eexists; repeat split; try (lazy; reflexivity).
  lazy; discriminate.
Qed.

(** C10, amended, at work: PU 1 of two on five keys copies cells 3 and 4. *)
Lemma private_buffer_witness :
  exists buf,
    allocate_and_copy (mkSD [5; 3; 4; 1; 2] (team_starts 5 2) [] [] [] []) 1 = Some buf
    /\ capacity buf = 3
    /\ cells buf = [1; 2]
    /\ sort_locally (insertion_sort Nat.ltb) (insertion_sort Nat.ltb) true buf
       = mkTemp 3 (insertion_sort Nat.ltb [1; 2]).
Proof.
  destruct (private_buffer (insertion_sort Nat.ltb) (insertion_sort Nat.ltb) true
              (mkSD [5; 3; 4; 1; 2] (team_starts 5 2) [] [] [] []) 2 1
              (proj2 (compute_starts_tile 5 2 ltac:(lia))) ltac:(lia))
    as (buf & Hb & Hcap & Hcells & _ & Hsort).
  exists buf; repeat split; assumption.
Defined.

(** C8, the other side: from two elements on the call allocates and starts
    a team. *)
Example long_input_allocates :
  parallel_mergesort Nat.ltb 10 equally_split_model (insertion_sort Nat.ltb) (insertion_sort Nat.ltb)
      (kway_merge Nat.ltb) (rank_partition Nat.ltb) false (rev (seq 1 10)) 1
  = Some (mkOutcome (seq 1 10)
            [Allocate 2; Allocate 1; Allocate 1; Allocate 1; Allocate 0; Allocate 1;
             Allocate 9; Allocate 1; Allocate 1; Parallel 1;
             Allocate 11; Allocate 11; Allocate 1; Release 0]).
Proof. lazy; reflexivity. Qed.

(** ** The further properties at work *)

(** X1, at work: forty records keyed 0, 1, 2 and tagged with their input
    position, compared by key, two threads. *)
Lemma stable_result_is_stable_sort_witness :
  exists out,
    parallel_mergesort (fun x y : nat * nat => fst x <? fst y) 10 equally_split_model
      (insertion_sort (fun x y : nat * nat => fst x <? fst y))
      (insertion_sort (fun x y : nat * nat => fst x <? fst y))
      (kway_merge (fun x y : nat * nat => fst x <? fst y))
      (rank_partition (fun x y : nat * nat => fst x <? fst y))
      true (map (fun i => (i mod 3, i)) (seq 0 40)) 2 = Some out
    /\ sequence out
       = insertion_sort (fun x y : nat * nat => fst x <? fst y)
           (map (fun i => (i mod 3, i)) (seq 0 40)).
Proof.
  eexists; split; [lazy; reflexivity|].
  apply (stable_result_is_stable_sort (fun x y : nat * nat => fst x <? fst y) 10
           equally_split_model
           (insertion_sort (fun x y : nat * nat => fst x <? fst y))
           (insertion_sort (fun x y : nat * nat => fst x <? fst y))
           (kway_merge (fun x y : nat * nat => fst x <? fst y))
           (rank_partition (fun x y : nat * nat => fst x <? fst y))
           (ltb_on_swo (nat * nat) fst)
           (insertion_sort_contract _ (ltb_on_swo (nat * nat) fst))
           (insertion_sort_stable_contract _ (ltb_on_swo (nat * nat) fst))
           (kway_merge_contract _ (ltb_on_swo (nat * nat) fst))
           (map (fun i => (i mod 3, i)) (seq 0 40)) 2).
  lazy; reflexivity.
Defined.

(** X2, at work: five records already in key order, two of them with the
    same key, two threads. *)
Lemma sorted_input_unchanged_witness :
  exists out,
    parallel_mergesort (fun x y : nat * nat => fst x <? fst y) 10 equally_split_clamped
      (insertion_sort (fun x y : nat * nat => fst x <? fst y))
      (insertion_sort (fun x y : nat * nat => fst x <? fst y))
      (kway_merge (fun x y : nat * nat => fst x <? fst y))
      (rank_partition (fun x y : nat * nat => fst x <? fst y))
      true [(1, 0); (2, 1); (2, 2); (3, 3); (5, 4)] 2 = Some out
    /\ sequence out = [(1, 0); (2, 1); (2, 2); (3, 3); (5, 4)].
Proof.
  eexists; split; [lazy; reflexivity|].
  apply (sorted_input_unchanged (fun x y : nat * nat => fst x <? fst y) 10
           equally_split_clamped
           (insertion_sort (fun x y : nat * nat => fst x <? fst y))
           (insertion_sort (fun x y : nat * nat => fst x <? fst y))
           (kway_merge (fun x y : nat * nat => fst x <? fst y))
           (rank_partition (fun x y : nat * nat => fst x <? fst y))
           (ltb_on_swo (nat * nat) fst)
           (insertion_sort_contract _ (ltb_on_swo (nat * nat) fst))
           (insertion_sort_stable_contract _ (ltb_on_swo (nat * nat) fst))
           (kway_merge_contract _ (ltb_on_swo (nat * nat) fst))
           [(1, 0); (2, 1); (2, 2); (3, 3); (5, 4)] 2).
  - repeat constructor.
  - lazy; reflexivity.
Defined.

(** X3, at work: the forty records of X1 with two threads and with one. *)
Lemma stable_result_independent_of_threads_witness :
  exists out out',
    parallel_mergesort (fun x y : nat * nat => fst x <? fst y) 10 equally_split_model
      (insertion_sort (fun x y : nat * nat => fst x <? fst y))
      (insertion_sort (fun x y : nat * nat => fst x <? fst y))
      (kway_merge (fun x y : nat * nat => fst x <? fst y))
      (rank_partition (fun x y : nat * nat => fst x <? fst y))
      true (map (fun i => (i mod 3, i)) (seq 0 40)) 2 = Some out
    /\ parallel_mergesort (fun x y : nat * nat => fst x <? fst y) 10 equally_split_model
         (insertion_sort (fun x y : nat * nat => fst x <? fst y))
         (insertion_sort (fun x y : nat * nat => fst x <? fst y))
         (kway_merge (fun x y : nat * nat => fst x <? fst y))
         (rank_partition (fun x y : nat * nat => fst x <? fst y))
         true (map (fun i => (i mod 3, i)) (seq 0 40)) 1 = Some out'
    /\ sequence out = sequence out'.
Proof.
  do 2 eexists; split; [lazy; reflexivity|]; split; [lazy; reflexivity|].
  apply (stable_result_independent_of_threads
           (fun x y : nat * nat => fst x <? fst y) 10 equally_split_model
           (insertion_sort (fun x y : nat * nat => fst x <? fst y))
           (insertion_sort (fun x y : nat * nat => fst x <? fst y))
           (kway_merge (fun x y : nat * nat => fst x <? fst y))
           (rank_partition (fun x y : nat * nat => fst x <? fst y))
           (ltb_on_swo (nat * nat) fst)
           (insertion_sort_contract _ (ltb_on_swo (nat * nat) fst))
           (insertion_sort_stable_contract _ (ltb_on_swo (nat * nat) fst))
           (kway_merge_contract _ (ltb_on_swo (nat * nat) fst))
           (map (fun i => (i mod 3, i)) (seq 0 40)) 2 1);
    lazy; reflexivity.
Defined.

(** X4, at work: forty distinct keys in descending order, two threads,
    without the stability flag. *)
Lemma distinct_keys_unique_result_witness :
  exists out,
    parallel_mergesort Nat.ltb 10 equally_split_model (insertion_sort Nat.ltb)
      (insertion_sort Nat.ltb) (kway_merge Nat.ltb) (rank_partition Nat.ltb)
      false (rev (seq 1 40)) 2 = Some out
    /\ sequence out = insertion_sort Nat.ltb (rev (seq 1 40)).
Proof.
  eexists; split; [lazy; reflexivity|].
  apply (distinct_keys_unique_result Nat.ltb 10 equally_split_model
           (insertion_sort Nat.ltb) (insertion_sort Nat.ltb)
           (kway_merge Nat.ltb) (rank_partition Nat.ltb)
           nat_ltb_swo (insertion_sort_contract Nat.ltb nat_ltb_swo)
           (insertion_sort_stable_contract Nat.ltb nat_ltb_swo)
           (kway_merge_contract Nat.ltb nat_ltb_swo)
           false (rev (seq 1 40)) 2).
  - intros a b _ _ E; unfold equiv in E.
    destruct (Nat.ltb_spec a b), (Nat.ltb_spec b a); simpl in E; try discriminate; lia.
  - lazy; reflexivity.
Defined.

(** X5, at work: five elements, eight threads requested: five PUs, and the
    last one owns an element. *)
Lemma every_pu_owns_an_element_witness :
  exists sd,
    setup [5; 3; 4; 1; 2] (clamp_threads 5 8) = Some sd
    /\ 1 <= length_local sd 4
    /\ length_local sd 0 <= length_local sd 4 + 1.
Proof.
  eexists; split; [reflexivity|].
  pose proof (every_pu_owns_an_element [5; 3; 4; 1; 2] 8 _ eq_refl) as H.
  assert (H4 : 4 < clamp_threads (length [5; 3; 4; 1; 2]) 8) by (cbv; lia).
  assert (H0 : 0 < clamp_threads (length [5; 3; 4; 1; 2]) 8) by (cbv; lia).
  destruct (H 4 H4) as [H1 _].
  destruct (H 0 H0) as [_ H2].
  split; [exact H1 | exact (H2 4 H4)].
Defined.

(** X6, at work: five keys, two threads: buffers of 4 and 3 cells. *)
Lemma local_sort_works_on_copies_witness :
  exists sd sd1,
    setup [5; 3; 4; 1; 2] (clamp_threads 5 2) = Some sd
    /\ local_sort_phase (insertion_sort Nat.ltb) (insertion_sort Nat.ltb) false 2 sd
       = Some sd1
    /\ source sd1 = [5; 3; 4; 1; 2]
    /\ length (temporary sd1) = 2
    /\ sum_nat (map (@capacity nat) (temporary sd1)) = 5 + 2.
Proof.
  eexists.
  destruct (local_sort_works_on_copies Nat.ltb (insertion_sort Nat.ltb)
              (insertion_sort Nat.ltb) nat_ltb_swo
              (insertion_sort_contract Nat.ltb nat_ltb_swo)
              (insertion_sort_stable_contract Nat.ltb nat_ltb_swo)
              false [5; 3; 4; 1; 2] 2 _ eq_refl)
    as (sd1 & H1 & Hs & Hl & _ & _ & Hc).
  exists sd1; split; [reflexivity|]; auto.
Defined.

(** X7, at work: forty keys in descending order, two threads. *)
Lemma splitters_are_input_elements_witness :
  exists sd,
    after_split Nat.ltb 10 equally_split_model (insertion_sort Nat.ltb)
      (insertion_sort Nat.ltb) (rank_partition Nat.ltb)
      MWMSA_SAMPLING false (rev (seq 1 40)) 2 = Some sd
    /\ length (samples sd) = 2 * 19
    /\ forall v, In v (samples sd) -> In v (rev (seq 1 40)).
Proof.
  eexists; split; [lazy; reflexivity|].
  destruct (splitters_are_input_elements Nat.ltb 10 equally_split_model
              (insertion_sort Nat.ltb) (insertion_sort Nat.ltb) (rank_partition Nat.ltb)
              nat_ltb_swo (insertion_sort_contract Nat.ltb nat_ltb_swo)
              (insertion_sort_stable_contract Nat.ltb nat_ltb_swo)
              false (rev (seq 1 40)) 2 _ eq_refl) as (_ & Hl & _ & Hin).
  split; [exact Hl | exact Hin].
Defined.

(** X8, at work: forty keys in descending order, two threads; the piece PU 1
    takes from chunk 0. *)
Lemma pieces_are_splitter_buckets_witness :
  exists sd,
    after_split Nat.ltb 10 equally_split_model (insertion_sort Nat.ltb)
      (insertion_sort Nat.ltb) (rank_partition Nat.ltb)
      MWMSA_SAMPLING false (rev (seq 1 40)) 2 = Some sd
    /\ piece_begin (piece sd 1 0) <= piece_end (piece sd 1 0)
    /\ piece_end (piece sd 1 0) <= length (sorting_places sd 0).
Proof.
  eexists; split; [lazy; reflexivity|].
  destruct (pieces_are_splitter_buckets Nat.ltb 10 equally_split_model
              (insertion_sort Nat.ltb) (insertion_sort Nat.ltb) (rank_partition Nat.ltb)
              nat_ltb_swo (insertion_sort_contract Nat.ltb nat_ltb_swo)
              (insertion_sort_stable_contract Nat.ltb nat_ltb_swo)
              false (rev (seq 1 40)) 2 _ eq_refl 1 0 ltac:(unfold clamp_threads; simpl; lia) ltac:(unfold clamp_threads; simpl; lia))
    as (Hb & He & _).
  split; [exact Hb | exact He].
Defined.

(** X10, at work: the call of X4 completes, with two threads and
    oversampling 10. *)
Lemma call_needs_a_thread_and_oversampling_witness : 1 <= 2 /\ 1 <= 10.
Proof.
  apply (call_needs_a_thread_and_oversampling Nat.ltb 10 equally_split_model
           (insertion_sort Nat.ltb) (insertion_sort Nat.ltb)
           (kway_merge Nat.ltb) (rank_partition Nat.ltb)
           false (rev (seq 1 40)) 2
           (mkOutcome (seq 1 40)
              ([Allocate 3; Allocate 2; Allocate 2; Allocate 2; Allocate 1; Allocate 2;
                Allocate 38; Allocate 2; Allocate 2; Allocate 2; Parallel 2;
                Allocate 21; Allocate 21; Allocate 2; Release 0;
                Allocate 21; Allocate 21; Allocate 2; Release 1]))).
  - simpl; lia.
  - lazy; reflexivity.
Defined.

(** X11, at work: forty keys, two threads: every PU's sample reads stay
    inside, and the call completes. *)
Lemma only_sample_reads_can_fail_witness :
  exists sd sd1,
    setup (rev (seq 1 40)) (clamp_threads 40 2) = Some sd
    /\ local_sort_phase (insertion_sort Nat.ltb) (insertion_sort Nat.ltb) false 2 sd
       = Some sd1
    /\ ((exists out,
           parallel_mergesort Nat.ltb 10 equally_split_model (insertion_sort Nat.ltb)
             (insertion_sort Nat.ltb) (kway_merge Nat.ltb) (rank_partition Nat.ltb)
             false (rev (seq 1 40)) 2 = Some out)
        <-> forall iam, iam < 2 ->
              exists smp, determine_samples 10 equally_split_model sd1 2 iam = Some smp).
Proof.
  do 2 eexists; split; [lazy; reflexivity|]; split; [lazy; reflexivity|].
  eapply (only_sample_reads_can_fail Nat.ltb 10 equally_split_model
           (insertion_sort Nat.ltb) (insertion_sort Nat.ltb)
           (kway_merge Nat.ltb) (rank_partition Nat.ltb)
           nat_ltb_swo (insertion_sort_contract Nat.ltb nat_ltb_swo)
           (insertion_sort_stable_contract Nat.ltb nat_ltb_swo)
           (kway_merge_contract Nat.ltb nat_ltb_swo)
           false (rev (seq 1 40)) 2);
    try (unfold clamp_threads; simpl; lia); lazy; reflexivity.
Defined.

(** X12, at work: forty keys, two threads, 19 samples per PU: sample 3 of
    PU 1 is cell 22 of 38. *)
Lemma sample_cells_disjoint_in_bounds_witness :
  exists drawn,
    omap (determine_samples 10 equally_split_model
            (after_local_sort (insertion_sort Nat.ltb) (insertion_sort Nat.ltb)
               false (rev (seq 1 40)) 2) 2) (seq 0 2) = Some drawn
    /\ length (concat drawn) = 38
    /\ sample_slot 19 1 3 = 22
    /\ sample_slot (num_samples_of 10 2) 1 3 < 2 * num_samples_of 10 2.
Proof.
  eexists; split; [lazy; reflexivity|].
  destruct (sample_cells_disjoint_in_bounds 10 equally_split_model 2
              (after_local_sort (insertion_sort Nat.ltb) (insertion_sort Nat.ltb)
                 false (rev (seq 1 40)) 2) _ eq_refl)
    as [Hl Hc].
  split; [exact Hl|]; split; [reflexivity|].
  apply (Hc 1 3); unfold num_samples_of; simpl; lia.
Defined.

(** X9, at work: forty keys, two threads, the rank selection of the
    reference kernels. *)
Lemma exact_split_keeps_chunk_bounds_witness :
  exists sd,
    after_split Nat.ltb 10 equally_split_model (insertion_sort Nat.ltb)
      (insertion_sort Nat.ltb) (rank_partition Nat.ltb)
      MWMSA_EXACT false (rev (seq 1 40)) 2 = Some sd
    /\ pu_offset sd 2 1 = 20
    /\ pu_length_am sd 2 1 = 20%Z.
Proof.
  eexists; split; [lazy; reflexivity|].
  apply (exact_split_keeps_chunk_bounds Nat.ltb 10 equally_split_model
           (insertion_sort Nat.ltb) (insertion_sort Nat.ltb) (rank_partition Nat.ltb)
           false (rev (seq 1 40)) 2 _ eq_refl).
  - intros iam Hi; assert (E : iam = 0) by (unfold clamp_threads in Hi; simpl in Hi; lia); subst iam.
    lazy; reflexivity.
  - unfold clamp_threads; simpl; lia.
Defined.

(** X13, at work: the forty records of X1, two threads, without the
    stability flag. *)
Lemma result_agrees_with_std_sort_witness :
  exists out,
    parallel_mergesort (fun x y : nat * nat => fst x <? fst y) 10 equally_split_model
      (insertion_sort (fun x y : nat * nat => fst x <? fst y))
      (insertion_sort (fun x y : nat * nat => fst x <? fst y))
      (kway_merge (fun x y : nat * nat => fst x <? fst y))
      (rank_partition (fun x y : nat * nat => fst x <? fst y))
      false (map (fun i => (i mod 3, i)) (seq 0 40)) 2 = Some out
    /\ Forall2 (fun a b => equiv (fun x y : nat * nat => fst x <? fst y) a b = true)
         (sequence out)
         (insertion_sort (fun x y : nat * nat => fst x <? fst y)
            (map (fun i => (i mod 3, i)) (seq 0 40))).
Proof.
  eexists; split; [lazy; reflexivity|].
  apply (result_agrees_with_std_sort (fun x y : nat * nat => fst x <? fst y) 10
           equally_split_model
           (insertion_sort (fun x y : nat * nat => fst x <? fst y))
           (insertion_sort (fun x y : nat * nat => fst x <? fst y))
           (kway_merge (fun x y : nat * nat => fst x <? fst y))
           (rank_partition (fun x y : nat * nat => fst x <? fst y))
           (ltb_on_swo (nat * nat) fst)
           (insertion_sort_contract _ (ltb_on_swo (nat * nat) fst))
           (insertion_sort_stable_contract _ (ltb_on_swo (nat * nat) fst))
           (kway_merge_contract _ (ltb_on_swo (nat * nat) fst))
           false (map (fun i => (i mod 3, i)) (seq 0 40)) 2).
  lazy; reflexivity.
Defined.

(** X14, at work: forty keys in descending order, two threads: the samples
    of PU 1, drawn in place. *)
Lemma in_place_samples_from_sorted_chunk_witness :
  exists sd sd1 sd1',
    setup (rev (seq 1 40)) (clamp_threads 40 2) = Some sd
    /\ local_sort_in_place_phase (insertion_sort Nat.ltb) (insertion_sort Nat.ltb)
         false 2 sd = Some sd1
    /\ local_sort_phase (insertion_sort Nat.ltb) (insertion_sort Nat.ltb) false 2 sd
       = Some sd1'
    /\ determine_samples_in_place 10 equally_split_model sd1 2 1
       = determine_samples_sorted_chunk 10 equally_split_model sd1' 2 1.
Proof.
  do 3 eexists; split; [lazy; reflexivity|]; split; [lazy; reflexivity|];
    split; [lazy; reflexivity|].
  eapply (in_place_samples_from_sorted_chunk Nat.ltb 10 equally_split_model
            (insertion_sort Nat.ltb) (insertion_sort Nat.ltb)
            (insertion_sort_contract Nat.ltb nat_ltb_swo)
            (insertion_sort_stable_contract Nat.ltb nat_ltb_swo)
            false (rev (seq 1 40)) 2);
    [lazy; reflexivity | lazy; reflexivity | lazy; reflexivity
    | unfold clamp_threads; simpl; lia].
Defined.

(** X15, at work: forty keys in descending order, two threads, in place. *)
Lemma copy_last_sorts_witness :
  parallel_mergesort_copy_last Nat.ltb 10 equally_split_model (insertion_sort Nat.ltb)
    (insertion_sort Nat.ltb) (kway_merge Nat.ltb) false (rev (seq 1 40)) 2
  = Some (seq 1 40)
  /\ StronglySorted (cle Nat.ltb) (seq 1 40)
  /\ Permutation (rev (seq 1 40)) (seq 1 40).
Proof.
  assert (H : parallel_mergesort_copy_last Nat.ltb 10 equally_split_model
                (insertion_sort Nat.ltb) (insertion_sort Nat.ltb) (kway_merge Nat.ltb)
                false (rev (seq 1 40)) 2 = Some (seq 1 40))
    by (vm_compute; reflexivity).
  split; [exact H|].
  destruct (proj1 (copy_last_sorts Nat.ltb 10 equally_split_model
                     (insertion_sort Nat.ltb) (insertion_sort Nat.ltb)
                     (kway_merge Nat.ltb)
                     nat_ltb_swo (insertion_sort_contract Nat.ltb nat_ltb_swo)
                     (insertion_sort_stable_contract Nat.ltb nat_ltb_swo)
                     (kway_merge_contract Nat.ltb nat_ltb_swo)
                     false (rev (seq 1 40)) 2) (seq 1 40) H) as (Hs & Hp & _).
  split; [exact Hs | exact Hp].
Defined.

(** X16, at work: the forty records of X1, two threads in the copy
    configuration, one thread in place. *)
Lemma configurations_agree_when_stable_witness :
  exists out out',
    parallel_mergesort (fun x y : nat * nat => fst x <? fst y) 10 equally_split_model
      (insertion_sort (fun x y : nat * nat => fst x <? fst y))
      (insertion_sort (fun x y : nat * nat => fst x <? fst y))
      (kway_merge (fun x y : nat * nat => fst x <? fst y))
      (rank_partition (fun x y : nat * nat => fst x <? fst y))
      true (map (fun i => (i mod 3, i)) (seq 0 40)) 2 = Some out
    /\ parallel_mergesort_copy_last (fun x y : nat * nat => fst x <? fst y) 10
         equally_split_model
         (insertion_sort (fun x y : nat * nat => fst x <? fst y))
         (insertion_sort (fun x y : nat * nat => fst x <? fst y))
         (kway_merge (fun x y : nat * nat => fst x <? fst y))
         true (map (fun i => (i mod 3, i)) (seq 0 40)) 1 = Some out'
    /\ sequence out = out'.
Proof.
  do 2 eexists; split; [lazy; reflexivity|]; split; [lazy; reflexivity|].
  apply (configurations_agree_when_stable
           (fun x y : nat * nat => fst x <? fst y) 10 equally_split_model
           (insertion_sort (fun x y : nat * nat => fst x <? fst y))
           (insertion_sort (fun x y : nat * nat => fst x <? fst y))
           (kway_merge (fun x y : nat * nat => fst x <? fst y))
           (rank_partition (fun x y : nat * nat => fst x <? fst y))
           (ltb_on_swo (nat * nat) fst)
           (insertion_sort_contract _ (ltb_on_swo (nat * nat) fst))
           (insertion_sort_stable_contract _ (ltb_on_swo (nat * nat) fst))
           (kway_merge_contract _ (ltb_on_swo (nat * nat) fst))
           (map (fun i => (i mod 3, i)) (seq 0 40)) 2 1);
    lazy; reflexivity.
Defined.

(** X17, at work: forty keys in descending order, two threads, in place:
    two buffers, forty cells in all. *)
Lemma copy_last_buffers_witness :
  exists sd sd2 sd3,
    setup (rev (seq 1 40)) (clamp_threads 40 2) = Some sd
    /\ copy_last_until_split Nat.ltb 10 equally_split_model (insertion_sort Nat.ltb)
         (insertion_sort Nat.ltb) false 2 sd = Some sd2
    /\ merge_to_temporary_phase (kway_merge Nat.ltb) false 2 sd2 = Some sd3
    /\ length (temporary sd3) = 2
    /\ sum_nat (map (@capacity nat) (temporary sd3)) = 40.
Proof.
  do 3 eexists; split; [lazy; reflexivity|]; split; [lazy; reflexivity|];
    split; [lazy; reflexivity|].
  edestruct (copy_last_buffers Nat.ltb 10 equally_split_model
               (insertion_sort Nat.ltb) (insertion_sort Nat.ltb) (kway_merge Nat.ltb)
               nat_ltb_swo (insertion_sort_contract Nat.ltb nat_ltb_swo)
               (insertion_sort_stable_contract Nat.ltb nat_ltb_swo)
               (kway_merge_contract Nat.ltb nat_ltb_swo)
               false (rev (seq 1 40)) 2) as (Hl & _ & Hs);
    [lia | lazy; reflexivity | lazy; reflexivity | lazy; reflexivity |].
  split; [exact Hl | exact Hs].
Defined.

(** X18, at work: five keys, two threads, in place. *)
Lemma in_place_local_sort_sorts_chunks_witness :
  exists sd sd1,
    setup [5; 3; 4; 1; 2] (clamp_threads 5 2) = Some sd
    /\ local_sort_in_place_phase (insertion_sort Nat.ltb) (insertion_sort Nat.ltb)
         false 2 sd = Some sd1
    /\ temporary sd1 = []
    /\ length (source sd1) = 5
    /\ Permutation [5; 3; 4; 1; 2] (source sd1).
Proof.
  eexists.
  destruct (in_place_local_sort_sorts_chunks Nat.ltb (insertion_sort Nat.ltb)
              (insertion_sort Nat.ltb) nat_ltb_swo
              (insertion_sort_contract Nat.ltb nat_ltb_swo)
              (insertion_sort_stable_contract Nat.ltb nat_ltb_swo)
              false [5; 3; 4; 1; 2] 2 _ eq_refl)
    as (sd1 & H1 & Ht & Hn & Hp & _).
  exists sd1; split; [reflexivity|]; auto.
Defined.
